(** * macropy: the matcher algebra, the scope tracker and the import hook

    A shallow embedding of [macropy/experimental/pattern.py] (the matcher
    classes, and the rewriting of [if] statements by the macros [switch] and
    [patterns]), of [macropy/core/analysis.py] (the [Scoped] walker) and of
    [macropy/core/import_hooks.py] (the finder and the loader), with the
    properties of them that the specification states and others that the
    code shows. *)

From Stdlib Require Import ZArith.
From stdpp Require Import gmap strings list.

Local Open Scope Z_scope.
Local Open Scope string_scope.
Local Open Scope list_scope.

(** * Exceptions and results

    Python code either returns or raises; [result A] is the outcome of a
    call.  The message of a [PatternMatchException] is kept in structured
    form: one constructor per [raise] site of pattern.py, carrying the
    values that the source formats into the text. *)

Inductive pm_message :=
| LiteralMatchFailed                 (* "Literal match failed" *)
| ExpectedTuple (n : nat)            (* "Expected tuple of %d elements" *)
| ExpectedList (n : nat)             (* "Expected list of length %d" *)
| ShouldBeOfType (clazz : string)    (* "Matchee should be of type %r" *)
| NoAttribute (kw_key : string).     (* "Keyword argument match failed: no attribute %r" *)

Inductive exn :=
| PatternMatchException (msg : pm_message)
| PatternVarConflict
| KeyError (key : option string)
| AttributeError (attr : string)
| TypeError
| ValueError.

Inductive result (A : Type) :=
| Ok (a : A)
| Raise (e : exn).
Arguments Ok {A} a.
Arguments Raise {A} e.

Global Instance result_ret : MRet result := λ A a, Ok a.
Global Instance result_bind : MBind result := λ A B k r,
  match r with
  | Ok a => k a
  | Raise e => Raise e
  end.

(** The first entry under a name, in a list of named things (the attributes
    of an object, the fields of a node, keyword arguments). *)
Fixpoint assoc {A} (k : string) (l : list (string * A)) : option A :=
  match l with
  | [] => None
  | (k', a) :: l' => if decide (k' = k) then Some a else assoc k l'
  end.

(** * pattern.py *)

Module Pattern.

(** ** Run-time values

    The matchees: [None], booleans, integers, strings, tuples, lists and
    instances of user classes.  An instance carries its identity, the names
    of the classes it is an instance of (its class and the bases of it), and
    its attributes.  Floating-point numbers are left out. *)

Inductive value :=
| VNone
| VBool (b : bool)
| VInt (n : Z)
| VStr (s : string)
| VTuple (items : list value)
| VList (items : list value)
| VObject (oid : nat) (classes : list string) (attrs : list (string * value)).

(** [a == b] of Python.  [bool] is a subclass of [int], so [True == 1];
    sequences compare element by element and only within their own kind;
    instances keep the default comparison of [object], which is identity. *)
Definition as_int (v : value) : option Z :=
  match v with
  | VBool b => Some (if b then 1 else 0)
  | VInt n => Some n
  | _ => None
  end.

Fixpoint py_eq (a b : value) {struct a} : bool :=
  let fix all_eq (xs ys : list value) {struct xs} : bool :=
    match xs, ys with
    | [], [] => true
    | x :: xs', y :: ys' => py_eq x y && all_eq xs' ys'
    | _, _ => false
    end in
  match a, b with
  | VNone, VNone => true
  | VStr s, VStr t => bool_decide (s = t)
  | VTuple xs, VTuple ys => all_eq xs ys
  | VList xs, VList ys => all_eq xs ys
  | VObject i _ _, VObject j _ _ => bool_decide (i = j)
  | (VBool _ | VInt _), (VBool _ | VInt _) =>
      bool_decide (as_int a = as_int b)
  | _, _ => false
  end.

Definition py_ne (a b : value) : bool := negb (py_eq a b).

(** [getattr(o, name)] on the attributes of an instance; values of the
    other kinds carry none of the attributes that a matcher asks for. *)
Definition getattr (o : value) (name : string) : option value :=
  match o with
  | VObject _ _ attrs => assoc name attrs
  | _ => None
  end.

(** [getattr(o, name, default)] *)
Definition getattr_default (o : value) (name : string) (dflt : value) : value :=
  match getattr o name with
  | Some v => v
  | None => dflt
  end.

Definition hasattr (o : value) (name : string) : bool :=
  match getattr o name with
  | Some _ => true
  | None => false
  end.

(** ** Classes

    What [ClassMatcher] asks of the class it is given: its name, the
    outcome of [inspect.getargspec(clazz.__init__)] (the names [.args] when
    the call returns, the exception when it raises: inspect is not among
    the sources, and what it does for a class is taken as it comes) and its
    [__unapply__] hook when it declares one. *)
Definition unapplied : Type := list value * list (string * value).

Record pyclass := {
  cls_name : string;
  cls_init_args : result (list string);
  cls_unapply : option (value → list string → result unapplied)
}.

Definition isinstance (o : value) (clazz : pyclass) : bool :=
  match o with
  | VObject _ classes _ => bool_decide (cls_name clazz ∈ classes)
  | _ => false
  end.

(** ** util.flatten and _vars_are_disjoint *)

(** Modelled from the spec: [util.flatten] is defined in macropy/core/util.py,
    which is not among the sources.  Every call in pattern.py hands it a list
    of the [var_names()] of some matchers, and by the spec the bound names of
    a composite are the union of the bound names of its sub-matchers: the
    lists are joined in order. *)
Definition flatten {A} (xs : list (list A)) : list A := concat xs.

(** [len(var_names) == len(set(var_names))] *)
Definition _vars_are_disjoint (var_names : list string) : bool :=
  bool_decide (length var_names = length (remove_dups var_names)).

(** ** The matchers

    One constructor per class, holding the attributes that [__init__]
    stores.  [kwMatchers] is the dictionary of the keyword arguments, kept
    in the order of the call. *)
Inductive Matcher :=
| LiteralMatcher (val : value)
| TupleMatcher (matchers : list Matcher)
| ParallelMatcher (matcher1 matcher2 : Matcher)
| ListMatcher (matchers : list Matcher)
| NameMatcher (name : string)
| WildcardMatcher
| ClassMatcher (clazz : pyclass) (positionalMatchers : list Matcher)
    (kwMatchers : list (string * Matcher)).

Definition bindings : Type := list (string * value).

(** [var_names()].  In [ClassMatcher] the source maps over
    [positionalMatchers + list(kwMatchers.values())]; the map is taken over
    the two parts here and the results are joined, see
    [ClassMatcher_var_names]. *)
Fixpoint var_names (m : Matcher) : list string :=
  match m with
  | LiteralMatcher _ => []
  | TupleMatcher matchers => flatten (map var_names matchers)
  | ParallelMatcher matcher1 matcher2 =>
      flatten [var_names matcher1; var_names matcher2]
  | ListMatcher matchers => flatten (map var_names matchers)
  | NameMatcher name => [name]
  | WildcardMatcher => ["_"]
  | ClassMatcher _ positionalMatchers kwMatchers =>
      flatten (map var_names positionalMatchers
               ++ map (λ km, var_names km.2) kwMatchers)
  end.

(** ** __init__

    The constructors of the composite matchers raise [PatternVarConflict]
    before the object exists. *)
Definition TupleMatcher_init (matchers : list Matcher) : result Matcher :=
  if negb (_vars_are_disjoint (flatten (map var_names matchers)))
  then Raise PatternVarConflict
  else Ok (TupleMatcher matchers).

Definition ParallelMatcher_init (matcher1 matcher2 : Matcher) : result Matcher :=
  if negb (_vars_are_disjoint
             (flatten [var_names matcher1; var_names matcher2]))
  then Raise PatternVarConflict
  else Ok (ParallelMatcher matcher1 matcher2).

Definition ListMatcher_init (matchers : list Matcher) : result Matcher :=
  if negb (_vars_are_disjoint (flatten (map var_names matchers)))
  then Raise PatternVarConflict
  else Ok (ListMatcher matchers).

Definition ClassMatcher_init (clazz : pyclass)
    (positionalMatchers : list Matcher)
    (kwMatchers : list (string * Matcher)) : result Matcher :=
  if negb (_vars_are_disjoint
             (flatten (map var_names
                         (positionalMatchers ++ map snd kwMatchers))))
  then Raise PatternVarConflict
  else Ok (ClassMatcher clazz positionalMatchers kwMatchers).

(** ** match *)

(** A sub-matcher as the loops below see it: its [match] method. *)
Definition match_fn : Type := value → result bindings.

(** [for (matcher, sub_matchee) in zip(matchers, matchee):
       updates.extend(matcher.match(sub_matchee))]
    [zip] stops at the end of the shorter of the two. *)
Fixpoint match_zip (matchers : list match_fn) (matchee : list value)
    (updates : bindings) : result bindings :=
  match matchers, matchee with
  | matcher :: matchers', sub_matchee :: matchee' =>
      m ← matcher sub_matchee;
      match_zip matchers' matchee' (updates ++ m)
  | _, _ => Ok updates
  end.

(** [genPosValues]: a generator, nothing of it runs before the first
    element is asked for.  It is kept as the suspended outcome of running
    it to its end; an exception of [inspect.getargspec] goes through it
    as it is. *)
Definition genPosValues (clazz : pyclass) (matchee : value)
    : result (list value) :=
  match cls_init_args clazz with
  | Raise e => Raise e
  | Ok args =>
      Ok (map (λ arg, getattr_default matchee arg VNone)
            (filter (λ arg, arg ≠ "self") args))
  end.

(** The loop of [default_unapply] over [kw_keys]. *)
Fixpoint default_kw_dict (matchee : value) (kw_keys : list string)
    (kw_dict : list (string * value)) : result (list (string * value)) :=
  match kw_keys with
  | [] => Ok kw_dict
  | kw_key :: kw_keys' =>
      if negb (hasattr matchee kw_key)
      then Raise (PatternMatchException (NoAttribute kw_key))
      else default_kw_dict matchee kw_keys'
             (kw_dict ++ [(kw_key, getattr_default matchee kw_key VNone)])
  end.

Definition default_unapply (clazz : pyclass) (matchee : value)
    (kw_keys : list string)
    : result (result (list value) * list (string * value)) :=
  if negb (isinstance matchee clazz)
  then Raise (PatternMatchException (ShouldBeOfType (cls_name clazz)))
  else
    let pos_values := genPosValues clazz matchee in
    kw_dict ← default_kw_dict matchee kw_keys [];
    Ok (pos_values, kw_dict).

(** [zip(self.positionalMatchers, pos_vals)]: the generator is only
    started when there is a first positional matcher. *)
Definition match_positional (positionalMatchers : list match_fn)
    (pos_vals : result (list value)) (updates : bindings) : result bindings :=
  match positionalMatchers with
  | [] => Ok updates
  | _ :: _ =>
      vals ← pos_vals;
      match_zip positionalMatchers vals updates
  end.

(** [for key, val in kw_dict.items():
       updates.extend(self.kwMatchers[key].match(val))] *)
Fixpoint match_keywords (kwMatchers : list (string * match_fn))
    (kw_dict : list (string * value)) (updates : bindings) : result bindings :=
  match kw_dict with
  | [] => Ok updates
  | (key, val) :: kw_dict' =>
      match assoc key kwMatchers with
      | None => Raise (KeyError (Some key))
      | Some matcher =>
          m ← matcher val;
          match_keywords kwMatchers kw_dict' (updates ++ m)
      end
  end.

Definition TupleMatcher_match (matchers : list match_fn) (matchee : value)
    : result bindings :=
  match matchee with
  | VTuple items =>
      if negb (bool_decide (length items = length matchers))
      then Raise (PatternMatchException (ExpectedTuple (length matchers)))
      else match_zip matchers items []
  | _ => Raise (PatternMatchException (ExpectedTuple (length matchers)))
  end.

Definition ListMatcher_match (matchers : list match_fn) (matchee : value)
    : result bindings :=
  match matchee with
  | VList items =>
      if negb (bool_decide (length items = length matchers))
      then Raise (PatternMatchException (ExpectedList (length matchers)))
      else match_zip matchers items []
  | _ => Raise (PatternMatchException (ExpectedList (length matchers)))
  end.

(** The first statement of [ClassMatcher.match]: the values to match, from
    the hook of the class when it declares one and from [default_unapply]
    when it does not.  What a hook returns is there when it returns. *)
Definition unapply (clazz : pyclass) (matchee : value) (kw_keys : list string)
    : result (result (list value) * list (string * value)) :=
  match cls_unapply clazz with
  | Some __unapply__ =>
      '(pos_vals, kw_dict) ← __unapply__ matchee kw_keys;
      Ok (Ok pos_vals, kw_dict)
  | None => default_unapply clazz matchee kw_keys
  end.

Definition ClassMatcher_match (clazz : pyclass)
    (positionalMatchers : list match_fn)
    (kwMatchers : list (string * match_fn)) (matchee : value)
    : result bindings :=
  '(pos_vals, kw_dict) ← unapply clazz matchee (map fst kwMatchers);
  updates ← match_positional positionalMatchers pos_vals [];
  match_keywords kwMatchers kw_dict updates.

Fixpoint match_ (m : Matcher) : match_fn :=
  match m with
  | LiteralMatcher val => λ matchee,
      if py_ne val matchee
      then Raise (PatternMatchException LiteralMatchFailed)
      else Ok []
  | TupleMatcher matchers => TupleMatcher_match (map match_ matchers)
  | ParallelMatcher matcher1 matcher2 => λ matchee,
      match_zip [match_ matcher1; match_ matcher2] [matchee; matchee] []
  | ListMatcher matchers => ListMatcher_match (map match_ matchers)
  | NameMatcher name => λ matchee, Ok [(name, matchee)]
  | WildcardMatcher => λ _, Ok [("_", VInt 3)]
  | ClassMatcher clazz positionalMatchers kwMatchers =>
      ClassMatcher_match clazz (map match_ positionalMatchers)
        (map (λ km, (km.1, match_ km.2)) kwMatchers)
  end.

(** ** Notions that the statements use *)

(** The name lists of the children of a composite share no name. *)
Definition pairwise_disjoint (ls : list (list string)) : Prop :=
  ∀ i j xs ys x, i ≠ j → ls !! i = Some xs → ls !! j = Some ys →
    x ∈ xs → x ∉ ys.

(** The matchers that Python code can hold: every composite among them
    went through its [__init__]. *)
Inductive constructed : Matcher → Prop :=
| constructed_Literal val : constructed (LiteralMatcher val)
| constructed_Name name : constructed (NameMatcher name)
| constructed_Wildcard : constructed WildcardMatcher
| constructed_Tuple ms :
    Forall constructed ms →
    TupleMatcher_init ms = Ok (TupleMatcher ms) →
    constructed (TupleMatcher ms)
| constructed_List ms :
    Forall constructed ms →
    ListMatcher_init ms = Ok (ListMatcher ms) →
    constructed (ListMatcher ms)
| constructed_Parallel m1 m2 :
    constructed m1 → constructed m2 →
    ParallelMatcher_init m1 m2 = Ok (ParallelMatcher m1 m2) →
    constructed (ParallelMatcher m1 m2)
| constructed_Class clazz pos kw :
    Forall constructed pos →
    Forall (λ km, constructed km.2) kw →
    ClassMatcher_init clazz pos kw = Ok (ClassMatcher clazz pos kw) →
    constructed (ClassMatcher clazz pos kw).

(** The matchers whose classes are all destructured by [default_unapply],
    and have an [__init__] that [inspect] can read: no code from outside
    pattern.py runs in a match of theirs. *)
Inductive default_path : Matcher → Prop :=
| default_Literal val : default_path (LiteralMatcher val)
| default_Name name : default_path (NameMatcher name)
| default_Wildcard : default_path WildcardMatcher
| default_Tuple ms : Forall default_path ms → default_path (TupleMatcher ms)
| default_List ms : Forall default_path ms → default_path (ListMatcher ms)
| default_Parallel m1 m2 :
    default_path m1 → default_path m2 → default_path (ParallelMatcher m1 m2)
| default_Class clazz pos kw :
    cls_unapply clazz = None →
    (∃ args, cls_init_args clazz = Ok args) →
    Forall default_path pos →
    Forall (λ km, default_path km.2) kw →
    default_path (ClassMatcher clazz pos kw).

(** The exceptions that say that a match failed. *)
Definition is_pme (e : exn) : Prop := ∃ msg, e = PatternMatchException msg.

(** A class [Point] with [__init__(self, x, y)], and instances of it. *)
Definition Point : pyclass :=
  {| cls_name := "Point";
     cls_init_args := Ok ["self"; "x"; "y"];
     cls_unapply := None |}.

Definition Point_obj (oid : nat) (attrs : list (string * value)) : value :=
  VObject oid ["Point"; "object"] attrs.

(** A class [Annotated] for whose [__init__] [inspect.getargspec] raises
    [ValueError], as it does for a signature with annotations or
    keyword-only parameters; and a class [Hooked] whose [__unapply__] hook
    raises [KeyError]. *)
Definition Annotated : pyclass :=
  {| cls_name := "Annotated";
     cls_init_args := Raise ValueError;
     cls_unapply := None |}.

Definition Hooked : pyclass :=
  {| cls_name := "Hooked";
     cls_init_args := Ok ["self"];
     cls_unapply := Some (λ _ _, Raise (KeyError (Some "x"))) |}.

(** ** _match_value and get_var

    The attribute [var_dict] of a matcher object; [None] as long as no call
    of [_match_value] has set it. *)
Definition var_dict : Type := option (gmap string value).

(** [_match_value(matchee)]: the attribute after the call, and the outcome
    of the call.  [self.var_dict = {}] comes before [self.match] is
    called. *)
Definition _match_value (m : Matcher) (matchee : value) (_ : var_dict)
    : var_dict * result () :=
  match match_ m matchee with
  | Raise e => (Some ∅, Raise e)
  | Ok updates =>
      (Some (foldl (λ d (b : string * value), <[b.1 := b.2]> d) ∅ updates),
       Ok ())
  end.

(** [get_var(var_name)] *)
Definition get_var (self : var_dict) (var_name : string) : result value :=
  match self with
  | None => Raise (AttributeError "var_dict")
  | Some d =>
      match d !! var_name with
      | Some value => Ok value
      | None => Raise (KeyError (Some var_name))
      end
  end.

(** Every [ClassMatcher] of a matcher, itself and below, satisfies [P]. *)
Inductive every_class
    (P : pyclass → list Matcher → list (string * Matcher) → Prop)
    : Matcher → Prop :=
| every_Literal val : every_class P (LiteralMatcher val)
| every_Name name : every_class P (NameMatcher name)
| every_Wildcard : every_class P WildcardMatcher
| every_Tuple ms : Forall (every_class P) ms → every_class P (TupleMatcher ms)
| every_List ms : Forall (every_class P) ms → every_class P (ListMatcher ms)
| every_Parallel m1 m2 :
    every_class P m1 → every_class P m2 →
    every_class P (ParallelMatcher m1 m2)
| every_Class clazz pos kw :
    P clazz pos kw →
    Forall (every_class P) pos →
    Forall (λ km, every_class P km.2) kw →
    every_class P (ClassMatcher clazz pos kw).

(** [kwMatchers] is a dictionary: no keyword comes twice. *)
Definition keyed : Matcher → Prop :=
  every_class (λ _ _ kw, NoDup (map fst kw)).

(** No [ClassMatcher] has more positional sub-matchers than [__init__] of
    its class has parameters after [self]. *)
Definition within_arity : Matcher → Prop :=
  every_class (λ clazz pos _,
    ∃ args, cls_init_args clazz = Ok args
            ∧ (length pos ≤ length (filter (λ arg, arg ≠ "self") args))%nat).

(** The number of [WildcardMatcher]s in a matcher. *)
Fixpoint wildcards (m : Matcher) : nat :=
  match m with
  | LiteralMatcher _ | NameMatcher _ => 0
  | WildcardMatcher => 1
  | TupleMatcher ms | ListMatcher ms => sum_list (map wildcards ms)
  | ParallelMatcher m1 m2 => wildcards m1 + wildcards m2
  | ClassMatcher _ pos kw =>
      sum_list (map wildcards pos)
      + sum_list (map (λ km, wildcards km.2) kw)
  end.

(** [match] of [m] binds declared names only. *)
Definition binds_declared (m : Matcher) : Prop :=
  ∀ v bs, match_ m v = Ok bs → map fst bs ⊆ var_names m.

(** Induction on matchers, with the hypothesis for every sub-matcher. *)
Section Matcher_induction.
Variable P : Matcher → Prop.
Hypothesis HLiteral : ∀ val, P (LiteralMatcher val).
Hypothesis HTuple : ∀ ms, Forall P ms → P (TupleMatcher ms).
Hypothesis HParallel : ∀ m1 m2, P m1 → P m2 → P (ParallelMatcher m1 m2).
Hypothesis HList : ∀ ms, Forall P ms → P (ListMatcher ms).
Hypothesis HName : ∀ name, P (NameMatcher name).
Hypothesis HWildcard : P WildcardMatcher.
Hypothesis HClass : ∀ clazz pos kw,
  Forall P pos → Forall (λ km, P km.2) kw → P (ClassMatcher clazz pos kw).

Fixpoint Matcher_induction (m : Matcher) : P m :=
  let fix all (ms : list Matcher) : Forall P ms :=
    match ms with
    | [] => @List.Forall_nil _ P
    | m' :: ms' => @List.Forall_cons _ P m' ms' (Matcher_induction m') (all ms')
    end in
  let fix all_kw (kw : list (string * Matcher)) : Forall (λ km, P km.2) kw :=
    match kw with
    | [] => @List.Forall_nil _ (λ km, P km.2)
    | km :: kw' =>
        @List.Forall_cons _ (λ km, P km.2) km kw' (Matcher_induction km.2)
          (all_kw kw')
    end in
  match m with
  | LiteralMatcher val => HLiteral val
  | TupleMatcher ms => HTuple ms (all ms)
  | ParallelMatcher m1 m2 =>
      HParallel m1 m2 (Matcher_induction m1) (Matcher_induction m2)
  | ListMatcher ms => HList ms (all ms)
  | NameMatcher name => HName name
  | WildcardMatcher => HWildcard
  | ClassMatcher clazz pos kw => HClass clazz pos kw (all pos) (all_kw kw)
  end.
End Matcher_induction.

End Pattern.

(** * analysis.py *)

Module Analysis.

(** ** Program trees

    A node of [ast] is its class and its fields in the order of [_fields];
    a field holds a node, a list, a string, a number or [None]. *)
Inductive tree :=
| AST (cls : string) (fields : list (string * tree))
| TList (elts : list tree)
| TStr (s : string)
| TNum (n : Z)
| TNone.

(** [isinstance(tree, ast.<cls>)]; none of the node classes that analysis.py
    tests for is a subclass of another. *)
Definition isinstance (t : tree) (cls : string) : bool :=
  match t with
  | AST c _ => bool_decide (c = cls)
  | _ => false
  end.

(** [tree.<name>] *)
Definition attr (t : tree) (name : string) : result tree :=
  match t with
  | AST _ fields =>
      match assoc name fields with
      | Some v => Ok v
      | None => Raise (AttributeError name)
      end
  | _ => Raise (AttributeError name)
  end.

(** The truth value of a field, as [if args.vararg] takes it. *)
Definition truthy (t : tree) : bool :=
  match t with
  | AST _ _ => true
  | TList elts => negb (bool_decide (elts = []))
  | TStr s => negb (bool_decide (s = ""))
  | TNum n => negb (bool_decide (n = 0))
  | TNone => false
  end.

(** [for x in t]: the elements of a list, the characters of a string; the
    other values are not iterable. *)
Fixpoint chars (s : string) : list tree :=
  match s with
  | EmptyString => []
  | String c s' => TStr (String c EmptyString) :: chars s'
  end.

Definition iter (t : tree) : result (list tree) :=
  match t with
  | TList elts => Ok elts
  | TStr s => Ok (chars s)
  | _ => Raise TypeError
  end.

(** ** Dictionaries

    A key of a scope mapping is the value of an identifier field: a [str],
    or [None] (the name of an [except] clause that binds none).  A list is
    not hashable; the other values never stand in the place of an
    identifier, and are refused in the same way. *)
Abbreviation key := (option string).
Abbreviation dict := (gmap (option string) tree).

Definition as_key (t : tree) : result key :=
  match t with
  | TStr s => Ok (Some s)
  | TNone => Ok None
  | _ => Raise TypeError
  end.

(** [dict(pairs)] as a value: a later pair overrides an earlier one. *)
Definition dict_items (pairs : list (key * tree)) : dict :=
  foldl (λ d kv, <[kv.1 := kv.2]> d) ∅ pairs.

(** ** The store

    Dictionaries are objects: a scope is handed around by reference and
    can be changed in place.  The store holds the dictionaries allocated so
    far, and a reference is the position of one of them. *)
Abbreviation loc := nat (only parsing).
Abbreviation heap := (list (gmap (option string) tree)).

(** A computation that may allocate and update dictionaries, and may
    raise.  A raised exception leaves the store as it is at that point. *)
Record M (A : Type) : Type := Action { run : heap → heap * result A }.
Arguments Action {A} run.
Arguments run {A} m h.

Global Instance M_ret : MRet M := λ A a, Action (λ h, (h, Ok a)).
Global Instance M_bind : MBind M := λ A B k c, Action (λ h,
  match run c h with
  | (h', Ok a) => run (k a) h'
  | (h', Raise e) => (h', Raise e)
  end).

Definition lift {A} (r : result A) : M A := Action (λ h, (h, r)).

(** A new dictionary object. *)
Definition new_dict (d : dict) : M loc :=
  Action (λ h, (h ++ [d], Ok (length h))).

(** The contents of a dictionary object. *)
Definition contents (l : loc) : M dict :=
  Action (λ h, (h, Ok (default ∅ (h !! l)))).

(** [l.update(other)] *)
Definition dict_update (l other : loc) : M unit :=
  Action (λ h, (<[l := default ∅ (h !! other) ∪ default ∅ (h !! l)]> h, Ok ())).

(** [del l[k]] *)
Definition dict_del (l : loc) (k : tree) : M unit :=
  k ← lift (as_key k);
  d ← contents l;
  match d !! k with
  | Some _ => Action (λ h, (<[l := delete k d]> h, Ok ()))
  | None => lift (Raise (KeyError k))
  end.

(** The pairs that [dict(pairs)] holds, with the keys hashed. *)
Definition items_of (pairs : list (tree * tree)) : result (list (key * tree)) :=
  mapM (λ kv : tree * tree, k ← as_key kv.1; mret (k, kv.2)) pairs.

(** [dict(pairs)] as an object; the keys are hashed as they are inserted. *)
Definition dict_of (pairs : list (tree * tree)) : M loc :=
  items ← lift (items_of pairs);
  new_dict (dict_items items).

(** Modelled from the spec: [merge_dicts] is defined in macropy/core/util.py,
    which is not among the sources.  By the spec a child scope is the parent
    scope merged with the bindings introduced at the boundary, the merge is
    right-biased (inner bindings shadow outer ones of the same name), and
    each extension creates a new mapping. *)
Definition merge_dicts (my_dicts : list loc) : M loc :=
  ds ← mapM contents my_dicts;
  new_dict (foldl (λ acc d, d ∪ acc) ∅ ds).

(** ** Nodes

    The node classes of Python 3 that the statements below speak of, with
    their fields in the order of [_fields]. *)
Definition Load : tree := AST "Load" [].
Definition Store : tree := AST "Store" [].
Definition Name (id : string) (ctx : tree) : tree :=
  AST "Name" [("id", TStr id); ("ctx", ctx)].
Definition Num (n : Z) : tree := AST "Num" [("n", TNum n)].
Definition Pass : tree := AST "Pass" [].
Definition Attribute (value : tree) (attr : string) (ctx : tree) : tree :=
  AST "Attribute" [("value", value); ("attr", TStr attr); ("ctx", ctx)].
Definition Call (func : tree) (args keywords : list tree) : tree :=
  AST "Call" [("func", func); ("args", TList args); ("keywords", TList keywords)].
Definition Expr (value : tree) : tree := AST "Expr" [("value", value)].
Definition Assign (targets : list tree) (value : tree) : tree :=
  AST "Assign" [("targets", TList targets); ("value", value)].
Definition Module (body : list tree) : tree := AST "Module" [("body", TList body)].
Definition arg (name : string) : tree :=
  AST "arg" [("arg", TStr name); ("annotation", TNone)].
Definition arguments (args : list tree) (vararg : tree)
    (kwonlyargs kw_defaults : list tree) (kwarg : tree) (defaults : list tree)
    : tree :=
  AST "arguments"
    [("args", TList args); ("vararg", vararg);
     ("kwonlyargs", TList kwonlyargs); ("kw_defaults", TList kw_defaults);
     ("kwarg", kwarg); ("defaults", TList defaults)].
Definition FunctionDef (name : string) (args : tree) (body : list tree)
    (decorator_list : list tree) (returns : tree) : tree :=
  AST "FunctionDef"
    [("name", TStr name); ("args", args); ("body", TList body);
     ("decorator_list", TList decorator_list); ("returns", returns)].
Definition Lambda (args body : tree) : tree :=
  AST "Lambda" [("args", args); ("body", body)].
Definition ClassDef (name : string) (bases keywords body : list tree)
    (decorator_list : list tree) : tree :=
  AST "ClassDef"
    [("name", TStr name); ("bases", TList bases); ("keywords", TList keywords);
     ("body", TList body); ("decorator_list", TList decorator_list)].
Definition comprehension (target iter : tree) (ifs : list tree) : tree :=
  AST "comprehension"
    [("target", target); ("iter", iter); ("ifs", TList ifs); ("is_async", TNum 0)].
Definition ListComp (elt : tree) (generators : list tree) : tree :=
  AST "ListComp" [("elt", elt); ("generators", TList generators)].
Definition SetComp (elt : tree) (generators : list tree) : tree :=
  AST "SetComp" [("elt", elt); ("generators", TList generators)].
Definition GeneratorExp (elt : tree) (generators : list tree) : tree :=
  AST "GeneratorExp" [("elt", elt); ("generators", TList generators)].
Definition DictComp (key value : tree) (generators : list tree) : tree :=
  AST "DictComp" [("key", key); ("value", value); ("generators", TList generators)].
Definition For (target iter : tree) (body orelse : list tree) : tree :=
  AST "For" [("target", target); ("iter", iter); ("body", TList body);
             ("orelse", TList orelse)].
Definition withitem (context_expr optional_vars : tree) : tree :=
  AST "withitem" [("context_expr", context_expr); ("optional_vars", optional_vars)].
Definition With (items body : list tree) : tree :=
  AST "With" [("items", TList items); ("body", TList body)].
Definition ExceptHandler (type : tree) (name : tree) (body : list tree) : tree :=
  AST "ExceptHandler" [("type", type); ("name", name); ("body", TList body)].

(** ** The walker *)

(** The identity of a node.  The program tree is a tree: by the spec a node
    is owned by its parent and a subtree that is reused is copied, never
    shared.  The object that [tree.body] or [gen.target] denotes is then
    known by the way that leads to it from the node being visited. *)
Inductive step :=
| SField (name : string)
| SIndex (i : nat).

Global Instance step_eq_dec : EqDecision step.
Proof. solve_decision. Defined.

Abbreviation path := (list step).

(** What a visitor did with the callables it was handed: the values it
    passed to [collect], whether it called [stop], and its calls of
    [set_ctx_for(node, scope=...)] in order.  [C] is what a scope is to the
    visitor. *)
Record visit (A C : Type) := Visit {
  collected : list A;
  stopped : bool;
  ctx_for : list (path * C)
}.
Arguments Visit {A C} collected stopped ctx_for.
Arguments collected {A C} v.
Arguments stopped {A C} v.
Arguments ctx_for {A C} v.

(** The context entries that lie below the child reached by [s]. *)
Definition descend {C} (s : step) (sub_kw : list (path * C)) : list (path * C) :=
  omap (λ e : path * C,
          match e.1 with
          | s' :: p' => if decide (s' = s) then Some (p', e.2) else None
          | [] => None
          end) sub_kw.

(** The context of a node: what its parent passes on, overridden by the
    entries set for the node itself, the last one first. *)
Definition specific {C} (sub_kw : list (path * C)) (kw : option C) : option C :=
  foldl (λ kw (e : path * C),
           match e.1 with
           | [] => Some e.2
           | _ :: _ => kw
           end) kw sub_kw.

(** Modelled from the spec: the class [Walker] is defined in
    macropy/core/walkers.py, which is not among the sources.  By the spec the
    walker calls the visitor on every node before its children, hands it
    [stop], [collect] and [set_ctx_for], does not enter the children of a
    node on which [stop] was called, enters every child field in the order of
    the fields and the elements of a sequence from left to right, passes the
    context on to the children with the entries of [set_ctx_for] applying to
    the node they name and below, and returns what was collected in the
    order of the walk; a child that is [None] (or a string, a number) is not
    visited.  The visitors of analysis.py return [None]: the tree is left as
    it is, and the walk is by recursion on it.  [enter] is the place where a
    subclass that overrides [recurse_collect] prepares the context before
    calling the method of [Walker]; [Walker] itself does nothing there. *)
Section Walker.
Context {m : Type → Type} `{!MRet m, !MBind m} {A C : Type}.
Variable enter : tree → option C → m (option C).
Variable func : tree → option C → m (visit A C).

Fixpoint recurse_collect (t : tree) (sub_kw : list (path * C))
    (kw : option C) {struct t} : m (list A) :=
  kw ← enter t kw;
  match t with
  | AST _ fields =>
      v ← func t kw;
      if stopped v then mret (collected v)
      else
        let new_ctx_for := sub_kw ++ ctx_for v in
        aggregates ←
          (fix walk_children (fs : list (string * tree)) : m (list A) :=
             match fs with
             | [] => mret []
             | fv :: fs' =>
                 let sub := descend (SField fv.1) new_ctx_for in
                 new_aggregate ← recurse_collect fv.2 sub (specific sub kw);
                 rest ← walk_children fs';
                 mret (new_aggregate ++ rest)
             end) fields;
        mret (collected v ++ aggregates)
  | TList elts =>
      (fix walk_children (ts : list tree) (i : nat) : m (list A) :=
         match ts with
         | [] => mret []
         | t' :: ts' =>
             let sub := descend (SIndex i) sub_kw in
             new_aggregate ← recurse_collect t' sub (specific sub kw);
             rest ← walk_children ts' (S i);
             mret (new_aggregate ++ rest)
         end) elts 0%nat
  | _ => mret []
  end.

(** [walker.collect(tree)] *)
Definition collect (t : tree) : m (list A) := recurse_collect t [] None.
End Walker.

(** ** find_names and find_assignments *)

Definition find_names_func (tree : tree) (_ : option ())
    : result (visit (Analysis.tree * Analysis.tree) ()) :=
  let stop := isinstance tree "Attribute" || isinstance tree "Subscript" in
  c ← (if isinstance tree "Name"
       then id ← attr tree "id"; mret [(id, tree)]
       else mret []);
  mret (Visit c stop []).

Definition find_names : tree → result (list (tree * tree)) :=
  collect (λ _ kw, mret kw) find_names_func.

Definition find_assignments_func (tree : tree) (_ : option ())
    : result (visit (Analysis.tree * Analysis.tree) ()) :=
  '(c1, stop) ←
     (if isinstance tree "ClassDef" || isinstance tree "FunctionDef"
      then name ← attr tree "name"; mret ([(name, tree)], true)
      else mret ([], false));
  c2 ← (if isinstance tree "Assign"
        then targets ← attr tree "targets"; find_names targets
        else mret []);
  mret (Visit (c1 ++ c2) stop []).

Definition find_assignments : tree → result (list (tree * tree)) :=
  collect (λ _ kw, mret kw) find_assignments_func.

(** ** extract_arg_names *)

(** [ast.Name(id=id, ctx=ast.Param())] *)
Definition Name_Param (id : tree) : tree :=
  AST "Name" [("id", id); ("ctx", AST "Param" [])].

Section Scoped.
(** [six.PY3] *)
Variable PY3 : bool.

Definition extract_arg_names (args : tree) : M loc :=
  pairs ← lift (
    if PY3 then
      vararg ← attr args "vararg";
      l1 ← (if truthy vararg
            then a ← attr vararg "arg"; mret [(a, vararg)]
            else mret []);
      kwarg ← attr args "kwarg";
      l2 ← (if truthy kwarg
            then a ← attr kwarg "arg"; mret [(a, kwarg)]
            else mret []);
      args_args ← attr args "args";
      xs ← iter args_args;
      l3 ← mapM (λ arg, a ← attr arg "arg"; mret (a, Name_Param a)) xs;
      mret (l1 ++ l2 ++ l3)
    else
      vararg ← attr args "vararg";
      let l1 := if truthy vararg then [(vararg, vararg)] else [] in
      kwarg ← attr args "kwarg";
      let l2 := if truthy kwarg then [(kwarg, kwarg)] else [] in
      args_args ← attr args "args";
      xs ← iter args_args;
      l3 ← mapM find_names xs;
      mret (l1 ++ l2 ++ concat l3));
  dict_of pairs.

(** ** Scoped *)

Context {A : Type}.
(** [self.walker.func], the visitor that is wrapped. *)
Variable walker_func : tree → loc → M (visit A loc).

(** [recurse_collect] of [Scoped], up to its call of the method of
    [Walker].  The default of [kw.get] is an argument of the call and is
    computed whether there is a scope or not. *)
Definition Scoped_enter (tree : tree) (kw : option loc) : M (option loc) :=
  pairs ← lift (find_assignments tree);
  d ← dict_of pairs;
  mret (Some (default d kw)).

(** [extend_scope(tree, *dicts, **kw)], local to [func]: [scope] is the
    one of the enclosing call.  The result is the entry that
    [set_ctx_for(tree, scope=new_scope)] adds. *)
Definition extend_scope (scope : loc) (tree : path) (dicts : list loc)
    (remove : option (list Analysis.tree)) : M (list (path * loc)) :=
  new_scope ← merge_dicts (scope :: dicts);
  _ ← match remove with
      | Some rems => mapM (dict_del new_scope) rems
      | None => mret []
      end;
  mret [(tree, new_scope)].

(** The loop over [tree.generators]; [i] is the position of [gen]. *)
Fixpoint extend_generators (scope iterator_vars : loc)
    (generators : list tree) (i : nat) : M (list (path * loc)) :=
  match generators with
  | [] => mret []
  | gen :: generators' =>
      let here := [SField "generators"; SIndex i] in
      _ ← lift (attr gen "target");
      e1 ← extend_scope scope (here ++ [SField "target"]) [iterator_vars] None;
      _ ← lift (attr gen "iter");
      e2 ← extend_scope scope (here ++ [SField "iter"]) [iterator_vars] None;
      target ← lift (attr gen "target");
      names ← lift (find_names target);
      d ← dict_of names;
      _ ← dict_update iterator_vars d;
      _ ← lift (attr gen "ifs");
      e3 ← extend_scope scope (here ++ [SField "ifs"]) [iterator_vars] None;
      rest ← extend_generators scope iterator_vars generators' (S i);
      mret (e1 ++ e2 ++ e3 ++ rest)
  end.

(** The bodies of the [if isinstance(tree, ...)] statements of [func], one
    by one. *)
Definition on_Lambda (tree : tree) (scope : loc) : M (list (path * loc)) :=
  _ ← lift (attr tree "body");
  args ← lift (attr tree "args");
  names ← extract_arg_names args;
  extend_scope scope [SField "body"] [names] None.

Definition on_comprehension (tree : tree) (scope : loc)
    : M (list (path * loc)) :=
  iterator_vars ← new_dict ∅;
  generators ← lift (attr tree "generators");
  gens ← lift (iter generators);
  es ← extend_generators scope iterator_vars gens 0;
  es' ← (if isinstance tree "DictComp" then
           _ ← lift (attr tree "key");
           k ← extend_scope scope [SField "key"] [iterator_vars] None;
           _ ← lift (attr tree "value");
           v ← extend_scope scope [SField "value"] [iterator_vars] None;
           mret (k ++ v)
         else
           _ ← lift (attr tree "elt");
           extend_scope scope [SField "elt"] [iterator_vars] None);
  mret (es ++ es').

Definition on_FunctionDef (tree : tree) (scope : loc)
    : M (list (path * loc)) :=
  _ ← lift (attr tree "args");
  name ← lift (attr tree "name");
  d ← dict_of [(name, tree)];
  a ← extend_scope scope [SField "args"] [d] None;
  _ ← lift (attr tree "body");
  name ← lift (attr tree "name");
  d1 ← dict_of [(name, tree)];
  args ← lift (attr tree "args");
  d2 ← extract_arg_names args;
  body ← lift (attr tree "body");
  hoisted ← lift (find_assignments body);
  d3 ← dict_of hoisted;
  b ← extend_scope scope [SField "body"] [d1; d2; d3] None;
  mret (a ++ b).

Definition on_ClassDef (tree : tree) (scope : loc) : M (list (path * loc)) :=
  _ ← lift (attr tree "bases");
  name ← lift (attr tree "name");
  a ← extend_scope scope [SField "bases"] [] (Some [name]);
  _ ← lift (attr tree "body");
  body ← lift (attr tree "body");
  hoisted ← lift (find_assignments body);
  d ← dict_of hoisted;
  name ← lift (attr tree "name");
  b ← extend_scope scope [SField "body"] [d] (Some [name]);
  mret (a ++ b).

Definition on_ExceptHandler (tree : tree) (scope : loc)
    : M (list (path * loc)) :=
  if PY3 then
    _ ← lift (attr tree "body");
    name ← lift (attr tree "name");
    name' ← lift (attr tree "name");
    d ← dict_of [(name, Name_Param name')];
    extend_scope scope [SField "body"] [d] None
  else
    _ ← lift (attr tree "body");
    name ← lift (attr tree "name");
    id ← lift (attr name "id");
    name' ← lift (attr tree "name");
    d ← dict_of [(id, name')];
    extend_scope scope [SField "body"] [d] None.

Definition on_For (tree : tree) (scope : loc) : M (list (path * loc)) :=
  _ ← lift (attr tree "body");
  target ← lift (attr tree "target");
  names ← lift (find_names target);
  d ← dict_of names;
  extend_scope scope [SField "body"] [d] None.

Definition on_With (tree : tree) (scope : loc) : M (list (path * loc)) :=
  _ ← lift (attr tree "body");
  items ← lift (attr tree "items");
  names ← lift (find_names items);
  d ← dict_of names;
  extend_scope scope [SField "body"] [d] None.

(** The part of [func] before its [return]: the calls of [extend_scope]
    that the class of the node asks for. *)
Definition extensions (tree : tree) (scope : loc) : M (list (path * loc)) :=
  e1 ← (if isinstance tree "Lambda" then on_Lambda tree scope else mret []);
  e2 ← (if isinstance tree "GeneratorExp" || isinstance tree "ListComp"
           || isinstance tree "SetComp" || isinstance tree "DictComp"
        then on_comprehension tree scope else mret []);
  e3 ← (if isinstance tree "FunctionDef" then on_FunctionDef tree scope
        else mret []);
  e4 ← (if isinstance tree "ClassDef" then on_ClassDef tree scope
        else mret []);
  e5 ← (if isinstance tree "ExceptHandler" then on_ExceptHandler tree scope
        else mret []);
  e6 ← (if isinstance tree "For" then on_For tree scope else mret []);
  e7 ← (if isinstance tree "With" then on_With tree scope else mret []);
  mret (e1 ++ e2 ++ e3 ++ e4 ++ e5 ++ e6 ++ e7).

(** [func] of [Scoped].  The wrapped visitor is handed the same
    [set_ctx_for] and the scope that [func] itself was called with. *)
Definition func (tree : tree) (scope : loc) : M (visit A loc) :=
  es ← extensions tree scope;
  v ← walker_func tree scope;
  mret (Visit (collected v) (stopped v) (es ++ ctx_for v)).

(** [Scoped(walker).collect(tree)]: the walk of [Walker] with the
    two methods that [Scoped] overrides.  [func] asks for [scope] by name,
    and [Scoped_enter] has put it into the context. *)
Definition Scoped_collect (tree : tree) : M (list A) :=
  collect Scoped_enter
    (λ t kw, match kw with
             | Some scope => func t scope
             | None => lift (Raise TypeError)
             end) tree.
End Scoped.

(** A visitor that reports, for every node it is called on, the node and
    the names of the scope it is handed. *)
Definition observe (tree : tree) (scope : loc)
    : M (visit (Analysis.tree * gset key) loc) :=
  d ← contents scope;
  mret (Visit [(tree, dom d)] false []).

Definition scopes_seen (PY3 : bool) (tree : tree)
    : result (list (Analysis.tree * gset key)) :=
  (run (Scoped_collect PY3 observe tree) []).2.

(** ** Notions that the statements use *)

Global Instance tree_eq_dec : EqDecision tree.
Proof.
  refine (fix go (t1 t2 : tree) {struct t1} : Decision (t1 = t2) :=
    let _ : EqDecision tree := go in
    match t1, t2 with
    | AST c1 f1, AST c2 f2 => cast_if_and (decide (c1 = c2)) (decide (f1 = f2))
    | TList l1, TList l2 => cast_if (decide (l1 = l2))
    | TStr s1, TStr s2 => cast_if (decide (s1 = s2))
    | TNum n1, TNum n2 => cast_if (decide (n1 = n2))
    | TNone, TNone => left _
    | _, _ => right _
    end); abstract congruence.
Defined.

(** The scopes that a walk has seen at the nodes equal to [node], in the
    order of the walk. *)
Definition scopes_at (node : tree)
    (seen : result (list (tree * gset key))) : result (list (gset key)) :=
  match seen with
  | Ok l => Ok (map snd (filter (λ p, p.1 = node) l))
  | Raise e => Raise e
  end.

(** The names of the scope behind a reference. *)
Definition names (h : heap) (l : loc) : gset key := dom (default ∅ (h !! l)).

(** The scope that the walk hands to the descendant at [p] of a node, from
    the scope [kw] of the node and the entries set at its visit (the nodes
    on the way set none for it). *)
Fixpoint resolve {C} (sub_kw : list (path * C)) (kw : option C) (p : path)
    : option C :=
  match p with
  | [] => kw
  | s :: p' =>
      let sub := descend s sub_kw in
      resolve sub (specific sub kw) p'
  end.

(** The fields of a node below which [func] sets a scope of its own, by
    the class of the node. *)
Definition extended_fields (t : tree) : list string :=
  match t with
  | AST cls _ =>
      if decide (cls = "Lambda") then ["body"]
      else if decide (cls ∈ ["GeneratorExp"; "ListComp"; "SetComp"]) then
        ["generators"; "elt"]
      else if decide (cls = "DictComp") then ["generators"; "key"; "value"]
      else if decide (cls = "FunctionDef") then ["args"; "body"]
      else if decide (cls = "ClassDef") then ["bases"; "body"]
      else if decide (cls ∈ ["ExceptHandler"; "For"; "With"]) then ["body"]
      else []
  | _ => []
  end.

(** The names that a list of collected pairs binds. *)
Definition keys_of (items : list (key * tree)) : gset key :=
  list_to_set (map fst items).

(** The mapping that [merge_dicts] makes of the dictionaries behind the
    references [ls] in the store [h]. *)
Definition merged (h : heap) (ls : list nat) : gmap (option string) tree :=
  foldl (λ acc d, d ∪ acc) ∅ (map (λ l, default ∅ (h !! l)) ls).

(** An optional [arg] node: [None] when there is no such parameter. *)
Definition opt_arg (name : option string) : tree :=
  match name with
  | Some n => arg n
  | None => TNone
  end.

(** The bindings that [extract_arg_names] collects from a signature in
    Python 3, by name: [*vararg], [**kwarg], then the positional
    parameters. *)
Definition param_bindings (params : list string) (vararg kwarg : option string)
    : list (string * tree) :=
  match vararg with Some v => [(v, arg v)] | None => [] end
  ++ match kwarg with Some k => [(k, arg k)] | None => [] end
  ++ map (λ p, (p, Name_Param (TStr p))) params.

(** A generator clause [for target in iter if ifs...] of a comprehension,
    and its node. *)
Record clause := Clause {
  c_target : tree;
  c_iter : tree;
  c_ifs : list tree
}.

Definition clause_node (c : clause) : tree :=
  comprehension (c_target c) (c_iter c) (c_ifs c).

(** [names] are the pairs that [dict(find_names.collect(t))] holds. *)
Definition binds (t : tree) (names : list (key * tree)) : Prop :=
  ∃ pairs, find_names t = Ok pairs ∧ items_of pairs = Ok names.

(** The names that the targets of some clauses bind, given the pairs of
    each. *)
Definition bound_by (itemss : list (list (key * tree))) : gset key :=
  ⋃ (map keys_of itemss).

(** The entries of the loop over the clauses are set for the parts of the
    clauses from position [i] on. *)
Definition clause_entries (i : nat) (es : list (path * nat)) : Prop :=
  Forall (λ e : path * nat,
            ∃ k f, e.1 = [SField "generators"; SIndex k; SField f]
                   ∧ (i ≤ k)%nat) es.

(** The scopes set for the parts of the clauses of a comprehension, when
    its node was visited with [scope] in the store [h], and [es] are the
    entries and [h'] the store after the visit: the target and the iterable
    of the clause at [k], and what is below them, are handed a scope whose
    names are those of [scope] and those bound by the targets of the clauses
    before [k]; its conditions a scope that has the names bound by its own
    target as well. *)
Definition clause_scopes (scope : nat) (h h' : heap) (es : list (path * nat))
    (clauses : list clause) (itemss : list (list (option string * tree)))
    : Prop :=
  ∀ k c, clauses !! k = Some c →
    ∃ lt li lf,
      (∀ p, resolve es (Some scope)
              ([SField "generators"; SIndex k; SField "target"] ++ p)
            = Some lt)
      ∧ (∀ p, resolve es (Some scope)
                ([SField "generators"; SIndex k; SField "iter"] ++ p)
              = Some li)
      ∧ (∀ p, resolve es (Some scope)
                ([SField "generators"; SIndex k; SField "ifs"] ++ p)
              = Some lf)
      ∧ names h' lt = names h scope ∪ bound_by (take k itemss)
      ∧ names h' li = names h scope ∪ bound_by (take k itemss)
      ∧ names h' lf = names h scope ∪ bound_by (take (S k) itemss).

(** The scope set for the result expression in the field [f] of a
    comprehension: the names of [scope] and those bound by the targets of
    all the clauses. *)
Definition result_scope (scope : nat) (h h' : heap) (es : list (path * nat))
    (f : string) (itemss : list (list (option string * tree))) : Prop :=
  ∃ le, (∀ p, resolve es (Some scope) (SField f :: p) = Some le)
        ∧ names h' le = names h scope ∪ bound_by itemss.

(** [keeps h0 c Q]: run from a store that holds the dictionaries of [h0]
    as they are, [c] leaves them as they are, and what it returns
    satisfies [Q]. *)
Definition keeps (h0 : heap) {A} (c : M A) (Q : A → Prop) : Prop :=
  ∀ h, h0 `prefix_of` h →
    h0 `prefix_of` (run c h).1 ∧ ∀ a, (run c h).2 = Ok a → Q a.

(** What [func] sets is set for a child that the class of the node names,
    and is a dictionary that did not exist before the call. *)
Definition fresh_below (h0 : heap) (fields : list string)
    (es : list (path * nat)) : Prop :=
  Forall (λ e : path * nat,
            (length h0 ≤ e.2)%nat
            ∧ ∃ f rest, e.1 = SField f :: rest ∧ f ∈ fields) es.

(** A dictionary of [h] that has the names [S] has them in [h'] too. *)
Definition retains (S : gset key) (h h' : heap) : Prop :=
  ∀ l, S ⊆ names h l → S ⊆ names h' l.

(** The scopes of the entries [es] all have the names [S]. *)
Definition all_over (S : gset key) (h : heap) (es : list (path * nat)) : Prop :=
  Forall (λ e : path * nat, S ⊆ names h e.2) es.

(** [c] takes no name of [S] out of a dictionary that has them all. *)
Definition calm (S : gset key) {A} (c : M A) : Prop :=
  ∀ h, retains S h (run c h).1.

(** Run where [scope] and the scopes of the entries [acc] have the names
    [S], [c] takes none of them out of a dictionary that has them all, and
    the scopes of the entries that it returns have them. *)
Definition widening (S : gset key) (scope : nat) (acc : list (path * nat))
    (c : M (list (path * nat))) : Prop :=
  ∀ h, S ⊆ names h scope → all_over S h acc →
    retains S h (run c h).1
    ∧ ∀ es, (run c h).2 = Ok es → all_over S (run c h).1 es.

(** Induction on trees, with the hypothesis for every field and element. *)
Section tree_induction.
Variable P : tree → Prop.
Hypothesis HAST : ∀ cls fields,
  Forall (λ fv : string * tree, P fv.2) fields → P (AST cls fields).
Hypothesis HList : ∀ elts, Forall P elts → P (TList elts).
Hypothesis HStr : ∀ s, P (TStr s).
Hypothesis HNum : ∀ n, P (TNum n).
Hypothesis HNone : P TNone.

Fixpoint tree_induction (t : tree) : P t :=
  let fix fields_ok (fs : list (string * tree))
      : Forall (λ fv : string * tree, P fv.2) fs :=
    match fs with
    | [] => @List.Forall_nil _ (λ fv : string * tree, P fv.2)
    | fv :: fs' =>
        @List.Forall_cons _ (λ fv : string * tree, P fv.2) fv fs'
          (tree_induction fv.2) (fields_ok fs')
    end in
  let fix elts_ok (ts : list tree) : Forall P ts :=
    match ts with
    | [] => @List.Forall_nil _ P
    | t' :: ts' =>
        @List.Forall_cons _ P t' ts' (tree_induction t') (elts_ok ts')
    end in
  match t with
  | AST cls fields => HAST cls fields (fields_ok fields)
  | TList elts => HList elts (elts_ok elts)
  | TStr s => HStr s
  | TNum n => HNum n
  | TNone => HNone
  end.
End tree_induction.

End Analysis.

(** * pattern.py: the rewriting of [if] statements *)

Module Rewriting.
Import Analysis.

(** ** Nodes

    More node classes, and nodes as [_rewrite_if] builds them: a field
    holds whatever the source puts into it. *)
Definition If (test : tree) (body orelse : list tree) : tree :=
  AST "If" [("test", test); ("body", TList body); ("orelse", TList orelse)].
Definition BinOp (left op right : tree) : tree :=
  AST "BinOp" [("left", left); ("op", op); ("right", right)].
Definition LShift : tree := AST "LShift" [].
Definition ExceptHandler_of (type name body : tree) : tree :=
  AST "ExceptHandler" [("type", type); ("name", name); ("body", body)].
Definition Try_of (body handlers orelse finalbody : tree) : tree :=
  AST "Try" [("body", body); ("handlers", handlers); ("orelse", orelse);
             ("finalbody", finalbody)].

(** ** _is_pattern_match_expr and _is_pattern_match_stmt *)

Definition _is_pattern_match_expr (tree : tree) : result bool :=
  if isinstance tree "BinOp"
  then op ← attr tree "op"; mret (isinstance op "LShift")
  else mret false.

Definition _is_pattern_match_stmt (tree : tree) : result bool :=
  if isinstance tree "Expr"
  then value ← attr tree "value"; _is_pattern_match_expr value
  else mret false.

(** ** _rewrite_if *)

(** [[x] + t]: only a list can be added to a list. *)
Definition list_add (l : list tree) (t : tree) : result tree :=
  match t with
  | TList l' => Ok (TList (l ++ l'))
  | _ => Raise TypeError
  end.

(** The longest way down from a node. *)
Fixpoint height (t : tree) : nat :=
  match t with
  | AST _ fields => S (max_list (map (λ fv, height fv.2) fields))
  | TList elts => S (max_list (map height elts))
  | _ => O
  end.

Section rewrite_if.
(** [hq[PatternMatchException]]: the tree that the hygienic quote makes of
    the name.  hquotes.py is not among the sources; the tree is taken as it
    comes. *)
Variable hq_PatternMatchException : tree.

(** The body of [_rewrite_if], with the function that it calls for the
    statement of an [else] branch that holds one statement. *)
Definition _rewrite_if_body
    (_rewrite_if : tree → option string → result tree)
    (tree : tree) (var_name : option string) : result Analysis.tree :=
  if negb (isinstance tree "If") then Ok tree
  else
    let own_test : result (option Analysis.tree) :=
      test ← attr tree "test";
      if isinstance test "BinOp" then
        op ← attr test "op";
        mret (if isinstance op "LShift" then Some test else None)
      else mret None in
    test ←
      match var_name with
      | Some v =>
          if bool_decide (v = "") then own_test
          else
            test ← attr tree "test";
            mret (Some (BinOp test LShift (Name v Load)))
      | None => own_test
      end;
    match test with
    | None => Ok tree
    | Some test =>
        orelse ← attr tree "orelse";
        body ← attr tree "body";
        let macroed_match :=
          With [withitem (Name "_matching" Load) TNone] [Expr test] in
        try_body ← list_add [macroed_match] body;
        elts ← iter orelse;
        handler_body ←
          match elts with
          | [stmt] => stmt' ← _rewrite_if stmt var_name; mret (TList [stmt'])
          | [] => mret (TList [Pass])
          | _ => mret orelse
          end;
        let handler :=
          ExceptHandler_of hq_PatternMatchException TNone handler_body in
        mret (Try_of try_body (TList [handler]) (TList []) (TList []))
    end.

(** The recursion of [_rewrite_if] goes down the tree; [depth] bounds the
    calls that are nested. *)
Fixpoint _rewrite_if_within (depth : nat) (tree : tree)
    (var_name : option string) : result Analysis.tree :=
  match depth with
  | O => Ok tree
  | S depth' => _rewrite_if_body (_rewrite_if_within depth') tree var_name
  end.

Definition _rewrite_if (tree : tree) (var_name : option string)
    : result Analysis.tree :=
  _rewrite_if_within (S (height tree)) tree var_name.

(** ** switch *)

(** What [switch] can raise: what [_rewrite_if] raises, and [IndexError]
    from [args[0]]. *)
Inductive switch_result :=
| Block (tree : list tree)
| Raised (e : exn)
| IndexError.

(** [new_id] is the name that [gen_sym()] returns. *)
Definition switch (new_id : string) (tree args : list Analysis.tree)
    : switch_result :=
  match mapM (λ stmt, _rewrite_if stmt (Some new_id)) tree with
  | Raise e => Raised e
  | Ok tree' =>
      match args with
      | [] => IndexError
      | arg0 :: _ => Block (Assign [Name new_id Store] arg0 :: tree')
      end
  end.

(** ** Notions that the statements use *)

(** [_rewrite_if] takes [tree] for a pattern match under [var_name]: it is
    an [if] statement, and either there is a name to match against or its
    test is a left shift. *)
Definition rewritten (tree : tree) (var_name : option string) : Prop :=
  isinstance tree "If" = true
  ∧ ((∃ v, var_name = Some v ∧ v ≠ "")
     ∨ ∃ test, attr tree "test" = Ok test
               ∧ _is_pattern_match_expr test = Ok true).

(** The test that the statement is rewritten with. *)
Definition test_under (var_name : option string) (test : tree) : tree :=
  match var_name with
  | Some v => if bool_decide (v = "") then test
              else BinOp test LShift (Name v Load)
  | None => test
  end.

(** The [try] statement that stands for an arm [if test: body] with
    [handler_body] in the place of what follows it. *)
Definition try_arm (test : tree) (body : list tree) (handler_body : tree)
    : tree :=
  Try_of
    (TList (With [withitem (Name "_matching" Load) TNone] [Expr test] :: body))
    (TList [ExceptHandler_of hq_PatternMatchException TNone handler_body])
    (TList []) (TList []).

(** A chain [if .. elif .. elif .. else ..]: the arms, each a test and a
    body, and the statements of the last [else]; and the nest of [try]
    statements that stands for it. *)
Fixpoint elif_chain (arms : list (tree * list tree)) (final : list tree)
    : list tree :=
  match arms with
  | [] => final
  | (test, body) :: arms' => [If test body (elif_chain arms' final)]
  end.

Fixpoint try_chain (var_name : option string)
    (arms : list (tree * list tree)) (final : list tree) : list tree :=
  match arms with
  | [] => match final with [] => [Pass] | _ => final end
  | (test, body) :: arms' =>
      [try_arm (test_under var_name test) body
         (TList (try_chain var_name arms' final))]
  end.
End rewrite_if.

End Rewriting.

(** * pattern.py: build_matcher *)

Module Building.
Import Analysis Rewriting.

(** ** Nodes *)
Definition List_of (elts : list tree) (ctx : tree) : tree :=
  AST "List" [("elts", TList elts); ("ctx", ctx)].
Definition keyword (arg value : tree) : tree :=
  AST "keyword" [("arg", arg); ("value", value)].

(** ** Outcomes

    [build_matcher] raises what reading an attribute or iterating raises,
    and [Exception("Unrecognized tree " + repr(tree))]. *)
Inductive build_result (A : Type) :=
| Built (a : A)
| Raised (e : exn)
| Unrecognized (tree : tree).
Arguments Built {A} a.
Arguments Raised {A} e.
Arguments Unrecognized {A} tree.

(** A computation that calls [modified.add], and may raise.  [modified]
    is a set that [build_matcher] is handed by reference: the state is the
    values added to it, the oldest first, and what was added before an
    exception stays. *)
Record B (A : Type) : Type :=
  Build { build : list tree → list tree * build_result A }.
Arguments Build {A} build.
Arguments build {A} b added.

Global Instance B_ret : MRet B := λ A a, Build (λ added, (added, Built a)).
Global Instance B_bind : MBind B := λ A C k c, Build (λ added,
  match build c added with
  | (added', Built a) => build (k a) added'
  | (added', Raised e) => (added', Raised e)
  | (added', Unrecognized t) => (added', Unrecognized t)
  end).

Definition read {A} (r : result A) : B A :=
  Build (λ added,
    (added, match r with Ok a => Built a | Raise e => Raised e end)).

(** [modified.add(id)]: a list is not hashable. *)
Definition add (id : tree) : B () :=
  Build (λ added,
    match id with
    | TList _ => (added, Raised TypeError)
    | _ => (added ++ [id], Built ())
    end).

Section build_matcher.
(** The trees that the hygienic quotes make: [hq[LiteralMatcher(u[x])]]
    for a value [x], [hq[LiteralMatcher(ast_literal[tree])]],
    [hq[WildcardMatcher()]] and [hq[NameMatcher(u[x])]].  hquotes.py is not
    among the sources; the trees are taken as they come. *)
Variable hq_LiteralMatcher_u : tree → tree.
Variable hq_LiteralMatcher_ast_literal : tree → tree.
Variable hq_WildcardMatcher : tree.
Variable hq_NameMatcher_u : tree → tree.

(** The body of [build_matcher], with the function that it calls for the
    parts of the pattern. *)
Definition build_matcher_body (build_matcher : tree → B Analysis.tree)
    (tree : tree) : B Analysis.tree :=
  if isinstance tree "Num" then
    n ← read (attr tree "n"); mret (hq_LiteralMatcher_u n)
  else if isinstance tree "Str" then
    s ← read (attr tree "s"); mret (hq_LiteralMatcher_u s)
  else if isinstance tree "NameConstant" then
    mret (hq_LiteralMatcher_ast_literal tree)
  else if isinstance tree "Name" then
    id ← read (attr tree "id");
    if bool_decide (id = TStr "_") then mret hq_WildcardMatcher
    else
      _ ← add id;
      mret (hq_NameMatcher_u id)
  else if isinstance tree "List" then
    elts ← read (attr tree "elts");
    children ← read (iter elts);
    sub_matchers ← mapM build_matcher children;
    mret (Call (Name "ListMatcher" Load) sub_matchers [])
  else if isinstance tree "Tuple" then
    elts ← read (attr tree "elts");
    children ← read (iter elts);
    sub_matchers ← mapM build_matcher children;
    mret (Call (Name "TupleMatcher" Load) sub_matchers [])
  else if isinstance tree "Call" then
    args ← read (attr tree "args");
    children ← read (iter args);
    sub_matchers ← mapM build_matcher children;
    let positional_matchers := List_of sub_matchers Load in
    keywords ← read (attr tree "keywords");
    kws ← read (iter keywords);
    kw_matchers ←
      mapM (λ kw,
              arg ← read (attr kw "arg");
              value ← read (attr kw "value");
              m ← build_matcher value;
              mret (keyword arg m)) kws;
    func ← read (attr tree "func");
    mret (Call (Name "ClassMatcher" Load) [func; positional_matchers]
            kw_matchers)
  else
    bit_and ←
      (if isinstance tree "BinOp"
       then op ← read (attr tree "op"); mret (isinstance op "BitAnd")
       else mret false);
    if bit_and : bool then
      left ← read (attr tree "left");
      sub1 ← build_matcher left;
      right ← read (attr tree "right");
      sub2 ← build_matcher right;
      mret (Call (Name "ParallelMatcher" Load) [sub1; sub2] [])
    else Build (λ added, (added, Unrecognized tree)).

(** The recursion of [build_matcher] goes down the tree; [depth] bounds
    the calls that are nested, and is never met (see
    [build_matcher_unfold]). *)
Fixpoint build_matcher_within (depth : nat) (tree : tree) : B Analysis.tree :=
  match depth with
  | O => Build (λ added, (added, Unrecognized tree))
  | S depth' => build_matcher_body (build_matcher_within depth') tree
  end.

(** [build_matcher(tree, modified)] *)
Definition build_matcher (tree : tree) : B Analysis.tree :=
  build_matcher_within (S (height tree)) tree.
End build_matcher.

(** ** Notions that the statements use *)

(** The identifiers of the [Name] nodes of a tree. *)
Fixpoint name_ids (t : tree) : list tree :=
  match t with
  | AST cls fields =>
      (if decide (cls = "Name") then
         match assoc "id" fields with Some id => [id] | None => [] end
       else [])
      ++ concat (map (λ fv, name_ids fv.2) fields)
  | TList elts => concat (map name_ids elts)
  | _ => []
  end.

(** The computation adds values that satisfy [P], and removes none. *)
Definition adds {A} (P : tree → Prop) (c : B A) : Prop :=
  ∀ added, ∃ new, (build c added).1 = added ++ new ∧ Forall P new.

(** The classes that [build_matcher] tells by [isinstance] alone. *)
Definition pattern_classes : list string :=
  ["Num"; "Str"; "NameConstant"; "Name"; "List"; "Tuple"; "Call"].

(** No branch of [build_matcher] takes the tree. *)
Definition no_pattern (u : tree) : Prop :=
  Forall (λ cls, isinstance u cls = false) pattern_classes
  ∧ (isinstance u "BinOp" = false
     ∨ ∃ op, attr u "op" = Ok op ∧ isinstance op "BitAnd" = false).

(** Reading a missing attribute and iterating over what is no sequence. *)
Definition access_error (e : exn) : Prop :=
  e = TypeError ∨ ∃ name, e = AttributeError name.

(** When the computation fails, it fails with an exception in [E] or on a
    tree in [U]. *)
Definition fails_with {A} (U : tree → Prop) (E : exn → Prop) (c : B A)
    : Prop :=
  ∀ added,
    match (build c added).2 with
    | Built _ => True
    | Raised e => E e
    | Unrecognized u => U u
    end.

End Building.

(** * import_hooks.py *)

Module ImportHooks.
Import Stdlib.Strings.Ascii.

(** ** Exceptions and effects

    What matters of an exception here is its class, and whether
    [except Exception] catches it: [KeyboardInterrupt], [SystemExit] and
    [GeneratorExit] are not instances of [Exception]. *)
Inductive raised :=
| Exception (cls : string)
| BaseException (cls : string).

Inductive outcome (A : Type) :=
| Returns (a : A)
| Raises (e : raised).
Arguments Returns {A} a.
Arguments Raises {A} e.

Section IO.
(** What is outside of the program: the files, [sys.modules], the standard
    output. *)
Variable world : Type.

(** The state of a run: the world, and the names of the calls out of
    import_hooks.py that were made, in order. *)
Definition state : Type := world * list string.

Record IO (A : Type) : Type := Perform { perform : state → state * outcome A }.
Arguments Perform {A} perform.
Arguments perform {A} i st.

Global Instance IO_ret : MRet IO := λ A a, Perform (λ st, (st, Returns a)).
Global Instance IO_bind : MBind IO := λ A B k c, Perform (λ st,
  match perform c st with
  | (st', Returns a) => perform (k a) st'
  | (st', Raises e) => (st', Raises e)
  end).

Definition raise {A} (e : raised) : IO A := Perform (λ st, (st, Raises e)).

(** A call of something that is defined elsewhere. *)
Definition call {A} (name : string) (f : world → world * outcome A) : IO A :=
  Perform (λ st, let '(w', r) := f st.1 in ((w', st.2 ++ [name]), r)).

(** [try: c / except: handler] *)
Definition try_except {A} (c handler : IO A) : IO A :=
  Perform (λ st,
    match perform c st with
    | (st', Returns a) => (st', Returns a)
    | (st', Raises _) => perform handler st'
    end).

(** [try: c / except Exception as e: handler] *)
Definition try_except_Exception {A} (c : IO A) (handler : raised → IO A)
    : IO A :=
  Perform (λ st,
    match perform c st with
    | (st', Returns a) => (st', Returns a)
    | (st', Raises (Exception cls)) => perform (handler (Exception cls)) st'
    | (st', Raises (BaseException cls)) => (st', Raises (BaseException cls))
    end).

(** ** What import_hooks.py calls

    The objects that these calls hand over: syntax trees, code objects,
    modules, the bindings that [detect_macros] finds, the loaders of
    [importlib], and search paths. *)
Variables (tree code module binding original_loader path loader : Type).

Record outside := {
  (** [macropy.core.macros.PY3] *)
  PY3 : bool;
  ast_parse : string → world → world * outcome tree;
  detect_macros : tree → world → world * outcome (list (string * binding));
  __import__ : string → world → world * outcome ();
  sys_modules_getitem : string → world → world * outcome module;
  expand_entire_ast :
    tree → string → list (module * binding) → world → world * outcome tree;
  compile : tree → string → world → world * outcome code;
  ModuleType : string → world → world * outcome module;
  set___package__ : module → string → world → world * outcome ();
  set___file__ : module → string → world → world * outcome ();
  set___loader__ : module → loader → world → world * outcome ();
  get___loader__ : module → world → world * outcome loader;
  exporter_find :
    string → string → string → string → path → world → world * outcome bool;
  export_transformed :
    code → tree → string → string → world → world * outcome ();
  exec : code → module → world → world * outcome ();
  print : string → raised → world → world * outcome ();
  print_exc : world → world * outcome ();
  PathFinder_find_module :
    string → path → world → world * outcome (option original_loader);
  get_source_of : original_loader → string → world → world * outcome (option string);
  path_of : original_loader → world → world * outcome string
}.

Variable O : outside.

(** ** Strings *)

(** [needle in s] *)
Fixpoint contains (needle s : string) : bool :=
  String.prefix needle s
  || match s with
     | EmptyString => false
     | String _ s' => contains needle s'
     end.

(** The part of [s] before its last [c], when [c] is in [s]. *)
Fixpoint before_last (c : Ascii.ascii) (s : string) : option string :=
  match s with
  | EmptyString => None
  | String a s' =>
      match before_last c s' with
      | Some r => Some (String a r)
      | None => if decide (a = c) then Some EmptyString else None
      end
  end.

(** [s.rpartition('.')[0]] *)
Definition rpartition_dot_0 (s : string) : string :=
  default EmptyString (before_last "."%char s).

(** ** _MacroLoader *)

(** [_MacroLoader(module_name, mod)].  [sys] is the module of the standard
    library that the file imports; it has no attribute [sys], and
    [sys.sys.modules[module_name] = mod] raises [AttributeError] in
    [__init__] after [self.mod] is set.  The object is not returned. *)
Definition _MacroLoader (module_name : string) (mod_ : module) : IO loader :=
  raise (Exception "AttributeError").

(** [_MacroLoader(ast.mod)]: [__init__] takes two arguments after
    [self]; the call raises [TypeError]. *)
Definition _MacroLoader_ast_mod : IO loader :=
  raise (Exception "TypeError").

(** ** MacroFinder *)

(** [expand_macros]: [None] for the pair [(None, None)], and the code
    object and the new tree when both are returned. *)
Definition expand_macros (source_code : option string) (filename : string)
    : IO (option (code * tree)) :=
  match source_code with
  | None => mret None
  | Some source_code =>
      if bool_decide (source_code = "") || negb (contains "macros" source_code)
      then mret None
      else
        tree ← call "ast.parse" (ast_parse O source_code);
        bindings ← call "detect_macros" (detect_macros O tree);
        match bindings with
        | [] => mret None
        | _ =>
            _ ← mapM (λ pb : string * binding,
                        call "__import__" (__import__ O pb.1)) bindings;
            modules ← mapM (λ pb : string * binding,
                              m ← call "sys.modules"
                                    (sys_modules_getitem O pb.1);
                              mret (m, pb.2)) bindings;
            new_tree ← call "expand_entire_ast"
                         (expand_entire_ast O tree source_code modules);
            code ← call "compile" (compile O tree filename);
            mret (Some (code, new_tree))
        end
  end.

(** [imp] is the module of the standard library; it has no attribute [imp],
    and [imp.imp.new_module] raises [AttributeError]. *)
Definition construct_module (module_name file_path : string) : IO module :=
  mod_ ← (if PY3 O then call "ModuleType" (ModuleType O module_name)
         else raise (Exception "AttributeError"));
  _ ← call "__package__" (set___package__ O mod_ (rpartition_dot_0 module_name));
  _ ← call "__file__" (set___file__ O mod_ file_path);
  l ← _MacroLoader module_name mod_;
  _ ← call "__loader__" (set___loader__ O mod_ l);
  mret mod_.

Definition export (code : code) (tree : tree) (module_name file_path : string)
    : IO () :=
  try_except
    (call "export_transformed"
       (export_transformed O code tree module_name file_path))
    (mret ()).

(** A finder that finds nothing returns [None], and [None] has no
    [get_source]. *)
Definition get_source (module_name : string) (package_path : path)
    : IO (option string * string) :=
  if PY3 O then
    original_loader ← call "PathFinder.find_module"
                        (PathFinder_find_module O module_name package_path);
    match original_loader with
    | None => raise (Exception "AttributeError")
    | Some original_loader =>
        source_code ← call "get_source"
                        (get_source_of O original_loader module_name);
        file_path ← call "path" (path_of O original_loader);
        mret (source_code, file_path)
    end
  else raise (Exception "AttributeError").

(** [find_module]; [None] is what [return] without a value and the end of
    the body return. *)
Definition find_module (module_name : string) (package_path : path)
    : IO (option loader) :=
  got ← try_except
          (sf ← get_source module_name package_path; mret (Some sf))
          (mret None);
  match got with
  | None => mret None
  | Some (source_code, file_path) =>
      try_except_Exception
        (module ← call "exporter.find"
                    (exporter_find O file_path file_path "" module_name
                       package_path);
         if module : bool then
           l ← _MacroLoader_ast_mod; mret (Some l)
         else
           expanded ← expand_macros source_code file_path;
           match expanded with
           | None => mret None
           | Some (code, tree) =>
               module ← construct_module module_name file_path;
               _ ← call "exec" (exec O code module);
               _ ← export code tree module_name file_path;
               l ← call "__loader__" (get___loader__ O module);
               mret (Some l)
           end)
        (λ e,
           _ ← call "print" (print O "import_hooks.MacroFinder raised" e);
           _ ← call "traceback.print_exc" (print_exc O);
           mret None)
  end.

(** ** Notions that the statements use *)

(** The calls that a run from [st] has made. *)
Definition calls_of {A} (c : IO A) (st : state) : list string :=
  drop (length st.2) (perform c st).1.2.

(** [c] returns values of [P] only, and calls neither [exec] nor
    [export_transformed]. *)
Definition safe {A} (P : A → Prop) (c : IO A) : Prop :=
  ∀ st,
    (∀ a, (perform c st).2 = Returns a → P a)
    ∧ ∃ new, (perform c st).1.2 = st.2 ++ new
             ∧ ("exec" ∉ new) ∧ ("export_transformed" ∉ new).
End IO.

Arguments Perform {_ _} _.
Arguments perform {_ _} _ _.
Arguments raise {_ _} _.
Arguments call {_ _} _ _.
Arguments try_except {_ _} _ _.
Arguments try_except_Exception {_ _} _ _.
Arguments _MacroLoader {_ _ _} _ _.
Arguments _MacroLoader_ast_mod {_ _}.
Arguments expand_macros {_ _ _ _ _ _ _ _} _ _ _.
Arguments construct_module {_ _ _ _ _ _ _ _} _ _ _.
Arguments export {_ _ _ _ _ _ _ _} _ _ _ _ _.
Arguments get_source {_ _ _ _ _ _ _ _} _ _ _.
Arguments find_module {_ _ _ _ _ _ _ _} _ _ _.
Arguments calls_of {_ _} _ _.
Arguments safe {_ _} _ _.
Arguments PY3 {_ _ _ _ _ _ _ _} _.
Arguments ast_parse {_ _ _ _ _ _ _ _} _.
Arguments detect_macros {_ _ _ _ _ _ _ _} _.
Arguments __import__ {_ _ _ _ _ _ _ _} _.
Arguments sys_modules_getitem {_ _ _ _ _ _ _ _} _.
Arguments expand_entire_ast {_ _ _ _ _ _ _ _} _.
Arguments compile {_ _ _ _ _ _ _ _} _.
Arguments ModuleType {_ _ _ _ _ _ _ _} _.
Arguments set___package__ {_ _ _ _ _ _ _ _} _.
Arguments set___file__ {_ _ _ _ _ _ _ _} _.
Arguments set___loader__ {_ _ _ _ _ _ _ _} _.
Arguments get___loader__ {_ _ _ _ _ _ _ _} _.
Arguments exporter_find {_ _ _ _ _ _ _ _} _.
Arguments export_transformed {_ _ _ _ _ _ _ _} _.
Arguments exec {_ _ _ _ _ _ _ _} _.
Arguments print {_ _ _ _ _ _ _ _} _.
Arguments print_exc {_ _ _ _ _ _ _ _} _.
Arguments PathFinder_find_module {_ _ _ _ _ _ _ _} _.
Arguments get_source_of {_ _ _ _ _ _ _ _} _.
Arguments path_of {_ _ _ _ _ _ _ _} _.

End ImportHooks.

(** * Properties of the matchers *)

Section PatternFacts.
Import Pattern.

(** ** Disjointness of variable names *)

Lemma remove_dups_length_le (l : list string) :
  (length (remove_dups l) ≤ length l)%nat.
Proof.
  induction l as [|x l IH]; simpl; [lia|].
  destruct (decide_rel elem_of x l); simpl; lia.
Qed.

Lemma _vars_are_disjoint_NoDup (l : list string) :
  _vars_are_disjoint l = true ↔ NoDup l.
Proof.
  unfold _vars_are_disjoint. rewrite bool_decide_eq_true.
  induction l as [|x l IH]; simpl.
  - split; [constructor | done].
  - rewrite NoDup_cons. pose proof (remove_dups_length_le l) as Hle.
    destruct (decide_rel elem_of x l) as [Hin|Hnin]; simpl.
    + split; [lia | tauto].
    + split.
      * intros Hlen. split; [done|]. apply IH. lia.
      * intros [_ Hnd]. apply IH in Hnd. lia.
Qed.

Lemma _vars_are_disjoint_dup (l : list string) :
  _vars_are_disjoint l = false ↔ ¬ NoDup l.
Proof.
  rewrite <- _vars_are_disjoint_NoDup.
  destruct (_vars_are_disjoint l); naive_solver.
Qed.

Lemma elem_of_concat (x : string) (ls : list (list string)) :
  x ∈ concat ls ↔ ∃ l, l ∈ ls ∧ x ∈ l.
Proof.
  induction ls as [|l ls IH]; simpl.
  - split; [by intros ?%elem_of_nil | by intros (? & ?%elem_of_nil & _)].
  - rewrite elem_of_app, IH. split.
    + intros [H|(l' & H1 & H2)]; [exists l | exists l']; rewrite elem_of_cons; eauto.
    + intros (l' & [->|H1]%elem_of_cons & H2); eauto.
Qed.

Lemma NoDup_concat_pairwise (ls : list (list string)) :
  Forall NoDup ls → NoDup (concat ls) ↔ pairwise_disjoint ls.
Proof.
  induction 1 as [|l ls Hl Hls IH]; simpl.
  - split; [|constructor]. intros _ i j xs ys x _ Hi. by destruct i.
  - rewrite NoDup_app, IH. split.
    + intros (_ & Hdis & Hrest) i j xs ys x Hij Hi Hj Hx.
      destruct i as [|i], j as [|j]; simplify_eq/=.
      * intros Hy. apply (Hdis x Hx). apply elem_of_concat.
        exists ys. split; [|done]. by eapply list_elem_of_lookup_2.
      * intros Hy. apply (Hdis x Hy). apply elem_of_concat.
        exists xs. split; [|done]. by eapply list_elem_of_lookup_2.
      * eapply (Hrest i j); eauto.
    + intros Hpw. split; [done|]. split.
      * intros x Hx (l' & [j Hj]%list_elem_of_lookup & Hx')%elem_of_concat.
        by apply (Hpw 0%nat (S j) l l' x).
      * intros i j xs ys x Hij Hi Hj. apply (Hpw (S i) (S j)); auto.
Qed.

Lemma ClassMatcher_var_names clazz pos kw :
  var_names (ClassMatcher clazz pos kw)
  = flatten (map var_names (pos ++ map snd kw)).
Proof. simpl. by rewrite map_app, map_map. Qed.

Ltac init_cases :=
  match goal with
  | |- context [negb (_vars_are_disjoint ?l)] =>
      let E := fresh "E" in
      destruct (_vars_are_disjoint l) eqn:E; simpl;
      [apply _vars_are_disjoint_NoDup in E | apply _vars_are_disjoint_dup in E]
  | H : context [negb (_vars_are_disjoint ?l)] |- _ =>
      let E := fresh "E" in
      destruct (_vars_are_disjoint l) eqn:E; simpl in H;
      [apply _vars_are_disjoint_NoDup in E | apply _vars_are_disjoint_dup in E]
  end.

Lemma constructed_NoDup m : constructed m → NoDup (var_names m).
Proof.
  destruct 1 as [| | |ms _ H|ms _ H|m1 m2 _ _ H|clazz pos kw _ _ H].
  - constructor.
  - apply NoDup_singleton.
  - apply NoDup_singleton.
  - unfold TupleMatcher_init in H. by init_cases.
  - unfold ListMatcher_init in H. by init_cases.
  - unfold ParallelMatcher_init in H. by init_cases.
  - rewrite ClassMatcher_var_names. unfold ClassMatcher_init in H. by init_cases.
Qed.

Lemma constructed_children_NoDup ms :
  Forall constructed ms → Forall NoDup (map var_names ms).
Proof.
  intros H. apply Forall_fmap. eapply Forall_impl; [done|].
  intros m. apply constructed_NoDup.
Qed.

Lemma init_dup {A} (l : list string) (a : A) :
  ¬ NoDup l →
  (if negb (_vars_are_disjoint l) then Raise PatternVarConflict else Ok a)
  = Raise PatternVarConflict.
Proof. intros H. by init_cases. Qed.

Lemma init_NoDup {A} (l : list string) (a : A) :
  NoDup l →
  (if negb (_vars_are_disjoint l) then Raise PatternVarConflict else Ok a)
  = Ok a.
Proof. intros H. by init_cases. Qed.

(** C1.  A composite matcher whose children bring a name twice is refused by
    its constructor: [__init__] raises [PatternVarConflict], and no matcher
    object comes to be on which [match] could be called.  This holds for
    [TupleMatcher], [ListMatcher], [ParallelMatcher] and [ClassMatcher], and
    for the tuple of two [NameMatcher("x")].  When the children are matchers
    that were themselves constructed and their name lists are pairwise
    disjoint, the constructor returns the matcher. *)
Theorem C1_conflict_at_construction :
  (∀ ms, ¬ NoDup (flatten (map var_names ms)) →
     TupleMatcher_init ms = Raise PatternVarConflict
     ∧ ListMatcher_init ms = Raise PatternVarConflict)
  ∧ (∀ m1 m2, ¬ NoDup (flatten [var_names m1; var_names m2]) →
       ParallelMatcher_init m1 m2 = Raise PatternVarConflict)
  ∧ (∀ clazz pos kw,
       ¬ NoDup (flatten (map var_names (pos ++ map snd kw))) →
       ClassMatcher_init clazz pos kw = Raise PatternVarConflict)
  ∧ TupleMatcher_init [NameMatcher "x"; NameMatcher "x"]
    = Raise PatternVarConflict
  ∧ (∀ ms, Forall constructed ms →
       pairwise_disjoint (map var_names ms) →
       TupleMatcher_init ms = Ok (TupleMatcher ms)
       ∧ ListMatcher_init ms = Ok (ListMatcher ms))
  ∧ (∀ m1 m2, constructed m1 → constructed m2 →
       pairwise_disjoint [var_names m1; var_names m2] →
       ParallelMatcher_init m1 m2 = Ok (ParallelMatcher m1 m2))
  ∧ (∀ clazz pos kw,
       Forall constructed pos → Forall (λ km, constructed km.2) kw →
       pairwise_disjoint (map var_names (pos ++ map snd kw)) →
       ClassMatcher_init clazz pos kw = Ok (ClassMatcher clazz pos kw)).
Proof.
  split; [|split; [|split; [|split; [|split; [|split]]]]].
  - intros ms H. split; by apply init_dup.
  - intros m1 m2 H. by apply init_dup.
  - intros clazz pos kw H. by apply init_dup.
  - by apply init_dup; simpl; rewrite NoDup_cons; set_solver.
  - intros ms Hc Hd.
    assert (NoDup (flatten (map var_names ms))) as Hnd
      by (by apply NoDup_concat_pairwise; [apply constructed_children_NoDup|]).
    split; by apply init_NoDup.
  - intros m1 m2 H1 H2 Hd. apply init_NoDup.
    apply (NoDup_concat_pairwise [var_names m1; var_names m2]); [|done].
    repeat constructor; by apply constructed_NoDup.
  - intros clazz pos kw Hp Hk Hd. apply init_NoDup.
    apply NoDup_concat_pairwise; [|done].
    apply constructed_children_NoDup, Forall_app. split; [done|].
    by apply Forall_fmap.
Qed.

Lemma C1_conflict_at_construction_witness :
  TupleMatcher_init [NameMatcher "a"; WildcardMatcher; LiteralMatcher (VInt 5)]
  = Ok (TupleMatcher [NameMatcher "a"; WildcardMatcher; LiteralMatcher (VInt 5)])
  ∧ ListMatcher_init [WildcardMatcher; WildcardMatcher]
    = Raise PatternVarConflict
  ∧ ClassMatcher_init Point [NameMatcher "px"] [("y", NameMatcher "py")]
    = Ok (ClassMatcher Point [NameMatcher "px"] [("y", NameMatcher "py")]).
Proof.
  destruct C1_conflict_at_construction as (Hdup & _ & _ & _ & Hok & _ & Hcls).
  split; [|split].
  - apply Hok.
    + repeat constructor.
    + intros i j xs ys x Hij Hi Hj Hx.
      destruct i as [|[|[|i]]], j as [|[|[|j]]]; simplify_eq/=;
        set_solver.
  - apply Hdup. simpl. rewrite NoDup_cons. set_solver.
  - apply Hcls.
    + repeat constructor.
    + repeat constructor.
    + intros i j xs ys x Hij Hi Hj Hx.
      destruct i as [|[|i]], j as [|[|j]]; simplify_eq/=; set_solver.
Defined.

(** C9.  [WildcardMatcher().match(v)] returns the one binding of ["_"] to
    the constant [3] for every [v]: the value bound is not the matchee, and
    two matchees give the same result. *)
Theorem C9_wildcard_placeholder :
  (∀ v, match_ WildcardMatcher v = Ok [("_", VInt 3)])
  ∧ (∀ v1 v2, match_ WildcardMatcher v1 = match_ WildcardMatcher v2)
  ∧ match_ WildcardMatcher (VStr "matchee") = Ok [("_", VInt 3)].
Proof. done. Qed.
(** ** Matching *)

(** The loop over the zipped pairs returns exactly when every sub-matcher
    returns, with the updates joined from left to right. *)
Lemma match_zip_Ok (ms : list Matcher) (vs : list value) (u bs : bindings) :
  length vs = length ms →
  match_zip (map match_ ms) vs u = Ok bs
  ↔ ∃ bss, Forall3 (λ m v b, match_ m v = Ok b) ms vs bss
           ∧ bs = u ++ concat bss.
Proof.
  revert vs u. induction ms as [|m ms IH]; intros [|v vs] u Hlen;
    simplify_eq/=.
  - split.
    + intros [= <-]. exists []. split; [constructor|by rewrite app_nil_r].
    + intros (bss & H & ->). inversion H; subst; simpl. by rewrite app_nil_r.
  - unfold mbind, result_bind. destruct (match_ m v) as [b|e] eqn:E.
    + rewrite IH by done. split.
      * intros (bss & H & ->). exists (b :: bss). split; [by constructor|].
        simpl. by rewrite app_assoc.
      * intros (bss & H & ->). inversion H as [|? ? ? ? ? bss' Hb Hrest]; subst.
        rewrite E in Hb. injection Hb as <-.
        exists bss'. split; [done|]. simpl. by rewrite app_assoc.
    + split; [done|]. intros (bss & H & _). inversion H; congruence.
Qed.

Lemma match_zip_Raise (fs : list match_fn) (vs : list value) (u : bindings) e :
  Forall (λ f : match_fn, ∀ v e, f v = Raise e → is_pme e) fs →
  match_zip fs vs u = Raise e → is_pme e.
Proof.
  intros Hfs. revert vs u.
  induction Hfs as [|f fs Hf _ IH]; intros [|v vs] u; simpl; try done.
  unfold mbind, result_bind. destruct (f v) as [b|e'] eqn:E.
  - apply IH.
  - intros [= <-]. by eapply Hf.
Qed.

Lemma assoc_map_Some {A B} (g : A → B) k (l : list (string * A)) :
  assoc k (map (λ ka, (ka.1, g ka.2)) l) = g <$> assoc k l.
Proof.
  induction l as [|[k' a] l IH]; simpl; [done|].
  by destruct (decide (k' = k)).
Qed.

Lemma default_kw_dict_Raise v keys d e :
  default_kw_dict v keys d = Raise e → is_pme e.
Proof.
  revert d. induction keys as [|k keys IH]; intros d; simpl; [done|].
  destruct (hasattr v k); simpl; [apply IH|]. intros [= <-]. by eexists.
Qed.

Lemma default_kw_dict_keys v keys d d' :
  default_kw_dict v keys d = Ok d' → map fst d' = map fst d ++ keys.
Proof.
  revert d. induction keys as [|k keys IH]; intros d; simpl.
  - intros [= <-]. by rewrite app_nil_r.
  - destruct (hasattr v k); simpl; [|done]. intros H%IH.
    rewrite H, map_app. simpl. by rewrite <- app_assoc.
Qed.

Lemma match_keywords_Raise (kwf : list (string * match_fn)) kwd u e :
  Forall (λ kf : string * match_fn, ∀ v e, kf.2 v = Raise e → is_pme e) kwf →
  Forall (λ k, is_Some (assoc k kwf)) (map fst kwd) →
  match_keywords kwf kwd u = Raise e → is_pme e.
Proof.
  intros Hf. revert u. induction kwd as [|[k v] kwd IH]; intros u Hk; simpl;
    [done|].
  apply Forall_cons in Hk as [[f Hfk] Hk]. simpl in Hfk. rewrite Hfk.
  unfold mbind, result_bind. destruct (f v) as [b|e'] eqn:E.
  - by apply IH.
  - intros [= <-]. assert ((k, f) ∈ kwf) as Hin.
    { clear -Hfk. induction kwf as [|[k' f'] kwf IH]; simpl in *; [done|].
      destruct (decide (k' = k)); simplify_eq; [left|right; auto]. }
    rewrite Forall_forall in Hf. by apply (Hf _ Hin v).
Qed.

Lemma assoc_is_Some {A} k (l : list (string * A)) :
  k ∈ map fst l → is_Some (assoc k l).
Proof.
  induction l as [|[k' a] l IH]; simpl; [by intros ?%elem_of_nil|].
  destruct (decide (k' = k)); [by eexists|].
  intros [?|?]%elem_of_cons; [congruence|auto].
Qed.

(** A matcher on the default path fails with [PatternMatchException] and
    with nothing else. *)
Lemma default_path_Raise m :
  default_path m → ∀ v e, match_ m v = Raise e → is_pme e.
Proof.
  induction m as [val|ms IH|m1 m2 IH1 IH2|ms IH|name| |clazz pos kw IHp IHk]
    using Matcher_induction; intros Hd v e; inversion Hd; subst; simpl.
  - destruct (py_ne val v); [|done]. intros [= <-]. by eexists.
  - unfold TupleMatcher_match. destruct v; try (intros [= <-]; by eexists).
    case_bool_decide; simpl; [|intros [= <-]; by eexists].
    apply match_zip_Raise. apply Forall_fmap.
    rewrite Forall_forall in *. intros m Hm v' e'. apply IH; auto.
  - unfold mbind, result_bind.
    destruct (match_ m1 v) as [b1|e1] eqn:E1; [|intros [= <-]; eauto].
    destruct (match_ m2 v) as [b2|e2] eqn:E2; [done|intros [= <-]; eauto].
  - unfold ListMatcher_match. destruct v; try (intros [= <-]; by eexists).
    case_bool_decide; simpl; [|intros [= <-]; by eexists].
    apply match_zip_Raise. apply Forall_fmap.
    rewrite Forall_forall in *. intros m Hm v' e'. apply IH; auto.
  - done.
  - done.
  - unfold ClassMatcher_match, unapply, default_unapply.
    match goal with H : cls_unapply _ = None |- _ => rewrite H end.
    destruct (isinstance v clazz); simpl; [|intros [= <-]; by eexists].
    unfold mbind at 1 2, result_bind.
    destruct (default_kw_dict v _ []) as [kwd|e'] eqn:Ekw;
      [|intros [= <-]; by eapply default_kw_dict_Raise].
    simpl. unfold mbind, result_bind.
    destruct (match_positional _ _ _) as [u|e'] eqn:Epos.
    + apply match_keywords_Raise.
      * apply Forall_fmap. rewrite Forall_forall in *.
        intros km Hkm v' e'. simpl. apply IHk; auto.
      * apply default_kw_dict_keys in Ekw. simpl in Ekw. rewrite Ekw.
        rewrite Forall_forall. intros k Hk. apply assoc_is_Some.
        done.
    + intros [= <-]. revert Epos. unfold match_positional, genPosValues.
      match goal with H : ∃ args, cls_init_args _ = Ok args |- _ =>
        destruct H as [args ->] end.
      destruct (map match_ pos) as [|f fs] eqn:Emap; [done|].
      rewrite <- Emap. simpl.
      apply match_zip_Raise. apply Forall_fmap.
      rewrite Forall_forall in *. intros m' Hm v'' e''. apply IHp; auto.
Qed.

Lemma match_zip_first_failure (ms1 ms2 : list Matcher) m (vs1 vs2 : list value)
    x bss u e :
  Forall3 (λ m v b, match_ m v = Ok b) ms1 vs1 bss →
  match_ m x = Raise e →
  match_zip (map match_ (ms1 ++ m :: ms2)) (vs1 ++ x :: vs2) u = Raise e.
Proof.
  intros H. revert u. induction H as [|m' v' b' ms1 vs1 bss Hb _ IH];
    intros u Hm; simpl.
  - by rewrite Hm.
  - rewrite Hb. simpl. by apply IH.
Qed.

Lemma TupleMatcher_match_Ok ms v bs :
  match_ (TupleMatcher ms) v = Ok bs
  ↔ ∃ vs bss, v = VTuple vs ∧ length vs = length ms
              ∧ Forall3 (λ m x b, match_ m x = Ok b) ms vs bss
              ∧ bs = concat bss.
Proof.
  simpl. unfold TupleMatcher_match. split.
  - destruct v as [| | | |vs| |]; try done.
    rewrite length_map. case_bool_decide as Hlen; simpl; [|done].
    intros (bss & H & ->)%match_zip_Ok; [|done]. by exists vs, bss.
  - intros (vs & bss & -> & Hlen & H & ->).
    rewrite length_map, bool_decide_true by done. simpl.
    apply match_zip_Ok; [done|]. by exists bss.
Qed.

Lemma ListMatcher_match_Ok ms v bs :
  match_ (ListMatcher ms) v = Ok bs
  ↔ ∃ vs bss, v = VList vs ∧ length vs = length ms
              ∧ Forall3 (λ m x b, match_ m x = Ok b) ms vs bss
              ∧ bs = concat bss.
Proof.
  simpl. unfold ListMatcher_match. split.
  - destruct v as [| | | | |vs|]; try done.
    rewrite length_map. case_bool_decide as Hlen; simpl; [|done].
    intros (bss & H & ->)%match_zip_Ok; [|done]. by exists vs, bss.
  - intros (vs & bss & -> & Hlen & H & ->).
    rewrite length_map, bool_decide_true by done. simpl.
    apply match_zip_Ok; [done|]. by exists bss.
Qed.

(** C2, where the code departs from the claim.  A match that does not
    return need not raise [PatternMatchException]: the exception of a
    sub-matcher goes through [TupleMatcher.match] and [ListMatcher.match]
    as it is.  The [ClassMatcher] of a class for whose [__init__]
    [inspect.getargspec] raises [ValueError] lets that [ValueError] out of
    the tuple match when it has a positional sub-matcher, and the
    [KeyError] of an [__unapply__] hook comes out of the list match. *)
Lemma C2_other_exception_counterexample :
  match_ (TupleMatcher [ClassMatcher Annotated [NameMatcher "x"] []])
    (VTuple [VObject 0 ["Annotated"; "object"] [("x", VInt 1)]])
  = Raise ValueError
  ∧ match_ (ListMatcher [ClassMatcher Hooked [] []]) (VList [VNone])
    = Raise (KeyError (Some "x"))
  ∧ ¬ is_pme ValueError
  ∧ ¬ is_pme (KeyError (Some "x")).
Proof.
  split; [done|]. split; [done|]. split; by intros [msg ?].
Qed.

(** C2, as the code has it.  [TupleMatcher(m1, ..., mn).match(v)] returns
    exactly when [v] is a tuple with as many elements as there are
    sub-matchers and every sub-matcher returns on the element at its
    position; the result is then the bindings of the sub-matchers joined
    from left to right.  Otherwise it raises: [PatternMatchException] when
    [v] is no tuple of that length, and the exception of the leftmost
    sub-matcher that fails when there is one, which is a
    [PatternMatchException] when every class of the sub-matchers is
    destructured by [default_unapply] and has a signature that [inspect]
    can read.  The same holds of [ListMatcher] and lists.  The three
    matches of the spec come out as stated. *)
Theorem C2_tuple_list_match (ms : list Matcher) (v : value) :
  (∀ bs, match_ (TupleMatcher ms) v = Ok bs
     ↔ ∃ vs bss, v = VTuple vs ∧ length vs = length ms
                 ∧ Forall3 (λ m x b, match_ m x = Ok b) ms vs bss
                 ∧ bs = concat bss)
  ∧ (∀ bs, match_ (ListMatcher ms) v = Ok bs
       ↔ ∃ vs bss, v = VList vs ∧ length vs = length ms
                   ∧ Forall3 (λ m x b, match_ m x = Ok b) ms vs bss
                   ∧ bs = concat bss)
  ∧ ((∀ vs, v = VTuple vs → length vs ≠ length ms) →
       match_ (TupleMatcher ms) v
       = Raise (PatternMatchException (ExpectedTuple (length ms))))
  ∧ ((∀ vs, v = VList vs → length vs ≠ length ms) →
       match_ (ListMatcher ms) v
       = Raise (PatternMatchException (ExpectedList (length ms))))
  ∧ (∀ ms1 m ms2 vs1 x vs2 bss e,
       ms = ms1 ++ m :: ms2 → length vs2 = length ms2 →
       Forall3 (λ m x b, match_ m x = Ok b) ms1 vs1 bss →
       match_ m x = Raise e →
       (v = VTuple (vs1 ++ x :: vs2) → match_ (TupleMatcher ms) v = Raise e)
       ∧ (v = VList (vs1 ++ x :: vs2) → match_ (ListMatcher ms) v = Raise e))
  ∧ (Forall default_path ms →
       (∀ e, match_ (TupleMatcher ms) v = Raise e → is_pme e)
       ∧ (∀ e, match_ (ListMatcher ms) v = Raise e → is_pme e))
  ∧ match_ (TupleMatcher [NameMatcher "a"; LiteralMatcher (VInt 5)])
      (VTuple [VInt 10; VInt 5]) = Ok [("a", VInt 10)]
  ∧ match_ (TupleMatcher [NameMatcher "a"; LiteralMatcher (VInt 5)])
      (VTuple [VInt 10; VInt 6])
    = Raise (PatternMatchException LiteralMatchFailed)
  ∧ match_ (TupleMatcher [NameMatcher "a"; LiteralMatcher (VInt 5)])
      (VTuple [VInt 1; VInt 2; VInt 3])
    = Raise (PatternMatchException (ExpectedTuple 2)).
Proof.
  split; [|split; [|split; [|split; [|split; [|split; [|done]]]]]].
  - intros bs. apply TupleMatcher_match_Ok.
  - intros bs. apply ListMatcher_match_Ok.
  - intros Hv. simpl. unfold TupleMatcher_match. rewrite length_map.
    destruct v as [| | | |vs| |]; try done.
    rewrite bool_decide_false; [done|]. by apply Hv.
  - intros Hv. simpl. unfold ListMatcher_match. rewrite length_map.
    destruct v as [| | | | |vs|]; try done.
    rewrite bool_decide_false; [done|]. by apply Hv.
  - intros ms1 m ms2 vs1 x vs2 bss e -> Hlen H Hm.
    assert (length (vs1 ++ x :: vs2) = length (ms1 ++ m :: ms2)) as Hl.
    { rewrite !length_app. simpl. apply Forall3_length_lm in H. lia. }
    split; intros ->; cbn [match_];
      unfold TupleMatcher_match, ListMatcher_match;
      rewrite length_map, bool_decide_true by done; cbn [negb];
      by eapply match_zip_first_failure.
  - intros Hd. split; intros e.
    + apply (default_path_Raise (TupleMatcher ms)). by constructor.
    + apply (default_path_Raise (ListMatcher ms)). by constructor.
Qed.

Lemma C2_tuple_list_match_witness :
  (∀ e, match_ (ListMatcher [WildcardMatcher; LiteralMatcher (VStr "k")])
          (VList [VNone; VStr "j"]) = Raise e → is_pme e)
  ∧ match_ (ListMatcher [WildcardMatcher; LiteralMatcher (VStr "k")])
      (VList [VNone; VStr "j"])
    = Raise (PatternMatchException LiteralMatchFailed)
  ∧ match_ (ListMatcher [WildcardMatcher; LiteralMatcher (VStr "k")])
      (VTuple [VNone; VStr "k"])
    = Raise (PatternMatchException (ExpectedList 2)).
Proof.
  destruct (C2_tuple_list_match [WildcardMatcher; LiteralMatcher (VStr "k")]
              (VList [VNone; VStr "j"])) as (_ & _ & _ & _ & Hfirst & Hpme & _).
  destruct (C2_tuple_list_match [WildcardMatcher; LiteralMatcher (VStr "k")]
              (VTuple [VNone; VStr "k"])) as (_ & _ & _ & Hshape & _).
  split; [|split].
  - apply Hpme. repeat constructor.
  - apply (Hfirst [WildcardMatcher] (LiteralMatcher (VStr "k")) []
             [VNone] (VStr "j") [] [[("_", VInt 3)]]); try done.
    repeat constructor.
  - apply Hshape. done.
Defined.

(** ** Class matchers *)

Lemma kw_keys_map (kw : list (string * Matcher)) :
  map fst (map (λ km, (km.1, match_ km.2)) kw) = map fst kw.
Proof. rewrite map_map. by apply map_ext. Qed.

Lemma match_positional_started fs vals u :
  match_positional fs (Ok vals) u = match_zip fs vals u.
Proof. by destruct fs. Qed.

Lemma match_zip_take (fs : list match_fn) (vs : list value) u :
  match_zip fs vs u
  = match_zip (take (length fs `min` length vs) fs)
              (take (length fs `min` length vs) vs) u.
Proof.
  revert vs u. induction fs as [|f fs IH]; intros [|v vs] u; simpl; try done.
  destruct (f v); simpl; [apply IH|done].
Qed.

Lemma match_zip_surplus (fs extra : list match_fn) (vs : list value) u :
  (length vs ≤ length fs)%nat →
  match_zip (fs ++ extra) vs u = match_zip fs vs u.
Proof.
  revert vs u. induction fs as [|f fs IH]; intros [|v vs] u Hlen; simpl in *;
    try done; try lia.
  - by destruct extra.
  - destruct (f v); simpl; [apply IH; lia|done].
Qed.

Lemma default_kw_dict_present v keys d :
  Forall (λ k, hasattr v k = true) keys →
  default_kw_dict v keys d
  = Ok (d ++ map (λ k, (k, getattr_default v k VNone)) keys).
Proof.
  intros H. revert d. induction H as [|k keys Hk _ IH]; intros d; simpl.
  - by rewrite app_nil_r.
  - rewrite Hk. simpl. rewrite IH. by rewrite <- app_assoc.
Qed.

Lemma default_kw_dict_missing v keys d k :
  k ∈ keys → hasattr v k = false →
  ∃ k', k' ∈ keys ∧ hasattr v k' = false
        ∧ default_kw_dict v keys d
          = Raise (PatternMatchException (NoAttribute k')).
Proof.
  intros Hin Hk. revert d.
  induction keys as [|k0 keys IH]; intros d; [by apply elem_of_nil in Hin|].
  simpl. destruct (hasattr v k0) eqn:E0; simpl.
  - apply elem_of_cons in Hin as [->|Hin]; [congruence|].
    destruct (IH Hin (d ++ [(k0, getattr_default v k0 VNone)]))
      as (k' & Hk' & Hm & Hr).
    exists k'. split; [by right|done].
  - exists k0. split; [by left|done].
Qed.

(** C7, where the code departs from the claim.  [Point] has the
    constructor parameters [x] and [y]; the matchee is an instance of it
    that has no attribute [x].  The match does not raise: the sub-matcher
    for [x] is given [None] and binds it. *)
Lemma C7_missing_positional_counterexample :
  cls_unapply Point = None
  ∧ isinstance (Point_obj 1 [("y", VInt 2)]) Point = true
  ∧ getattr (Point_obj 1 [("y", VInt 2)]) "x" = None
  ∧ match_ (ClassMatcher Point [NameMatcher "px"; LiteralMatcher (VInt 2)] [])
      (Point_obj 1 [("y", VInt 2)])
    = Ok [("px", VNone)].
Proof. done. Qed.

(** C7, as the code has it.  On the default path and for an instance of the
    class: when an attribute that a keyword matcher names is missing on the
    matchee, the match raises [PatternMatchException] for the first such
    attribute.  A positional field that is missing does not fail the match
    by itself: [getattr(matchee, arg, None)] puts [None] in its place, and
    the sub-matcher of that position is run on [None]. *)
Theorem C7_missing_field_default_path (clazz : pyclass) (pos : list Matcher)
    (kw : list (string * Matcher)) (v : value) :
  cls_unapply clazz = None →
  isinstance v clazz = true →
  (∀ k, k ∈ map fst kw → hasattr v k = false →
     ∃ k', k' ∈ map fst kw ∧ hasattr v k' = false
           ∧ match_ (ClassMatcher clazz pos kw) v
             = Raise (PatternMatchException (NoAttribute k')))
  ∧ (∀ args, cls_init_args clazz = Ok args →
       Forall (λ k, hasattr v k = true) (map fst kw) →
       match_ (ClassMatcher clazz pos kw) v
       = (updates ←
            match_zip (map match_ pos)
              (map (λ arg, getattr_default v arg VNone)
                 (filter (λ arg, arg ≠ "self") args)) [];
          match_keywords (map (λ km, (km.1, match_ km.2)) kw)
            (map (λ k, (k, getattr_default v k VNone)) (map fst kw))
            updates)).
Proof.
  intros Hhook Hinst. split.
  - intros k Hin Hk.
    destruct (default_kw_dict_missing v (map fst kw) [] k Hin Hk)
      as (k' & Hin' & Hk' & Hr).
    exists k'. split; [done|]. split; [done|].
    cbn [match_]. unfold ClassMatcher_match, unapply, default_unapply.
    by rewrite Hhook, Hinst, kw_keys_map, Hr.
  - intros args Hargs Hkw.
    cbn [match_]. unfold ClassMatcher_match, unapply, default_unapply.
    rewrite Hhook, Hinst, kw_keys_map, default_kw_dict_present by done.
    cbn [negb mbind result_bind app]. unfold genPosValues. rewrite Hargs.
    by rewrite match_positional_started.
Qed.

Lemma C7_missing_field_default_path_witness :
  (∃ k', k' ∈ ["y"; "z"] ∧ hasattr (Point_obj 1 [("y", VInt 2)]) k' = false
         ∧ match_ (ClassMatcher Point [] [("y", WildcardMatcher);
                                           ("z", NameMatcher "pz")])
             (Point_obj 1 [("y", VInt 2)])
           = Raise (PatternMatchException (NoAttribute k')))
  ∧ match_ (ClassMatcher Point [NameMatcher "px"] [("y", NameMatcher "py")])
      (Point_obj 1 [("y", VInt 2)])
    = Ok [("px", VNone); ("py", VInt 2)].
Proof.
  split.
  - apply (C7_missing_field_default_path Point []
             [("y", WildcardMatcher); ("z", NameMatcher "pz")]
             (Point_obj 1 [("y", VInt 2)]) eq_refl eq_refl) with (k := "z").
    + set_solver.
    + reflexivity.
  - destruct (C7_missing_field_default_path Point [NameMatcher "px"]
                [("y", NameMatcher "py")]
                (Point_obj 1 [("y", VInt 2)]) eq_refl eq_refl) as [_ Hpos].
    etransitivity.
    + apply (Hpos ["self"; "x"; "y"] eq_refl). repeat constructor.
    + reflexivity.
Defined.

(** C10.  [ClassMatcher.match] pairs its positional sub-matchers with the
    destructured positional values by [zip] and checks no count: the match
    is that of the first [n] sub-matchers on the first [n] values, [n] the
    smaller of the two counts.  Sub-matchers beyond the values are never
    called, values beyond the sub-matchers are never looked at, and when
    the paired sub-matchers return (and there is no keyword to match) the
    match returns whatever the counts are.  [TupleMatcher] and
    [ListMatcher] raise [PatternMatchException] on the same counts. *)
Theorem C10_class_no_arity_check (clazz : pyclass) (pos : list Matcher)
    (kw : list (string * Matcher)) (v : value) (vals : list value)
    (kwd : list (string * value)) :
  unapply clazz v (map fst kw) = Ok (Ok vals, kwd) →
  match_ (ClassMatcher clazz pos kw) v
  = (updates ←
       match_zip (map match_ (take (length pos `min` length vals) pos))
         (take (length pos `min` length vals) vals) [];
     match_keywords (map (λ km, (km.1, match_ km.2)) kw) kwd updates)
  ∧ (∀ extra, (length vals ≤ length pos)%nat →
       match_ (ClassMatcher clazz (pos ++ extra) kw) v
       = match_ (ClassMatcher clazz pos kw) v)
  ∧ (∀ bss, kwd = [] →
       Forall3 (λ m x b, match_ m x = Ok b)
         (take (length pos `min` length vals) pos)
         (take (length pos `min` length vals) vals) bss →
       match_ (ClassMatcher clazz pos kw) v = Ok (concat bss))
  ∧ (length pos ≠ length vals →
       match_ (TupleMatcher pos) (VTuple vals)
       = Raise (PatternMatchException (ExpectedTuple (length pos)))
       ∧ match_ (ListMatcher pos) (VList vals)
         = Raise (PatternMatchException (ExpectedList (length pos)))).
Proof.
  intros Hun.
  assert (match_ (ClassMatcher clazz pos kw) v
          = (updates ←
               match_zip (map match_ (take (length pos `min` length vals) pos))
                 (take (length pos `min` length vals) vals) [];
             match_keywords (map (λ km, (km.1, match_ km.2)) kw) kwd updates))
    as Heq.
  { cbn [match_]. unfold ClassMatcher_match. rewrite kw_keys_map, Hun.
    cbn [mbind result_bind]. rewrite match_positional_started.
    rewrite match_zip_take, length_map. by rewrite firstn_map. }
  split; [done|]. split; [|split].
  - intros extra Hlen. cbn [match_]. unfold ClassMatcher_match.
    rewrite kw_keys_map, Hun. cbn [mbind result_bind].
    rewrite !match_positional_started, map_app.
    rewrite match_zip_surplus; [done|]. by rewrite length_map.
  - intros bss -> H. rewrite Heq.
    assert (match_zip (map match_ (take (length pos `min` length vals) pos))
              (take (length pos `min` length vals) vals) [] = Ok (concat bss))
      as ->; [|done].
    apply match_zip_Ok; [|by exists bss].
    rewrite !length_take. lia.
  - intros Hlen. cbn [match_]. unfold TupleMatcher_match, ListMatcher_match.
    rewrite length_map, bool_decide_false by done. done.
Qed.

Lemma C10_class_no_arity_check_witness :
  match_ (ClassMatcher Point [NameMatcher "px"] [])
    (Point_obj 1 [("x", VInt 1); ("y", VInt 2)])
  = Ok [("px", VInt 1)]
  ∧ match_ (ClassMatcher Point
              ([NameMatcher "px"; NameMatcher "py"] ++ [LiteralMatcher (VInt 99)])
              [])
      (Point_obj 1 [("x", VInt 1); ("y", VInt 2)])
    = Ok [("px", VInt 1); ("py", VInt 2)]
  ∧ match_ (TupleMatcher [NameMatcher "px"]) (VTuple [VInt 1; VInt 2])
    = Raise (PatternMatchException (ExpectedTuple 1)).
Proof.
  destruct (C10_class_no_arity_check Point [NameMatcher "px"] []
              (Point_obj 1 [("x", VInt 1); ("y", VInt 2)])
              [VInt 1; VInt 2] [] eq_refl) as (Hshort & _ & _ & Htuple).
  destruct (C10_class_no_arity_check Point
              [NameMatcher "px"; NameMatcher "py"] []
              (Point_obj 1 [("x", VInt 1); ("y", VInt 2)])
              [VInt 1; VInt 2] [] eq_refl) as (_ & Hlong & _).
  split; [|split].
  - etransitivity; [apply Hshort|reflexivity].
  - etransitivity; [apply Hlong; simpl; lia|reflexivity].
  - apply Htuple. simpl. lia.
Defined.

(** ** The names that a match binds *)

Lemma assoc_elem_of {A} k (a : A) (l : list (string * A)) :
  assoc k l = Some a → (k, a) ∈ l.
Proof.
  induction l as [|[k' a'] l IH]; simpl; [done|].
  destruct (decide (k' = k)) as [->|]; [intros [= ->]; left|right; auto].
Qed.

Lemma assoc_NoDup {A} k (a : A) (l : list (string * A)) :
  NoDup (map fst l) → (k, a) ∈ l → assoc k l = Some a.
Proof.
  induction l as [|[k' a'] l IH]; simpl; [by intros _ ?%elem_of_nil|].
  rewrite NoDup_cons. intros [Hk' Hnd] [[= -> ->]|Hin]%elem_of_cons.
  - by rewrite decide_True.
  - rewrite decide_False; [auto|]. intros ->. apply Hk'.
    apply list_elem_of_fmap. by exists (k, a).
Qed.

Lemma names_match_zip (ms : list Matcher) (vs : list value) (u bs : bindings) :
  Forall binds_declared ms →
  match_zip (map match_ ms) vs u = Ok bs →
  map fst bs ⊆ map fst u ++ concat (map var_names ms).
Proof.
  intros Hms. revert vs u.
  induction Hms as [|m ms Hm _ IH]; intros [|v vs] u; simpl;
    try (intros [= <-]; set_solver).
  unfold mbind, result_bind. destruct (match_ m v) as [b|e] eqn:E; [|done].
  intros H%IH. apply Hm in E. rewrite map_app in H. set_solver.
Qed.

Lemma names_match_keywords (kw : list (string * Matcher))
    (kwd : list (string * value)) (u bs : bindings) :
  Forall (λ km, binds_declared km.2) kw →
  match_keywords (map (λ km, (km.1, match_ km.2)) kw) kwd u = Ok bs →
  map fst bs ⊆ map fst u ++ concat (map (λ km, var_names km.2) kw).
Proof.
  intros Hkw. revert u. induction kwd as [|[k x] kwd IH]; intros u; simpl.
  - intros [= <-]. set_solver.
  - rewrite assoc_map_Some. destruct (assoc k kw) as [m|] eqn:Ek; [|done].
    simpl. unfold mbind, result_bind.
    destruct (match_ m x) as [b|e] eqn:E; [|done].
    intros H%IH. apply assoc_elem_of in Ek.
    rewrite Forall_forall in Hkw. apply (Hkw _ Ek) in E. simpl in E.
    rewrite map_app in H. intros n Hn. apply H in Hn.
    apply elem_of_app in Hn as [[Hn|Hn]%elem_of_app|Hn]; [set_solver| |set_solver].
    apply elem_of_app. right. apply elem_of_concat.
    exists (var_names m). split; [|by apply E].
    apply list_elem_of_fmap. by exists (k, m).
Qed.

Lemma match_binds_declared m : binds_declared m.
Proof.
  induction m as [val|ms IH|m1 m2 IH1 IH2|ms IH|name| |clazz pos kw IHp IHk]
    using Matcher_induction; intros v bs; simpl.
  - destruct (py_ne val v); [done|]. by intros [= <-].
  - unfold TupleMatcher_match. destruct v; try done.
    destruct (negb _); [done|]. intros H.
    by apply (names_match_zip _ _ _ _ IH) in H.
  - unfold mbind, result_bind.
    destruct (match_ m1 v) as [b1|] eqn:E1; [|done].
    destruct (match_ m2 v) as [b2|] eqn:E2; [|done].
    intros [= <-]. apply IH1 in E1. apply IH2 in E2.
    rewrite map_app. unfold flatten. simpl. set_solver.
  - unfold ListMatcher_match. destruct v; try done.
    destruct (negb _); [done|]. intros H.
    by apply (names_match_zip _ _ _ _ IH) in H.
  - intros [= <-]. set_solver.
  - intros [= <-]. set_solver.
  - unfold ClassMatcher_match. unfold mbind at 1, result_bind.
    destruct (unapply clazz v _) as [[pos_vals kwd]|]; [|done].
    unfold mbind, result_bind.
    destruct (match_positional _ pos_vals []) as [u|] eqn:Ep; [|done].
    intros H. apply (names_match_keywords _ _ _ _ IHk) in H.
    assert (map fst u ⊆ concat (map var_names pos)) as Hu.
    { revert Ep. unfold match_positional.
      destruct (map match_ pos) as [|f fs] eqn:Em; [intros [= <-]; set_solver|].
      rewrite <- Em. destruct pos_vals as [vals|]; [|done]. simpl.
      intros Hz. by apply (names_match_zip _ _ _ _ IHp) in Hz. }
    unfold flatten. rewrite concat_app. set_solver.
Qed.

(** [match] binds no name that [var_names()] does not declare, whatever
    the matcher and the value, and whatever an [__unapply__] hook
    returns. *)
Theorem match_binds_declared_names (m : Matcher) (v : value) (bs : bindings) :
  match_ m v = Ok bs → ∀ name, name ∈ map fst bs → name ∈ var_names m.
Proof. intros H. by apply match_binds_declared in H. Qed.

Lemma match_binds_declared_names_witness :
  "px" ∈ var_names (ClassMatcher Point [NameMatcher "px"; LiteralMatcher (VInt 2)] []).
Proof.
  apply (match_binds_declared_names
           (ClassMatcher Point [NameMatcher "px"; LiteralMatcher (VInt 2)] [])
           (Point_obj 0 [("x", VInt 1); ("y", VInt 2)])
           [("px", VInt 1)] eq_refl).
  simpl. set_solver.
Defined.

(** ** The order of the bound names *)

Lemma match_zip_Ok_take (ms : list Matcher) (vs : list value) (u bs : bindings) :
  match_zip (map match_ ms) vs u = Ok bs →
  ∃ bss, Forall3 (λ m v b, match_ m v = Ok b)
           (take (length ms `min` length vs) ms)
           (take (length ms `min` length vs) vs) bss
         ∧ bs = u ++ concat bss.
Proof.
  rewrite match_zip_take, length_map, <- fmap_take.
  apply match_zip_Ok. rewrite !length_take. lia.
Qed.

Lemma default_kw_dict_Ok v keys d d' :
  default_kw_dict v keys d = Ok d' →
  d' = d ++ map (λ k, (k, getattr_default v k VNone)) keys.
Proof.
  revert d. induction keys as [|k keys IH]; intros d; simpl.
  - intros [= <-]. by rewrite app_nil_r.
  - destruct (hasattr v k); simpl; [|done]. intros ->%IH.
    by rewrite <- app_assoc.
Qed.

Lemma match_keywords_keyed (kw kw' : list (string * Matcher))
    (g : string → value) (u bs : bindings) :
  NoDup (map fst kw) → kw' ⊆ kw →
  match_keywords (map (λ km, (km.1, match_ km.2)) kw)
    (map (λ km : string * Matcher, (km.1, g km.1)) kw') u = Ok bs →
  ∃ bss, Forall2 (λ km b, match_ km.2 (g km.1) = Ok b) kw' bss
         ∧ bs = u ++ concat bss.
Proof.
  intros Hnd. revert u. induction kw' as [|[k m] kw' IH]; intros u Hsub; simpl.
  - intros [= <-]. exists []. split; [constructor|by rewrite app_nil_r].
  - rewrite assoc_map_Some, (assoc_NoDup k m) by set_solver. simpl.
    unfold mbind, result_bind. destruct (match_ m (g k)) as [b|] eqn:E; [|done].
    intros (bss & H & ->)%IH; [|set_solver].
    exists (b :: bss). split; [by constructor|]. simpl. by rewrite app_assoc.
Qed.

(** What [ClassMatcher.match] comes to on the default path. *)
Lemma ClassMatcher_default_Ok clazz pos kw v args bs :
  cls_unapply clazz = None → cls_init_args clazz = Ok args →
  match_ (ClassMatcher clazz pos kw) v = Ok bs →
  ∃ u, match_zip (map match_ pos)
         (map (λ arg, getattr_default v arg VNone)
            (filter (λ arg, arg ≠ "self") args)) [] = Ok u
       ∧ match_keywords (map (λ km, (km.1, match_ km.2)) kw)
           (map (λ km : string * Matcher,
                   (km.1, getattr_default v km.1 VNone)) kw) u = Ok bs.
Proof.
  intros Hu Ha. simpl.
  unfold ClassMatcher_match, unapply, default_unapply, genPosValues.
  rewrite Hu, Ha. destruct (isinstance v clazz); simpl; [|done].
  unfold mbind at 1 2, result_bind. rewrite kw_keys_map.
  destruct (default_kw_dict v (map fst kw) []) as [kwd|] eqn:Ek; [|done].
  apply default_kw_dict_Ok in Ek as ->. simpl.
  rewrite match_positional_started. unfold mbind, result_bind.
  destruct (match_zip _ _ []) as [u|]; [|done].
  intros H. exists u. split; [done|]. by rewrite map_map in H.
Qed.

Section names_in_order.
Variable R : list string → list string → Prop.
Hypothesis R_nil : R [] [].
Hypothesis R_app : ∀ l1 l2 k1 k2, R l1 l2 → R k1 k2 → R (l1 ++ k1) (l2 ++ k2).

Lemma names_Forall3 (ms : list Matcher) (vs : list value) (bss : list bindings) :
  Forall (λ m, ∀ v bs, match_ m v = Ok bs → R (map fst bs) (var_names m)) ms →
  Forall3 (λ m v b, match_ m v = Ok b) ms vs bss →
  R (map fst (concat bss)) (concat (map var_names ms)).
Proof.
  intros Hms H. induction H as [|m v b ms vs bss Hb _ IH]; simpl; [done|].
  apply Forall_cons in Hms as [Hm Hms]. rewrite map_app.
  apply R_app; [by eapply Hm|by apply IH].
Qed.

Lemma names_Forall2 (kw : list (string * Matcher)) (g : string → value)
    (bss : list bindings) :
  Forall (λ km : string * Matcher,
            ∀ v bs, match_ km.2 v = Ok bs → R (map fst bs) (var_names km.2)) kw →
  Forall2 (λ km b, match_ km.2 (g km.1) = Ok b) kw bss →
  R (map fst (concat bss)) (concat (map (λ km, var_names km.2) kw)).
Proof.
  intros Hkw H. induction H as [|km b kw bss Hb _ IH]; simpl; [done|].
  apply Forall_cons in Hkw as [Hm Hkw]. rewrite map_app.
  apply R_app; [by eapply Hm|by apply IH].
Qed.
End names_in_order.

Lemma app_cong (l1 l2 k1 k2 : list string) :
  l1 = l2 → k1 = k2 → l1 ++ k1 = l2 ++ k2.
Proof. by intros -> ->. Qed.

Lemma concat_take_sublist {A B} (f : A → list B) (l : list A) k :
  concat (map f (take k l)) `sublist_of` concat (map f l).
Proof.
  rewrite <- (take_drop k l) at 2. rewrite map_app, concat_app.
  by apply sublist_inserts_r.
Qed.

Lemma Forall_impl_2 {A} (P Q T : A → Prop) (l : list A) :
  Forall (λ x, P x → Q x → T x) l → Forall P l → Forall Q l → Forall T l.
Proof. rewrite !Forall_forall. naive_solver. Qed.

Lemma Forall_impl_3 {A} (P Q S T : A → Prop) (l : list A) :
  Forall (λ x, P x → Q x → S x → T x) l →
  Forall P l → Forall Q l → Forall S l → Forall T l.
Proof. rewrite !Forall_forall. naive_solver. Qed.

Lemma match_names_sublist m :
  default_path m → keyed m →
  ∀ v bs, match_ m v = Ok bs → map fst bs `sublist_of` var_names m.
Proof.
  unfold keyed.
  induction m as [val|ms IH|m1 m2 IH1 IH2|ms IH|name| |clazz pos kw IHp IHk]
    using Matcher_induction; intros Hd Hk v bs; inversion Hd; inversion Hk;
    subst.
  - simpl. destruct (py_ne val v); [done|]. by intros [= <-].
  - intros (vs & bss & -> & _ & H & ->)%TupleMatcher_match_Ok. simpl.
    eapply (names_Forall3 sublist (sublist_nil_l []) sublist_app); [|done].
    by eapply (Forall_impl_2 default_path keyed _ _ IH).
  - simpl. unfold mbind, result_bind.
    destruct (match_ m1 v) as [b1|] eqn:E1; [|done].
    destruct (match_ m2 v) as [b2|] eqn:E2; [|done].
    intros [= <-]. unfold flatten. simpl. rewrite map_app, app_nil_r.
    apply sublist_app; eauto.
  - intros (vs & bss & -> & _ & H & ->)%ListMatcher_match_Ok. simpl.
    eapply (names_Forall3 sublist (sublist_nil_l []) sublist_app); [|done].
    by eapply (Forall_impl_2 default_path keyed _ _ IH).
  - simpl. by intros [= <-].
  - simpl. by intros [= <-].
  - match goal with H : ∃ args, cls_init_args _ = Ok args |- _ =>
      destruct H as [args Ha] end.
    intros (u & Hz & Hkw)%(ClassMatcher_default_Ok _ _ _ _ args); [|done..].
    apply match_zip_Ok_take in Hz as (bss1 & Hb1 & ->).
    apply (match_keywords_keyed kw kw (λ k, getattr_default v k VNone))
      in Hkw as (bss2 & Hb2 & ->); [|done..].
    simpl. unfold flatten. rewrite concat_app, map_app.
    apply sublist_app.
    + etrans; [|apply (concat_take_sublist var_names pos)].
      eapply (names_Forall3 sublist (sublist_nil_l []) sublist_app); [|done].
      apply Forall_take.
      by eapply (Forall_impl_2 default_path keyed _ _ IHp).
    + eapply (names_Forall2 sublist (sublist_nil_l []) sublist_app kw
                (λ k, getattr_default v k VNone)); [|done].
      by eapply (Forall_impl_2 (λ km, default_path km.2)
                   (λ km, keyed km.2) _ _ IHk).
Qed.

(** On the default path, when no [ClassMatcher] has more positional
    sub-matchers than its class has constructor parameters, a match that
    returns binds the names of [var_names()], each once per declaration and
    in the same order. *)
Theorem match_binds_exactly (m : Matcher) (v : value) (bs : bindings) :
  default_path m → keyed m → within_arity m →
  match_ m v = Ok bs → map fst bs = var_names m.
Proof.
  unfold keyed, within_arity. revert v bs.
  induction m as [val|ms IH|m1 m2 IH1 IH2|ms IH|name| |clazz pos kw IHp IHk]
    using Matcher_induction; intros v bs Hd Hk Hw;
    inversion Hd; inversion Hk; inversion Hw; subst.
  - simpl. destruct (py_ne val v); [done|]. by intros [= <-].
  - intros (vs & bss & -> & _ & H & ->)%TupleMatcher_match_Ok. simpl.
    eapply (names_Forall3 eq eq_refl app_cong); [|done].
    eapply (Forall_impl_3 default_path keyed within_arity);
      [|done..].
    eapply Forall_impl; [exact IH|]. intros m Hm ???. intros. by eapply Hm.
  - simpl. unfold mbind, result_bind.
    destruct (match_ m1 v) as [b1|] eqn:E1; [|done].
    destruct (match_ m2 v) as [b2|] eqn:E2; [|done].
    intros [= <-]. unfold flatten. simpl. rewrite map_app, app_nil_r.
    f_equal; eauto.
  - intros (vs & bss & -> & _ & H & ->)%ListMatcher_match_Ok. simpl.
    eapply (names_Forall3 eq eq_refl app_cong); [|done].
    eapply (Forall_impl_3 default_path keyed within_arity);
      [|done..].
    eapply Forall_impl; [exact IH|]. intros m Hm ???. intros. by eapply Hm.
  - simpl. by intros [= <-].
  - simpl. by intros [= <-].
  - match goal with H : ∃ _, _ |- _ => destruct H as (args & Ha & Hlen) end.
    intros (u & Hz & Hkw)%(ClassMatcher_default_Ok _ _ _ _ args); [|done..].
    apply match_zip_Ok_take in Hz as (bss1 & Hb1 & ->).
    apply (match_keywords_keyed kw kw (λ k, getattr_default v k VNone))
      in Hkw as (bss2 & Hb2 & ->); [|done..].
    rewrite length_map, Nat.min_l, firstn_all in Hb1 by done.
    simpl. unfold flatten. rewrite concat_app, map_app. f_equal.
    + eapply (names_Forall3 eq eq_refl app_cong); [|done].
      eapply (Forall_impl_3 default_path keyed within_arity);
        [|done..].
      eapply Forall_impl; [exact IHp|]. intros m Hm ???. intros. by eapply Hm.
    + eapply (names_Forall2 eq eq_refl app_cong kw
                (λ k, getattr_default v k VNone)); [|done].
      eapply (Forall_impl_3 (λ km, default_path km.2)
                (λ km, keyed km.2) (λ km, within_arity km.2));
        [|done..].
      eapply Forall_impl; [exact IHk|]. intros m Hm ???. intros. by eapply Hm.
Qed.

Lemma match_binds_exactly_witness :
  map fst [("px", VInt 1); ("py", VInt 2)]
  = var_names (ClassMatcher Point [NameMatcher "px"; LiteralMatcher (VInt 2)]
                 [("y", NameMatcher "py")]).
Proof.
  apply (match_binds_exactly _ (Point_obj 0 [("x", VInt 1); ("y", VInt 2)])).
  - apply default_Class; [done|by eexists|repeat constructor..].
  - apply every_Class; [|repeat constructor..].
    simpl. apply NoDup_singleton.
  - apply every_Class; [|repeat constructor..].
    exists ["self"; "x"; "y"]. split; [done|]. vm_compute. lia.
  - reflexivity.
Defined.

(** ** _match_value and get_var *)

Lemma foldl_insert_notin (bs : bindings) (d : gmap string value) n :
  n ∉ map fst bs →
  foldl (λ d (b : string * value), <[b.1 := b.2]> d) d bs !! n = d !! n.
Proof.
  revert d. induction bs as [|[k x] bs IH]; intros d Hn; simpl; [done|].
  rewrite IH by set_solver. apply lookup_insert_ne. set_solver.
Qed.

Lemma foldl_insert_NoDup (bs : bindings) (d : gmap string value) n x :
  NoDup (map fst bs) → (n, x) ∈ bs →
  foldl (λ d (b : string * value), <[b.1 := b.2]> d) d bs !! n = Some x.
Proof.
  revert d. induction bs as [|[k y] bs IH]; intros d; simpl;
    [by intros _ ?%elem_of_nil|].
  rewrite NoDup_cons. intros [Hk Hnd] [[= -> ->]|Hin]%elem_of_cons.
  - rewrite foldl_insert_notin by done. apply lookup_insert_eq.
  - by apply IH.
Qed.

Lemma foldl_insert_Some (bs : bindings) (d : gmap string value) n x :
  foldl (λ d (b : string * value), <[b.1 := b.2]> d) d bs !! n = Some x →
  (n, x) ∈ bs ∨ d !! n = Some x.
Proof.
  revert d. induction bs as [|[k y] bs IH]; intros d; simpl; [by right|].
  intros [H|H]%IH; [left; by right|].
  destruct (decide (k = n)) as [->|Hne].
  - rewrite lookup_insert_eq in H. injection H as ->. left. by left.
  - rewrite lookup_insert_ne in H by done. by right.
Qed.

(** After [_match_value] has returned, [get_var] gives for every name the
    value that the match bound to it, and raises [KeyError] for a name
    that the match did not bind; this for a matcher on the default path
    whose composites all went through their constructors. *)
Theorem get_var_after_match (m : Matcher) (v : value) (bs : bindings)
    (self : var_dict) :
  constructed m → default_path m → keyed m →
  match_ m v = Ok bs →
  (_match_value m v self).2 = Ok ()
  ∧ (∀ name x, (name, x) ∈ bs →
       get_var (_match_value m v self).1 name = Ok x)
  ∧ (∀ name, name ∉ map fst bs →
       get_var (_match_value m v self).1 name = Raise (KeyError (Some name))).
Proof.
  intros Hc Hd Hk Hm. unfold _match_value. rewrite Hm. simpl.
  split; [done|]. split.
  - intros name x Hin. rewrite (foldl_insert_NoDup _ _ _ x); [done| |done].
    eapply sublist_NoDup; [by apply constructed_NoDup|].
    by eapply match_names_sublist.
  - intros name Hn. by rewrite foldl_insert_notin, lookup_empty.
Qed.

Lemma get_var_after_match_witness :
  get_var
    (_match_value
       (TupleMatcher [NameMatcher "a"; ListMatcher [NameMatcher "b"; WildcardMatcher]])
       (VTuple [VInt 10; VList [VStr "s"; VNone]]) None).1 "b"
  = Ok (VStr "s").
Proof.
  assert (constructed
            (TupleMatcher [NameMatcher "a";
                           ListMatcher [NameMatcher "b"; WildcardMatcher]])) as Hc.
  { apply constructed_Tuple; [|reflexivity]. repeat constructor. }
  refine (proj1 (proj2 (get_var_after_match _
            (VTuple [VInt 10; VList [VStr "s"; VNone]])
            [("a", VInt 10); ("b", VStr "s"); ("_", VInt 3)] None
            Hc _ _ eq_refl)) "b" (VStr "s") _).
  - repeat constructor.
  - repeat constructor.
  - set_solver.
Defined.

(** What [get_var] returns was bound by the last call of [_match_value]:
    nothing of an earlier match is left.  When that call raised, the
    dictionary is empty and [get_var] raises [KeyError] for every name;
    before the first call there is no dictionary, and [get_var] raises
    [AttributeError]. *)
Theorem get_var_reads_last_match (m : Matcher) (v : value) (self : var_dict)
    (name : string) (x : value) :
  get_var (_match_value m v self).1 name = Ok x →
  ∃ bs, match_ m v = Ok bs ∧ (name, x) ∈ bs
        ∧ (_match_value m v self).2 = Ok ().
Proof.
  unfold _match_value. destruct (match_ m v) as [bs|e]; simpl.
  - destruct (foldl _ ∅ bs !! name) as [y|] eqn:E; [|done].
    intros [= ->]. exists bs. split; [done|]. split; [|done].
    apply foldl_insert_Some in E as [?|E]; [done|].
    by rewrite lookup_empty in E.
  - by rewrite lookup_empty.
Qed.

Lemma get_var_reads_last_match_witness :
  ∃ bs, match_ (NameMatcher "a") (VInt 2) = Ok bs ∧ ("a", VInt 2) ∈ bs
        ∧ (_match_value (NameMatcher "a") (VInt 2)
             (_match_value (NameMatcher "a") (VInt 1) None).1).2 = Ok ().
Proof.
  exact (get_var_reads_last_match (NameMatcher "a") (VInt 2)
           (_match_value (NameMatcher "a") (VInt 1) None).1 "a" (VInt 2)
           eq_refl).
Defined.

(** ** Positional sub-matchers beyond the constructor parameters *)

(** On the default path, the positional sub-matchers that come after as
    many as the constructor has parameters are never run (see
    [match_zip_surplus]): the match can return, and then the names that
    these sub-matchers declare are not bound, and [get_var] raises
    [KeyError] for them. *)
Theorem surplus_positional_unbound (clazz : pyclass) (pos extra : list Matcher)
    (kw : list (string * Matcher)) (args : list string) (v : value)
    (bs : bindings) (self : var_dict) :
  constructed (ClassMatcher clazz (pos ++ extra) kw) →
  cls_unapply clazz = None → cls_init_args clazz = Ok args →
  (length (filter (λ arg, arg ≠ "self") args) ≤ length pos)%nat →
  match_ (ClassMatcher clazz (pos ++ extra) kw) v = Ok bs →
  match_ (ClassMatcher clazz pos kw) v = Ok bs
  ∧ ∀ name, name ∈ flatten (map var_names extra) →
      get_var (_match_value (ClassMatcher clazz (pos ++ extra) kw) v self).1
        name
      = Raise (KeyError (Some name)).
Proof.
  intros Hc Hu Ha Hlen Hm.
  assert (match_ (ClassMatcher clazz pos kw) v = Ok bs) as Hm'.
  { revert Hm. simpl.
    unfold ClassMatcher_match, unapply, default_unapply, genPosValues.
    rewrite Hu, Ha. destruct (isinstance v clazz); simpl; [|done].
    unfold mbind at 1 2 4 5, result_bind.
    destruct (default_kw_dict _ _ []) as [kwd|]; [|done]. simpl.
    rewrite !match_positional_started, map_app, match_zip_surplus; [done|].
    by rewrite !length_map. }
  split; [done|]. intros name Hn.
  unfold _match_value. rewrite Hm. simpl.
  rewrite foldl_insert_notin, lookup_empty; [done|].
  intros Hin. apply match_binds_declared in Hm'. apply Hm' in Hin.
  apply constructed_NoDup in Hc. revert Hc Hin. simpl. unfold flatten in *.
  rewrite !map_app, !concat_app, <- !app_assoc.
  rewrite !NoDup_app. intros (_ & HP & _ & HE & _) [Hin|Hin]%elem_of_app.
  - apply (HP name Hin). set_solver.
  - by apply (HE name Hn).
Qed.

Lemma surplus_positional_unbound_witness :
  match_ (ClassMatcher Point [NameMatcher "a"; NameMatcher "b"] []) 
    (Point_obj 0 [("x", VInt 1); ("y", VInt 2)])
  = Ok [("a", VInt 1); ("b", VInt 2)]
  ∧ get_var
      (_match_value
         (ClassMatcher Point
            [NameMatcher "a"; NameMatcher "b"; NameMatcher "c"] [])
         (Point_obj 0 [("x", VInt 1); ("y", VInt 2)]) None).1 "c"
    = Raise (KeyError (Some "c")).
Proof.
  assert (constructed
            (ClassMatcher Point
               ([NameMatcher "a"; NameMatcher "b"] ++ [NameMatcher "c"]) []))
    as Hc.
  { apply constructed_Class; [| |reflexivity]; repeat constructor. }
  destruct (surplus_positional_unbound Point
              [NameMatcher "a"; NameMatcher "b"] [NameMatcher "c"] []
              ["self"; "x"; "y"] (Point_obj 0 [("x", VInt 1); ("y", VInt 2)])
              [("a", VInt 1); ("b", VInt 2)] None Hc eq_refl eq_refl)
    as [H1 H2]; [vm_compute; lia|reflexivity|].
  split; [exact H1|]. apply H2. set_solver.
Defined.

(** ** Wildcards *)

Lemma filter_concat {A} (P : A → Prop) `{∀ x, Decision (P x)}
    (ls : list (list A)) :
  filter P (concat ls) = concat (map (filter P) ls).
Proof.
  induction ls as [|l ls IH]; simpl; [done|]. by rewrite filter_app, IH.
Qed.

Lemma length_concat_sum {A} (ls : list (list A)) :
  length (concat ls) = sum_list (map length ls).
Proof.
  induction ls as [|l ls IH]; simpl; [done|]. by rewrite length_app, IH.
Qed.

Lemma sum_list_app_plus (l k : list nat) :
  sum_list (l ++ k) = (sum_list l + sum_list k)%nat.
Proof. induction l as [|x l IH]; simpl; [done|]. rewrite IH. lia. Qed.

Lemma sum_list_le {A} (f g : A → nat) (l : list A) :
  Forall (λ x, (f x ≤ g x)%nat) l →
  (sum_list (map f l) ≤ sum_list (map g l))%nat.
Proof. induction 1; simpl; lia. Qed.

(** A [WildcardMatcher] declares the name ["_"]: there are as many
    ["_"] among the declared names as there are wildcards, or more. *)
Lemma wildcards_var_names m :
  (wildcards m ≤ length (filter (λ name, name = "_") (var_names m)))%nat.
Proof.
  induction m as [val|ms IH|m1 m2 IH1 IH2|ms IH|name| |clazz pos kw IHp IHk]
    using Matcher_induction; simpl; unfold flatten; try lia.
  - rewrite filter_concat, length_concat_sum, !map_map.
    by apply sum_list_le.
  - simpl. rewrite app_nil_r, filter_app, length_app. lia.
  - rewrite filter_concat, length_concat_sum, !map_map.
    by apply sum_list_le.
  - rewrite filter_concat, length_concat_sum, !map_app, !map_map, sum_list_app_plus.
    apply Nat.add_le_mono; by apply sum_list_le.
Qed.

Lemma NoDup_filter_eq_length (l : list string) (x : string) :
  NoDup l → (length (filter (λ name, name = x) l) ≤ 1)%nat.
Proof.
  induction 1 as [|y l Hy _ IH]; simpl; [lia|].
  rewrite filter_cons. destruct (decide (y = x)) as [->|]; [|done].
  simpl. assert (filter (λ name, name = x) l = []) as ->; [|simpl; lia].
  clear IH. induction l as [|z l IH]; [done|].
  rewrite filter_cons. destruct (decide (z = x)) as [->|]; [set_solver|].
  apply IH. set_solver.
Qed.

(** A matcher whose composites all went through their constructors holds at
    most one wildcard.  The constructor of a tuple or list matcher raises
    [PatternVarConflict] when its arguments hold two wildcards or more
    between them, that of [ParallelMatcher] when each side holds one. *)
Theorem at_most_one_wildcard :
  (∀ m, constructed m → (wildcards m ≤ 1)%nat)
  ∧ (∀ ms, (2 ≤ sum_list (map wildcards ms))%nat →
       TupleMatcher_init ms = Raise PatternVarConflict
       ∧ ListMatcher_init ms = Raise PatternVarConflict)
  ∧ (∀ m1 m2, (1 ≤ wildcards m1)%nat → (1 ≤ wildcards m2)%nat →
       ParallelMatcher_init m1 m2 = Raise PatternVarConflict)
  ∧ (∀ clazz pos kw,
       (2 ≤ sum_list (map wildcards pos)
            + sum_list (map (λ km, wildcards km.2) kw))%nat →
       ClassMatcher_init clazz pos kw = Raise PatternVarConflict).
Proof.
  assert (∀ m, NoDup (var_names m) → (wildcards m ≤ 1)%nat) as Hone.
  { intros m Hnd. etrans; [apply wildcards_var_names|].
    by apply NoDup_filter_eq_length. }
  split; [|split; [|split]].
  - intros m Hc. by apply Hone, constructed_NoDup.
  - intros ms Hms.
    assert (¬ NoDup (flatten (map var_names ms))) as Hdup.
    { intros Hnd. specialize (Hone (TupleMatcher ms) Hnd). simpl in Hone. lia. }
    split; by apply init_dup.
  - intros m1 m2 H1 H2. apply init_dup. intros Hnd.
    specialize (Hone (ParallelMatcher m1 m2) Hnd). simpl in Hone. lia.
  - intros clazz pos kw Hw. apply init_dup. intros Hnd.
    rewrite <- (ClassMatcher_var_names clazz) in Hnd.
    specialize (Hone (ClassMatcher clazz pos kw) Hnd). simpl in Hone. lia.
Qed.

Lemma at_most_one_wildcard_witness :
  TupleMatcher_init [WildcardMatcher; ListMatcher [NameMatcher "a"; WildcardMatcher]]
  = Raise PatternVarConflict.
Proof.
  destruct at_most_one_wildcard as (_ & H & _).
  apply (H [WildcardMatcher; ListMatcher [NameMatcher "a"; WildcardMatcher]]).
  vm_compute. lia.
Defined.

(** ** The signature of the constructor is read late *)

(** [genPosValues] is a generator: [inspect.getargspec] is called when
    [zip] asks for the first positional value, after the keyword loop of
    [default_unapply] has run.  A [ClassMatcher] without positional
    sub-matchers never calls it, and matches the same whatever it would
    return or raise.  With a positional sub-matcher and a class for which
    [inspect.getargspec] raises, the match raises that exception, as it
    is, when the keyword attributes are there, and
    [PatternMatchException] for the first missing keyword attribute when
    one is not. *)
Theorem argspec_read_on_demand (clazz : pyclass) (kw : list (string * Matcher))
    (v : value) :
  cls_unapply clazz = None →
  (∀ clazz', cls_name clazz' = cls_name clazz → cls_unapply clazz' = None →
     match_ (ClassMatcher clazz' [] kw) v = match_ (ClassMatcher clazz [] kw) v)
  ∧ (∀ e, cls_init_args clazz = Raise e → isinstance v clazz = true →
     ∀ m pos,
       (Forall (λ k, hasattr v k = true) (map fst kw) →
        match_ (ClassMatcher clazz (m :: pos) kw) v = Raise e)
       ∧ (∀ k, k ∈ map fst kw → hasattr v k = false →
          ∃ k', k' ∈ map fst kw ∧ hasattr v k' = false
                ∧ match_ (ClassMatcher clazz (m :: pos) kw) v
                  = Raise (PatternMatchException (NoAttribute k')))).
Proof.
  intros Hu. split.
  - intros clazz' Hname Hu'. simpl.
    unfold ClassMatcher_match, unapply, default_unapply, isinstance.
    rewrite Hu, Hu', Hname. destruct v; try done.
    destruct (negb _); [done|].
    unfold mbind at 1 2 5 6, result_bind.
    by destruct (default_kw_dict _ _ []).
  - intros e Ha Hi m pos. simpl.
    unfold ClassMatcher_match, unapply, default_unapply, genPosValues.
    rewrite Hu, Ha, Hi, kw_keys_map. simpl. split.
    + intros Hall. by rewrite default_kw_dict_present.
    + intros k Hk Hmiss.
      destruct (default_kw_dict_missing v (map fst kw) [] k Hk Hmiss)
        as (k' & Hk' & Hm' & ->).
      by exists k'.
Qed.

(** For [Annotated]: without a positional sub-matcher the match is that of
    a class of the same name with a readable [__init__]; with one, the
    [ValueError] of [inspect.getargspec] comes out of the match. *)
Lemma argspec_read_on_demand_witness :
  match_ (ClassMatcher
            {| cls_name := "Annotated"; cls_init_args := Ok ["self"; "x"];
               cls_unapply := None |}
            [] [("x", NameMatcher "px")])
    (VObject 0 ["Annotated"; "object"] [("x", VInt 1)])
  = match_ (ClassMatcher Annotated [] [("x", NameMatcher "px")])
      (VObject 0 ["Annotated"; "object"] [("x", VInt 1)])
  ∧ match_ (ClassMatcher Annotated [NameMatcher "a"] [("x", NameMatcher "px")])
      (VObject 0 ["Annotated"; "object"] [("x", VInt 1)])
    = Raise ValueError.
Proof.
  destruct (argspec_read_on_demand Annotated [("x", NameMatcher "px")]
              (VObject 0 ["Annotated"; "object"] [("x", VInt 1)]) eq_refl)
    as [Hnone Hraise].
  split.
  - exact (Hnone {| cls_name := "Annotated"; cls_init_args := Ok ["self"; "x"];
                    cls_unapply := None |} eq_refl eq_refl).
  - apply (Hraise ValueError eq_refl eq_refl (NameMatcher "a") []).
    repeat constructor.
Defined.

End PatternFacts.

(** * Properties of the scope tracker *)

Section AnalysisFacts.
Import Analysis.

(** ** The store *)

Lemma run_bind {A B} (c : M A) (k : A → M B) h :
  run (c ≫= k) h
  = match run c h with
    | (h', Ok a) => run (k a) h'
    | (h', Raise e) => (h', Raise e)
    end.
Proof. done. Qed.

Lemma run_ret {A} (a : A) h : run (mret a) h = (h, Ok a).
Proof. done. Qed.

Lemma keeps_ret h0 {A} (a : A) (Q : A → Prop) : Q a → keeps h0 (mret a) Q.
Proof. intros HQ h Hh. split; [done|]. by intros a' [= <-]. Qed.

Lemma keeps_bind h0 {A B} (c : M A) (k : A → M B) (Q : A → Prop)
    (R : B → Prop) :
  keeps h0 c Q → (∀ a, Q a → keeps h0 (k a) R) → keeps h0 (c ≫= k) R.
Proof.
  intros Hc Hk h Hh. rewrite run_bind.
  destruct (Hc h Hh) as [Hpre HQ]. destruct (run c h) as [h' [a|e]]; simpl in *.
  - by apply Hk; [apply HQ|].
  - done.
Qed.

Lemma keeps_weaken h0 {A} (c : M A) (Q R : A → Prop) :
  keeps h0 c Q → (∀ a, Q a → R a) → keeps h0 c R.
Proof. intros Hc HQR h Hh. destruct (Hc h Hh). naive_solver. Qed.

Lemma keeps_lift h0 {A} (r : result A) : keeps h0 (lift r) (λ _, True).
Proof. by intros h Hh. Qed.

Lemma keeps_contents h0 l : keeps h0 (contents l) (λ _, True).
Proof. by intros h Hh. Qed.

Lemma keeps_new_dict h0 d : keeps h0 (new_dict d) (λ l, (length h0 ≤ l)%nat).
Proof.
  intros h Hh. simpl. split.
  - by apply prefix_app_r.
  - intros a [= <-]. by apply prefix_length.
Qed.

Lemma prefix_insert_fresh (h0 h : heap) l d :
  (length h0 ≤ l)%nat → h0 `prefix_of` h → h0 `prefix_of` <[l := d]> h.
Proof.
  intros Hl [ext ->]. exists (<[(l - length h0)%nat := d]> ext).
  by rewrite insert_app_r_alt.
Qed.

Lemma keeps_dict_update h0 l other :
  (length h0 ≤ l)%nat → keeps h0 (dict_update l other) (λ _, True).
Proof. intros Hl h Hh. simpl. split; [|done]. by apply prefix_insert_fresh. Qed.

Lemma keeps_dict_del h0 l k :
  (length h0 ≤ l)%nat → keeps h0 (dict_del l k) (λ _, True).
Proof.
  intros Hl h Hh. unfold dict_del. rewrite run_bind. simpl.
  destruct (as_key k) as [k'|e]; simpl; [|done].
  destruct (default ∅ (h !! l) !! k'); simpl; [|done].
  split; [|done]. by apply prefix_insert_fresh.
Qed.

Lemma keeps_mapM h0 {A B} (f : A → M B) (l : list A) :
  (∀ x, keeps h0 (f x) (λ _, True)) → keeps h0 (mapM f l) (λ _, True).
Proof.
  intros Hf. induction l as [|x l IH]; simpl.
  - by apply keeps_ret.
  - eapply keeps_bind; [apply Hf|]. intros y _.
    eapply keeps_bind; [apply IH|]. intros ys _. by apply keeps_ret.
Qed.

Lemma keeps_dict_of h0 pairs :
  keeps h0 (dict_of pairs) (λ l, (length h0 ≤ l)%nat).
Proof.
  unfold dict_of. eapply keeps_bind; [apply keeps_lift|].
  intros items _. apply keeps_new_dict.
Qed.

Lemma keeps_merge_dicts h0 ls :
  keeps h0 (merge_dicts ls) (λ l, (length h0 ≤ l)%nat).
Proof.
  unfold merge_dicts. eapply keeps_bind.
  - apply keeps_mapM. intros l. apply keeps_contents.
  - intros ds _. apply keeps_new_dict.
Qed.

Lemma keeps_extract_arg_names h0 PY3 args :
  keeps h0 (extract_arg_names PY3 args) (λ l, (length h0 ≤ l)%nat).
Proof.
  unfold extract_arg_names. eapply keeps_bind; [apply keeps_lift|].
  intros pairs _. apply keeps_dict_of.
Qed.

Lemma fresh_below_nil h0 fields : fresh_below h0 fields [].
Proof. constructor. Qed.

Lemma fresh_below_app h0 fields es1 es2 :
  fresh_below h0 fields es1 → fresh_below h0 fields es2 →
  fresh_below h0 fields (es1 ++ es2).
Proof. intros. by apply Forall_app. Qed.

Lemma keeps_extend_scope h0 scope f rest dicts remove fields :
  f ∈ fields →
  keeps h0 (extend_scope scope (SField f :: rest) dicts remove)
    (fresh_below h0 fields).
Proof.
  intros Hf. unfold extend_scope.
  eapply keeps_bind; [apply keeps_merge_dicts|]. intros new_scope Hnew.
  eapply keeps_bind with (Q := λ _, True).
  - destruct remove as [rems|]; [|by apply keeps_ret].
    apply keeps_mapM. intros k. by apply keeps_dict_del.
  - intros _ _. apply keeps_ret. constructor; [|constructor].
    split; [done|]. by exists f, rest.
Qed.

Lemma keeps_extend_generators h0 scope iterator_vars gens i fields :
  "generators" ∈ fields → (length h0 ≤ iterator_vars)%nat →
  keeps h0 (extend_generators scope iterator_vars gens i)
    (fresh_below h0 fields).
Proof.
  intros Hf Hiv. revert i.
  induction gens as [|gen gens IH]; intros i; cbn [extend_generators].
  - apply keeps_ret, fresh_below_nil.
  - eapply keeps_bind; [apply keeps_lift|]. intros _ _.
    eapply keeps_bind; [by apply keeps_extend_scope|]. intros e1 He1.
    eapply keeps_bind; [apply keeps_lift|]. intros _ _.
    eapply keeps_bind; [by apply keeps_extend_scope|]. intros e2 He2.
    eapply keeps_bind; [apply keeps_lift|]. intros target _.
    eapply keeps_bind; [apply keeps_lift|]. intros names _.
    eapply keeps_bind; [apply keeps_dict_of|]. intros d _.
    eapply keeps_bind; [by apply keeps_dict_update|]. intros _ _.
    eapply keeps_bind; [apply keeps_lift|]. intros _ _.
    eapply keeps_bind; [by apply keeps_extend_scope|]. intros e3 He3.
    eapply keeps_bind; [apply IH|]. intros rest Hrest.
    apply keeps_ret. by repeat apply fresh_below_app.
Qed.

Lemma isinstance_true t cls :
  isinstance t cls = true → ∃ fields, t = AST cls fields.
Proof.
  destruct t as [c fields| | | |]; simpl; try done.
  intros ->%bool_decide_eq_true. by exists fields.
Qed.

Ltac keeps_step :=
  first
    [ apply keeps_ret
    | eapply keeps_bind;
      [ first [ apply keeps_lift | apply keeps_dict_of
              | apply keeps_extract_arg_names | apply keeps_new_dict
              | apply keeps_merge_dicts
              | apply keeps_extend_scope; set_solver
              | apply keeps_extend_generators; [set_solver | done]
              | apply keeps_dict_update; done ]
      | intros ? ? ] ].

Lemma keeps_on_Lambda h0 PY3 tree scope fields :
  "body" ∈ fields →
  keeps h0 (on_Lambda PY3 tree scope) (fresh_below h0 fields).
Proof.
  intros Hf. unfold on_Lambda. do 3 keeps_step. by apply keeps_extend_scope.
Qed.

Lemma keeps_on_comprehension h0 tree scope fields :
  "generators" ∈ fields →
  (if isinstance tree "DictComp" then "key" ∈ fields ∧ "value" ∈ fields
   else "elt" ∈ fields) →
  keeps h0 (on_comprehension tree scope) (fresh_below h0 fields).
Proof.
  intros Hg Hf. unfold on_comprehension. do 3 keeps_step.
  eapply keeps_bind; [by apply keeps_extend_generators|]. intros es Hes.
  eapply keeps_bind with (Q := fresh_below h0 fields).
  - destruct (isinstance tree "DictComp").
    + destruct Hf as [Hk Hv]. keeps_step.
      eapply keeps_bind; [by apply keeps_extend_scope|]. intros ek Hek.
      keeps_step.
      eapply keeps_bind; [by apply keeps_extend_scope|]. intros ev Hev.
      apply keeps_ret. by apply fresh_below_app.
    + keeps_step. by apply keeps_extend_scope.
  - intros es' Hes'. apply keeps_ret. by apply fresh_below_app.
Qed.

Lemma keeps_on_FunctionDef h0 PY3 tree scope fields :
  "args" ∈ fields → "body" ∈ fields →
  keeps h0 (on_FunctionDef PY3 tree scope) (fresh_below h0 fields).
Proof.
  intros Ha Hb. unfold on_FunctionDef. do 3 keeps_step.
  eapply keeps_bind; [by apply keeps_extend_scope|]. intros ea Hea.
  do 8 keeps_step.
  eapply keeps_bind; [by apply keeps_extend_scope|]. intros eb Heb.
  apply keeps_ret. by apply fresh_below_app.
Qed.

Lemma keeps_on_ClassDef h0 tree scope fields :
  "bases" ∈ fields → "body" ∈ fields →
  keeps h0 (on_ClassDef tree scope) (fresh_below h0 fields).
Proof.
  intros Ha Hb. unfold on_ClassDef. do 2 keeps_step.
  eapply keeps_bind; [by apply keeps_extend_scope|]. intros ea Hea.
  do 5 keeps_step.
  eapply keeps_bind; [by apply keeps_extend_scope|]. intros eb Heb.
  apply keeps_ret. by apply fresh_below_app.
Qed.

Lemma keeps_on_ExceptHandler h0 PY3 tree scope fields :
  "body" ∈ fields →
  keeps h0 (on_ExceptHandler PY3 tree scope) (fresh_below h0 fields).
Proof.
  intros Hb. unfold on_ExceptHandler. destruct PY3.
  - do 4 keeps_step. by apply keeps_extend_scope.
  - do 5 keeps_step. by apply keeps_extend_scope.
Qed.

Lemma keeps_on_For h0 tree scope fields :
  "body" ∈ fields → keeps h0 (on_For tree scope) (fresh_below h0 fields).
Proof.
  intros Hb. unfold on_For. do 4 keeps_step. by apply keeps_extend_scope.
Qed.

Lemma keeps_on_With h0 tree scope fields :
  "body" ∈ fields → keeps h0 (on_With tree scope) (fresh_below h0 fields).
Proof.
  intros Hb. unfold on_With. do 4 keeps_step. by apply keeps_extend_scope.
Qed.

Ltac class_case :=
  match goal with
  | |- keeps _ (if ?b then _ else _) _ =>
      let E := fresh "E" in
      destruct b eqn:E; [|apply keeps_ret, fresh_below_nil]
  end.

Ltac class_known :=
  repeat match goal with
    | H : _ || _ = true |- _ => apply orb_true_iff in H as [H|H]
    end;
  match goal with
  | H : isinstance _ _ = true |- _ =>
      apply isinstance_true in H as [? ->]
  end.

Lemma keeps_extensions h0 PY3 tree scope :
  keeps h0 (extensions PY3 tree scope)
    (fresh_below h0 (extended_fields tree)).
Proof.
  unfold extensions.
  eapply keeps_bind with (Q := fresh_below h0 (extended_fields tree)).
  { class_case. class_known. apply keeps_on_Lambda. set_solver. }
  intros e1 He1.
  eapply keeps_bind with (Q := fresh_below h0 (extended_fields tree)).
  { class_case. class_known;
      (apply keeps_on_comprehension; [set_solver|simpl; set_solver]). }
  intros e2 He2.
  eapply keeps_bind with (Q := fresh_below h0 (extended_fields tree)).
  { class_case. class_known. apply keeps_on_FunctionDef; set_solver. }
  intros e3 He3.
  eapply keeps_bind with (Q := fresh_below h0 (extended_fields tree)).
  { class_case. class_known. apply keeps_on_ClassDef; set_solver. }
  intros e4 He4.
  eapply keeps_bind with (Q := fresh_below h0 (extended_fields tree)).
  { class_case. class_known. apply keeps_on_ExceptHandler. set_solver. }
  intros e5 He5.
  eapply keeps_bind with (Q := fresh_below h0 (extended_fields tree)).
  { class_case. class_known. apply keeps_on_For. set_solver. }
  intros e6 He6.
  eapply keeps_bind with (Q := fresh_below h0 (extended_fields tree)).
  { class_case. class_known. apply keeps_on_With. set_solver. }
  intros e7 He7.
  apply keeps_ret. by repeat apply fresh_below_app.
Qed.

(** ** The scope of the node and of the children without an entry *)

Lemma resolve_nil {C} (kw : option C) p : resolve [] kw p = kw.
Proof. induction p as [|s p IH]; simpl; [done|apply IH]. Qed.

Lemma descend_none {C} s (es : list (path * C)) :
  Forall (λ e : path * C, head e.1 ≠ Some s) es → descend s es = [].
Proof.
  induction 1 as [|[p l] es He _ IH]; [done|].
  unfold descend in *. cbn [omap list_omap]. rewrite IH.
  destruct p as [|s' p]; simpl in *; [done|].
  destruct (decide (s' = s)); [congruence|done].
Qed.

Lemma resolve_other {C} s p (es : list (path * C)) kw :
  Forall (λ e : path * C, head e.1 ≠ Some s) es →
  resolve es kw (s :: p) = kw.
Proof. intros H. simpl. rewrite descend_none by done. apply resolve_nil. Qed.

(** ** The whole walk *)

Lemma keeps_Scoped_enter h0 t kw :
  keeps h0 (Scoped_enter t kw) (λ _, True).
Proof.
  unfold Scoped_enter. eapply keeps_bind; [apply keeps_lift|]. intros pairs _.
  eapply keeps_bind; [apply keeps_dict_of|]. intros d _. by apply keeps_ret.
Qed.

Lemma keeps_func h0 PY3 {A} (W : tree → nat → M (visit A nat)) t scope :
  (∀ t s, keeps h0 (W t s) (λ _, True)) →
  keeps h0 (func PY3 W t scope) (λ _, True).
Proof.
  intros HW. unfold func.
  eapply keeps_bind; [apply keeps_extensions|]. intros es _.
  eapply keeps_bind; [apply HW|]. intros v _. by apply keeps_ret.
Qed.

Lemma keeps_observe h0 t scope : keeps h0 (observe t scope) (λ _, True).
Proof.
  unfold observe. eapply keeps_bind; [apply keeps_contents|].
  intros d _. by apply keeps_ret.
Qed.

(** The walk of [Scoped] leaves the dictionaries that existed before it
    as they are, when the wrapped visitor does. *)
Lemma keeps_walk h0 PY3 {A} (W : tree → nat → M (visit A nat)) t :
  (∀ t s, keeps h0 (W t s) (λ _, True)) →
  ∀ sub_kw kw,
    keeps h0
      (recurse_collect Scoped_enter
         (λ t kw, match kw with
                  | Some scope => func PY3 W t scope
                  | None => lift (Raise TypeError)
                  end) t sub_kw kw)
      (λ _, True).
Proof.
  intros HW.
  induction t as [cls fields IH|elts IH|s|n|] using tree_induction;
    intros sub_kw kw; cbn [recurse_collect].
  - eapply keeps_bind; [apply keeps_Scoped_enter|]. intros kw' _.
    eapply keeps_bind with (Q := λ _, True).
    { destruct kw'; [by apply keeps_func|apply keeps_lift]. }
    intros v _. destruct (stopped v); [by apply keeps_ret|].
    eapply keeps_bind with (Q := λ _, True); [|intros; by apply keeps_ret].
    generalize (sub_kw ++ ctx_for v). intros subs.
    induction IH as [|fv fields Hfv _ IHf]; [by apply keeps_ret|].
    eapply keeps_bind; [apply Hfv|]. intros a _.
    eapply keeps_bind; [apply IHf|]. intros b _. by apply keeps_ret.
  - eapply keeps_bind; [apply keeps_Scoped_enter|]. intros kw' _.
    generalize 0%nat. 
    induction IH as [|t' elts Ht' _ IHe]; intros i; [by apply keeps_ret|].
    eapply keeps_bind; [apply Ht'|]. intros a _.
    eapply keeps_bind; [apply IHe|]. intros b _. by apply keeps_ret.
  - eapply keeps_bind; [apply keeps_Scoped_enter|]. intros. by apply keeps_ret.
  - eapply keeps_bind; [apply keeps_Scoped_enter|]. intros. by apply keeps_ret.
  - eapply keeps_bind; [apply keeps_Scoped_enter|]. intros. by apply keeps_ret.
Qed.

(** C3.  A call of [func] on any node, with the scope [scope] whose mapping
    is [d], leaves every dictionary that existed before the call as it
    was, and the mapping of [scope] with them, whether it returns or
    raises.  What it sets for a child is a dictionary made in the call (so
    never [scope] itself), and it is set below one of the fields that the
    class of the node names.  The node itself is visited with [scope] and
    sees the names of [d]; a child below another field is handed [scope]
    by the walker, the same object with the same mapping: what was added
    for one child is not there for its siblings.  The same holds of the
    walk of the whole subtree: it leaves the dictionaries that existed
    before it as they were.  In [for i in xs: A] with [else: B], walked
    from the module, the body sees [i] and the [else] branch does not. *)
Theorem C3_scope_never_mutated (PY3 : bool) (t : tree) (scope : nat)
    (h : heap) (d : gmap (option string) tree) :
  h !! scope = Some d →
  h `prefix_of` (run (extensions PY3 t scope) h).1
  ∧ (run (extensions PY3 t scope) h).1 !! scope = Some d
  ∧ (∀ es, (run (extensions PY3 t scope) h).2 = Ok es →
      Forall (λ e : path * nat,
                (length h ≤ e.2)%nat ∧ e.2 ≠ scope
                ∧ ∃ f rest, e.1 = SField f :: rest ∧ f ∈ extended_fields t) es
      ∧ run (func PY3 observe t scope) h
        = ((run (extensions PY3 t scope) h).1,
           Ok (Visit [(t, dom d)] false es))
      ∧ resolve es (Some scope) [] = Some scope
      ∧ ∀ s p, (∀ f, s = SField f → f ∉ extended_fields t) →
          resolve es (Some scope) (s :: p) = Some scope)
  ∧ h `prefix_of` (run (Scoped_collect PY3 observe t) h).1
  ∧ (run (Scoped_collect PY3 observe t) h).1 !! scope = Some d
  ∧ scopes_at (Expr (Name "A" Load))
      (scopes_seen PY3
         (Module [For (Name "i" Store) (Name "xs" Load)
                    [Expr (Name "A" Load)] [Expr (Name "B" Load)]]))
    = Ok [{[Some "i"]}]
  ∧ scopes_at (Expr (Name "B" Load))
      (scopes_seen PY3
         (Module [For (Name "i" Store) (Name "xs" Load)
                    [Expr (Name "A" Load)] [Expr (Name "B" Load)]]))
    = Ok [∅].
Proof.
  intros Hd.
  destruct (keeps_extensions h PY3 t scope h) as [Hpre Hes]; [done|].
  assert ((run (extensions PY3 t scope) h).1 !! scope = Some d) as Hd'
    by (by eapply prefix_lookup_Some).
  assert (h `prefix_of` (run (Scoped_collect PY3 observe t) h).1) as Hwalk.
  { unfold Scoped_collect, collect.
    by apply (keeps_walk h PY3 observe t (keeps_observe h) [] None h). }
  split; [done|]. split; [done|].
  split; [|split; [done|split; [by eapply prefix_lookup_Some; [exact Hd|]|]]].
  - intros es Hr. specialize (Hes es Hr).
    split; [|split; [|split]].
    + eapply Forall_impl; [exact Hes|]. intros [p l] [Hl Hp]. simpl in *.
      split; [done|]. split; [|done].
      apply lookup_lt_Some in Hd. lia.
    + unfold func. rewrite run_bind.
      destruct (run (extensions PY3 t scope) h) as [h1 r]. simpl in *.
      subst r. rewrite Hd'. simpl. by rewrite app_nil_r.
    + done.
    + intros s p Hs. apply resolve_other.
      eapply Forall_impl; [exact Hes|]. intros [q l] [_ (f & rest & -> & Hf)].
      simpl. intros [= <-]. by eapply Hs.
  - destruct PY3; split; vm_compute; reflexivity.
Qed.

Lemma C3_scope_never_mutated_witness :
  (run (extensions true
          (For (Name "i" Store) (Name "xs" Load) [Pass] [Pass]) 0)
     [{[Some "xs" := Name "xs" Store]}]).1 !! 0%nat
  = Some {[Some "xs" := Name "xs" Store]}
  ∧ (∀ es,
      (run (extensions true
              (For (Name "i" Store) (Name "xs" Load) [Pass] [Pass]) 0)
         [{[Some "xs" := Name "xs" Store]}]).2 = Ok es →
      resolve es (Some 0%nat) [SField "orelse"] = Some 0%nat)
  ∧ (run (Scoped_collect true observe
            (For (Name "i" Store) (Name "xs" Load) [Pass] [Pass]))
       [{[Some "xs" := Name "xs" Store]}]).1 !! 0%nat
    = Some {[Some "xs" := Name "xs" Store]}.
Proof.
  destruct (C3_scope_never_mutated true
              (For (Name "i" Store) (Name "xs" Load) [Pass] [Pass]) 0
              [{[Some "xs" := Name "xs" Store]}]
              {[Some "xs" := Name "xs" Store]} eq_refl)
    as (_ & Hd & Hes & _ & Hw & _).
  split; [exact Hd|]. split; [|exact Hw].
  intros es Hr. destruct (Hes es Hr) as (_ & _ & _ & Hsib).
  apply Hsib. intros f [= <-]. vm_compute. set_solver.
Defined.

(** ** What the calls compute *)

Lemma run_mapM_contents ls h :
  run (mapM contents ls) h = (h, Ok (map (λ l, default ∅ (h !! l)) ls)).
Proof.
  induction ls as [|l ls IH]; [done|].
  cbn [mapM]. rewrite run_bind. cbn [contents run].
  rewrite run_bind, IH. done.
Qed.

Lemma run_merge_dicts ls h :
  run (merge_dicts ls) h = (h ++ [merged h ls], Ok (length h)).
Proof. unfold merge_dicts. by rewrite run_bind, run_mapM_contents. Qed.

Lemma run_extend_scope_None scope p dicts h :
  run (extend_scope scope p dicts None) h
  = (h ++ [merged h (scope :: dicts)], Ok [(p, length h)]).
Proof. unfold extend_scope. by rewrite run_bind, run_merge_dicts. Qed.

Lemma run_extend_scope_remove scope p dicts name h :
  run (extend_scope scope p dicts (Some [TStr name])) h
  = match merged h (scope :: dicts) !! Some name with
    | Some _ =>
        (h ++ [delete (Some name) (merged h (scope :: dicts))],
         Ok [(p, length h)])
    | None => (h ++ [merged h (scope :: dicts)], Raise (KeyError (Some name)))
    end.
Proof.
  unfold extend_scope. rewrite run_bind, run_merge_dicts.
  rewrite run_bind. cbn [mapM]. rewrite run_bind.
  unfold dict_del. rewrite run_bind. cbn [as_key lift run].
  rewrite run_bind. cbn [contents run].
  rewrite lookup_app_r, Nat.sub_diag by done. cbn [lookup list_lookup default].
  unfold id.
  destruct (merged h (scope :: dicts) !! Some name); cbn [run lift]; [|done].
  rewrite insert_app_r_alt, Nat.sub_diag by done. done.
Qed.

Lemma run_dict_of pairs items h :
  items_of pairs = Ok items →
  run (dict_of pairs) h = (h ++ [dict_items items], Ok (length h)).
Proof. intros H. unfold dict_of. rewrite run_bind. cbn. by rewrite H. Qed.

Lemma run_lift_Ok {A B} (r : result A) (a : A) (k : A → M B) h :
  r = Ok a → run (lift r ≫= k) h = run (k a) h.
Proof. intros ->. done. Qed.

Lemma dom_foldl_insert (items : list (option string * tree))
    (d : gmap (option string) tree) :
  dom (foldl (λ d kv, <[kv.1 := kv.2]> d) d items)
  = dom d ∪ list_to_set (map fst items).
Proof.
  revert d. induction items as [|[k v] items IH]; intros d; simpl.
  - set_solver.
  - rewrite IH, dom_insert_L. set_solver.
Qed.

Lemma dom_dict_items items : dom (dict_items items) = keys_of items.
Proof. unfold dict_items, keys_of. rewrite dom_foldl_insert. set_solver. Qed.

Lemma dom_foldl_union (ds : list (gmap (option string) tree))
    (a : gmap (option string) tree) :
  dom (foldl (λ acc d, d ∪ acc) a ds) = dom a ∪ ⋃ (map dom ds).
Proof.
  revert a. induction ds as [|d ds IH]; intros a; simpl.
  - set_solver.
  - rewrite IH, dom_union_L. set_solver.
Qed.

Lemma dom_merged h ls : dom (merged h ls) = ⋃ (map (names h) ls).
Proof.
  unfold merged. rewrite dom_foldl_union, map_map, dom_empty_L.
  set_solver.
Qed.

Lemma names_app_l h ext l :
  (l < length h)%nat → names (h ++ ext) l = names h l.
Proof. intros Hl. unfold names. by rewrite lookup_app_l. Qed.

Lemma names_app_new h d : names (h ++ [d]) (length h) = dom d.
Proof.
  unfold names. rewrite lookup_app_r, Nat.sub_diag by done. done.
Qed.

Lemma names_insert_ne (h : heap) l l' d :
  l ≠ l' → names (<[l' := d]> h) l = names h l.
Proof. intros Hl. unfold names. by rewrite list_lookup_insert_ne. Qed.

Lemma names_insert_eq (h : heap) l d :
  (l < length h)%nat → names (<[l := d]> h) l = dom d.
Proof. intros Hl. unfold names. by rewrite list_lookup_insert_eq. Qed.

(** ** The class of the node picks the block *)

Lemma isinstance_AST c fields c' :
  isinstance (AST c fields) c' = bool_decide (c = c').
Proof. done. Qed.

Ltac decide_classes :=
  rewrite ?isinstance_AST;
  repeat match goal with
    | |- context [bool_decide (?a = ?b)] =>
        first [ rewrite (bool_decide_true (a = b)) by done
              | rewrite (bool_decide_false (a = b)) by done ]
    end;
  cbn [orb].

Lemma run_ret_bind {A B} (a : A) (k : A → M B) h :
  run (mret a ≫= k) h = run (k a) h.
Proof. done. Qed.

Lemma run_bind_ret {A} (c : M A) h : run (c ≫= mret) h = run c h.
Proof. rewrite run_bind. by destruct (run c h) as [h' [a|e]]. Qed.

Lemma run_bind_ret_nil {A} (c : M (list A)) h :
  run (c ≫= λ e, mret (e ++ [])) h = run c h.
Proof.
  rewrite run_bind. destruct (run c h) as [h' [a|e]]; [|done].
  by rewrite app_nil_r.
Qed.

Ltac pick_block :=
  unfold extensions; decide_classes; rewrite ?run_ret_bind;
  cbn [app]; rewrite ?app_nil_r.

Lemma extensions_With PY3 items body scope h :
  run (extensions PY3 (With items body) scope) h
  = run (on_With (With items body) scope) h.
Proof. unfold With. pick_block. apply run_bind_ret. Qed.

Ltac block_only :=
  pick_block; rewrite run_bind;
  match goal with
  | |- context [run ?c ?h] => destruct (run c h) as [? [?|?]]
  end; [cbn; by rewrite ?app_nil_r | done].

Lemma extensions_FunctionDef PY3 name args body decorator_list returns scope h :
  run (extensions PY3 (FunctionDef name args body decorator_list returns) scope) h
  = run (on_FunctionDef PY3
           (FunctionDef name args body decorator_list returns) scope) h.
Proof. unfold FunctionDef. block_only. Qed.

Lemma extensions_ClassDef PY3 name bases keywords body decorator_list scope h :
  run (extensions PY3 (ClassDef name bases keywords body decorator_list) scope) h
  = run (on_ClassDef (ClassDef name bases keywords body decorator_list) scope) h.
Proof. unfold ClassDef. block_only. Qed.

Lemma extensions_For PY3 target iter body orelse scope h :
  run (extensions PY3 (For target iter body orelse) scope) h
  = run (on_For (For target iter body orelse) scope) h.
Proof. unfold For. block_only. Qed.

Lemma extensions_ListComp PY3 elt generators scope h :
  run (extensions PY3 (ListComp elt generators) scope) h
  = run (on_comprehension (ListComp elt generators) scope) h.
Proof. unfold ListComp. block_only. Qed.

Lemma extensions_SetComp PY3 elt generators scope h :
  run (extensions PY3 (SetComp elt generators) scope) h
  = run (on_comprehension (SetComp elt generators) scope) h.
Proof. unfold SetComp. block_only. Qed.

Lemma extensions_GeneratorExp PY3 elt generators scope h :
  run (extensions PY3 (GeneratorExp elt generators) scope) h
  = run (on_comprehension (GeneratorExp elt generators) scope) h.
Proof. unfold GeneratorExp. block_only. Qed.

Lemma extensions_DictComp PY3 key value generators scope h :
  run (extensions PY3 (DictComp key value generators) scope) h
  = run (on_comprehension (DictComp key value generators) scope) h.
Proof. unfold DictComp. block_only. Qed.

(** ** with and for *)

Lemma With_body_scope PY3 items body scope h pairs its :
  (scope < length h)%nat →
  find_names (TList items) = Ok pairs → items_of pairs = Ok its →
  ∃ h' l, run (extensions PY3 (With items body) scope) h
          = (h', Ok [([SField "body"], l)])
          ∧ names h' l = names h scope ∪ keys_of its.
Proof.
  intros Hs Hfind Hits. rewrite extensions_With. unfold on_With.
  rewrite (run_lift_Ok _ (TList body)) by done.
  rewrite (run_lift_Ok _ (TList items)) by done.
  rewrite (run_lift_Ok _ pairs) by done.
  rewrite run_bind, (run_dict_of _ its) by done.
  rewrite run_extend_scope_None. eexists _, _. split; [done|].
  rewrite names_app_new, dom_merged. cbn [map union_list].
  rewrite names_app_l, names_app_new, dom_dict_items by done. set_solver.
Qed.

Lemma For_body_scope PY3 target iter body orelse scope h pairs its :
  (scope < length h)%nat →
  find_names target = Ok pairs → items_of pairs = Ok its →
  ∃ h' l, run (extensions PY3 (For target iter body orelse) scope) h
          = (h', Ok [([SField "body"], l)])
          ∧ names h' l = names h scope ∪ keys_of its.
Proof.
  intros Hs Hfind Hits. rewrite extensions_For. unfold on_For.
  rewrite (run_lift_Ok _ (TList body)) by done.
  rewrite (run_lift_Ok _ target) by done.
  rewrite (run_lift_Ok _ pairs) by done.
  rewrite run_bind, (run_dict_of _ its) by done.
  rewrite run_extend_scope_None. eexists _, _. split; [done|].
  rewrite names_app_new, dom_merged. cbn [map union_list].
  rewrite names_app_l, names_app_new, dom_dict_items by done. set_solver.
Qed.

(** C8, evaluated.  The scope of the body of a [with] block is the scope
    of the block with the names that [find_names] collects from the whole
    list [tree.items] (see [With_body_scope]): for
    [with open(f) as g: pass] walked from its module, the names [open] and
    [f] of the context-manager expression are collected with the target
    [g], and the body is visited with all three in scope.  The [for] block
    scans its target alone: [for g in open(f): pass] gives its body
    [g] and no more. *)
Theorem C8_with_body_scope :
  find_names
    (TList [withitem (Call (Name "open" Load) [Name "f" Load] [])
              (Name "g" Store)])
  = Ok [(TStr "open", Name "open" Load); (TStr "f", Name "f" Load);
        (TStr "g", Name "g" Store)]
  ∧ scopes_at Pass
      (scopes_seen true
         (Module [With [withitem (Call (Name "open" Load) [Name "f" Load] [])
                          (Name "g" Store)]
                    [Pass]]))
    = Ok [{[Some "open"; Some "f"; Some "g"]}]
  ∧ scopes_at Pass
      (scopes_seen true
         (Module [For (Name "g" Store)
                    (Call (Name "open" Load) [Name "f" Load] [])
                    [Pass] []]))
    = Ok [{[Some "g"]}].
Proof. split; [|split]; vm_compute; reflexivity. Qed.

(** ** Class definitions *)

Ltac names_at :=
  repeat first
    [ rewrite names_app_new
    | rewrite names_app_l by (rewrite ?length_app; simpl; lia) ].

Lemma names_live h l k : k ∈ names h l → (l < length h)%nat.
Proof.
  unfold names. destruct (h !! l) as [d|] eqn:E.
  - intros _. by eapply lookup_lt_Some.
  - simpl. rewrite dom_empty_L. set_solver.
Qed.

Lemma resolve_field (f : string) (l : nat) es kw p :
  descend (SField f) es = [([], l)] →
  resolve es kw (SField f :: p) = Some l.
Proof.
  intros H. simpl. rewrite H. simpl.
  destruct p as [|s p]; [done|]. simpl. apply resolve_nil.
Qed.

Lemma merged_lookup_is_Some h ls k :
  k ∈ ⋃ (map (names h) ls) → is_Some (merged h ls !! k).
Proof. rewrite <- dom_merged. apply elem_of_dom. Qed.

Lemma ClassDef_scopes PY3 name bases keywords body decorator_list scope h
    pairs hoisted :
  Some name ∈ names h scope →
  find_assignments (TList body) = Ok pairs → items_of pairs = Ok hoisted →
  ∃ h' es lb ly,
    run (extensions PY3 (ClassDef name bases keywords body decorator_list)
           scope) h = (h', Ok es)
    ∧ (∀ p, resolve es (Some scope) (SField "bases" :: p) = Some lb)
    ∧ (∀ p, resolve es (Some scope) (SField "body" :: p) = Some ly)
    ∧ names h' lb = names h scope ∖ {[Some name]}
    ∧ names h' ly = (names h scope ∪ keys_of hoisted) ∖ {[Some name]}
    ∧ names h' scope = names h scope.
Proof.
  intros Hname Hfind Hits. pose proof (names_live _ _ _ Hname) as Hs.
  rewrite extensions_ClassDef. unfold on_ClassDef.
  rewrite (run_lift_Ok _ (TList bases)) by done.
  rewrite (run_lift_Ok _ (TStr name)) by done.
  rewrite run_bind, run_extend_scope_remove.
  destruct (merged_lookup_is_Some h [scope] (Some name)) as [v1 ->];
    [simpl; set_solver|].
  rewrite (run_lift_Ok _ (TList body)) by done.
  rewrite (run_lift_Ok _ (TList body)) by done.
  rewrite (run_lift_Ok _ pairs) by done.
  rewrite run_bind, (run_dict_of _ hoisted) by done.
  rewrite (run_lift_Ok _ (TStr name)) by done.
  rewrite run_bind, run_extend_scope_remove.
  match goal with
  | |- context [merged ?h2 ?ls !! Some name] =>
      destruct (merged_lookup_is_Some h2 ls (Some name)) as [v2 ->]
  end.
  { simpl. rewrite names_app_l by (rewrite ?length_app; simpl; lia).
    rewrite names_app_l by done. set_solver. }
  cbn [run mret M_ret]. eexists _, _, _, _. split; [done|].
  split; [by intros p; apply resolve_field|].
  split; [by intros p; apply resolve_field|].
  split; [|split].
  - names_at. rewrite dom_delete_L, dom_merged. simpl. set_solver.
  - names_at. rewrite dom_delete_L, dom_merged. cbn [map union_list].
    names_at. rewrite dom_dict_items. set_solver.
  - by names_at.
Qed.

Lemma ClassDef_unbound PY3 name bases keywords body decorator_list scope h :
  Some name ∉ names h scope →
  (run (extensions PY3 (ClassDef name bases keywords body decorator_list)
          scope) h).2 = Raise (KeyError (Some name)).
Proof.
  intros Hname. rewrite extensions_ClassDef. unfold on_ClassDef.
  rewrite (run_lift_Ok _ (TList bases)) by done.
  rewrite (run_lift_Ok _ (TStr name)) by done.
  rewrite run_bind, run_extend_scope_remove.
  destruct (merged h [scope] !! Some name) as [v|] eqn:E; [|done].
  exfalso. apply Hname. apply (elem_of_dom_2 _ _ _) in E.
  rewrite dom_merged in E. simpl in E. set_solver.
Qed.

(** C5, where the code departs from the claim.  In [class C(Base): C = 1]
    the binding [C] is hoisted from the class body, and the body is
    visited with a scope that does not have it: the removal of the name of
    the class takes it out. *)
Lemma C5_own_name_in_body_counterexample :
  find_assignments (TList [Assign [Name "C" Store] (Num 1)])
  = Ok [(TStr "C", Name "C" Store)]
  ∧ scopes_at (Assign [Name "C" Store] (Num 1))
      (scopes_seen true
         (Module [ClassDef "C" [Name "Base" Load] []
                    [Assign [Name "C" Store] (Num 1)] []]))
    = Ok [∅].
Proof. split; vm_compute; reflexivity. Qed.

(** A class whose name the scope does not have stops the walk: [del]
    raises [KeyError].  A class nested in a class of its own name is
    one. *)
Lemma ClassDef_nested_same_name :
  scopes_seen true
    (Module [ClassDef "C" [] [] [ClassDef "C" [] [] [Pass] []] []])
  = Raise (KeyError (Some "C")).
Proof. vm_compute. reflexivity. Qed.

(** C5, as the code has it.  For a class definition whose name the scope
    of the node has (it has when the walk started at an enclosing block,
    which hoists the name): the base-class list and what is below it are
    visited with the scope of the node without the name of the class; the
    body with the scope of the node and the bindings hoisted from the
    body, without the name of the class, so with every hoisted binding of
    another name; the scope of the node itself keeps the name.  For
    [class C(Base): z = 1] walked from its module, the scope at [Base] is
    empty and the scope at [z = 1] is [z]. *)
Theorem C5_class_scopes (PY3 : bool) (name : string)
    (bases keywords body decorator_list : list tree) (scope : nat) (h : heap)
    (pairs : list (tree * tree)) (hoisted : list (option string * tree)) :
  Some name ∈ names h scope →
  find_assignments (TList body) = Ok pairs →
  items_of pairs = Ok hoisted →
  (∃ h' es lb ly,
     run (extensions PY3 (ClassDef name bases keywords body decorator_list)
            scope) h = (h', Ok es)
     ∧ (∀ p, resolve es (Some scope) (SField "bases" :: p) = Some lb)
     ∧ (∀ p, resolve es (Some scope) (SField "body" :: p) = Some ly)
     ∧ names h' lb = names h scope ∖ {[Some name]}
     ∧ names h' ly = (names h scope ∪ keys_of hoisted) ∖ {[Some name]}
     ∧ (Some name ∉ names h' lb)
     ∧ (Some name ∉ names h' ly)
     ∧ (∀ k, k ∈ keys_of hoisted → k ≠ Some name → k ∈ names h' ly)
     ∧ Some name ∈ names h' scope)
  ∧ scopes_at (Name "Base" Load)
      (scopes_seen true
         (Module [ClassDef "C" [Name "Base" Load] []
                    [Assign [Name "z" Store] (Num 1)] []]))
    = Ok [∅]
  ∧ scopes_at (Assign [Name "z" Store] (Num 1))
      (scopes_seen true
         (Module [ClassDef "C" [Name "Base" Load] []
                    [Assign [Name "z" Store] (Num 1)] []]))
    = Ok [{[Some "z"]}].
Proof.
  intros Hname Hfind Hits. split; [|split; vm_compute; reflexivity].
  destruct (ClassDef_scopes PY3 name bases keywords body decorator_list
              scope h pairs hoisted Hname Hfind Hits)
    as (h' & es & lb & ly & Hrun & Hb & Hy & Hnb & Hny & Hsc).
  exists h', es, lb, ly. rewrite Hnb, Hny, Hsc. set_solver.
Qed.

Lemma C5_class_scopes_witness :
  ∃ h' es lb ly,
    run (extensions true
           (ClassDef "C" [Name "Base" Load] []
              [Assign [Name "z" Store] (Num 1)] []) 0)
      [{[Some "C" := Pass]}] = (h', Ok es)
    ∧ resolve es (Some 0%nat) [SField "bases"; SIndex 0] = Some lb
    ∧ resolve es (Some 0%nat) [SField "body"; SIndex 0] = Some ly
    ∧ (Some "C" ∉ names h' lb)
    ∧ (Some "C" ∉ names h' ly)
    ∧ Some "z" ∈ names h' ly.
Proof.
  destruct (C5_class_scopes true "C" [Name "Base" Load] []
              [Assign [Name "z" Store] (Num 1)] [] 0
              [{[Some "C" := Pass]}]
              [(TStr "z", Name "z" Store)] [(Some "z", Name "z" Store)])
    as [(h' & es & lb & ly & Hrun & Hb & Hy & _ & _ & Hnb & Hny & Hin & _) _].
  - vm_compute. set_solver.
  - reflexivity.
  - reflexivity.
  - exists h', es, lb, ly. repeat split; try done.
    apply Hin; [vm_compute; set_solver|done].
Defined.

(** ** Function definitions *)

Lemma mapM_arg_names (params : list string) :
  mapM (λ arg : tree, a ← attr arg "arg"; mret (a, Name_Param a))
    (map arg params)
  = Ok (map (λ p, (TStr p, Name_Param (TStr p))) params).
Proof.
  induction params as [|p params IH]; [done|].
  cbn [map mapM]. rewrite IH. done.
Qed.

Lemma items_of_named (named : list (string * tree)) :
  items_of (map (λ nv, (TStr nv.1, nv.2)) named)
  = Ok (map (λ nv, (Some nv.1, nv.2)) named).
Proof.
  unfold items_of. induction named as [|[n v] named IH]; [done|].
  cbn [map mapM]. rewrite IH. done.
Qed.

Lemma rbind_Ok {A B} (r : result A) (a : A) (k : A → result B) :
  r = Ok a → r ≫= k = k a.
Proof. by intros ->. Qed.

Lemma run_extract_arg_names params vararg kwonlyargs kw_defaults kwarg
    defaults h :
  run (extract_arg_names true
         (arguments (map arg params) (opt_arg vararg) kwonlyargs kw_defaults
            (opt_arg kwarg) defaults)) h
  = (h ++ [dict_items
             (map (λ nv, (Some nv.1, nv.2))
                (param_bindings params vararg kwarg))],
     Ok (length h)).
Proof.
  unfold extract_arg_names.
  rewrite (run_lift_Ok _
             (map (λ nv, (TStr nv.1, nv.2))
                (param_bindings params vararg kwarg))).
  - apply run_dict_of, items_of_named.
  - destruct vararg as [v|], kwarg as [k|];
      do 6 (erewrite rbind_Ok by reflexivity; cbn beta);
      rewrite mapM_arg_names; cbn; unfold param_bindings;
      by rewrite ?map_app, ?map_map.
Qed.

Lemma keys_of_named (named : list (string * tree)) :
  keys_of (map (λ nv, (Some nv.1, nv.2)) named)
  = list_to_set (map (λ nv, Some nv.1) named).
Proof. unfold keys_of. by rewrite map_map. Qed.

Lemma keys_of_param_bindings params vararg kwarg :
  keys_of (map (λ nv, (Some nv.1, nv.2)) (param_bindings params vararg kwarg))
  = list_to_set (map Some (params ++ option_list vararg ++ option_list kwarg)).
Proof.
  rewrite keys_of_named. unfold param_bindings.
  rewrite !map_app, !list_to_set_app_L, map_map.
  destruct vararg, kwarg; simpl; set_solver.
Qed.

Lemma FunctionDef_scopes name params vararg kwonlyargs kw_defaults kwarg
    defaults body decorator_list returns scope h pairs hoisted :
  (scope < length h)%nat →
  find_assignments (TList body) = Ok pairs → items_of pairs = Ok hoisted →
  ∃ h' es la lb,
    run (extensions true
           (FunctionDef name
              (arguments (map arg params) (opt_arg vararg) kwonlyargs
                 kw_defaults (opt_arg kwarg) defaults)
              body decorator_list returns) scope) h = (h', Ok es)
    ∧ (∀ p, resolve es (Some scope) (SField "args" :: p) = Some la)
    ∧ (∀ p, resolve es (Some scope) (SField "body" :: p) = Some lb)
    ∧ names h' la = names h scope ∪ {[Some name]}
    ∧ names h' lb
      = names h scope ∪ {[Some name]}
        ∪ list_to_set
            (map Some (params ++ option_list vararg ++ option_list kwarg))
        ∪ keys_of hoisted.
Proof.
  intros Hs Hfind Hits. rewrite extensions_FunctionDef. unfold on_FunctionDef.
  set (args := arguments _ _ _ _ _ _).
  set (fd := FunctionDef _ _ _ _ _).
  rewrite (run_lift_Ok _ args) by done.
  rewrite (run_lift_Ok _ (TStr name)) by done.
  rewrite run_bind, (run_dict_of _ [(Some name, fd)]) by done.
  rewrite run_bind, run_extend_scope_None.
  rewrite (run_lift_Ok _ (TList body)) by done.
  rewrite (run_lift_Ok _ (TStr name)) by done.
  rewrite run_bind, (run_dict_of _ [(Some name, fd)]) by done.
  rewrite (run_lift_Ok _ args) by done.
  rewrite run_bind. subst args. rewrite run_extract_arg_names.
  rewrite (run_lift_Ok _ (TList body)) by done.
  rewrite (run_lift_Ok _ pairs) by done.
  rewrite run_bind, (run_dict_of _ hoisted) by done.
  rewrite run_bind, run_extend_scope_None.
  cbn [run mret M_ret]. eexists _, _, _, _. split; [done|].
  split; [by intros p; apply resolve_field|].
  split; [by intros p; apply resolve_field|].
  split.
  - names_at. rewrite dom_merged. cbn [map union_list]. names_at.
    rewrite dom_dict_items. unfold keys_of. simpl. set_solver.
  - names_at. rewrite dom_merged. cbn [map union_list]. names_at.
    rewrite !dom_dict_items, keys_of_param_bindings.
    unfold keys_of at 1. simpl. set_solver.
Qed.

(** C4.  For a function definition (Python 3): the signature, and the
    parameter defaults in it, are visited with the scope of the node and
    the name of the function, so a parameter name is in that scope exactly
    when the scope of the node binds it or it is the name of the function;
    the body is visited with the scope of the node, the name of the
    function, the names of the positional parameters and of [*args] and
    [**kwargs], and the bindings hoisted from the body.  For
    [def f(x=DEFAULT): y = 1] walked from its module, the scope at
    [DEFAULT] is [f] and the scope at [y = 1] is [f], [x], [y], as the
    claim has them.  A keyword-only parameter is a parameter that
    [extract_arg_names] does not collect: the body of
    [def f(a, *, k): pass] is visited with [f] and [a], without [k],
    where the claim has all the parameter names. *)
Theorem C4_function_scopes (name : string) (params : list string)
    (vararg kwarg : option string)
    (kwonlyargs kw_defaults defaults body decorator_list : list tree)
    (returns : tree) (scope : nat) (h : heap)
    (pairs : list (tree * tree)) (hoisted : list (option string * tree)) :
  (scope < length h)%nat →
  find_assignments (TList body) = Ok pairs →
  items_of pairs = Ok hoisted →
  (∃ h' es la lb,
     run (extensions true
            (FunctionDef name
               (arguments (map arg params) (opt_arg vararg) kwonlyargs
                  kw_defaults (opt_arg kwarg) defaults)
               body decorator_list returns) scope) h = (h', Ok es)
     ∧ (∀ p, resolve es (Some scope) (SField "args" :: p) = Some la)
     ∧ (∀ p, resolve es (Some scope) (SField "body" :: p) = Some lb)
     ∧ names h' la = names h scope ∪ {[Some name]}
     ∧ (∀ x, Some x ∈ names h' la ↔ Some x ∈ names h scope ∨ x = name)
     ∧ names h' lb
       = names h scope ∪ {[Some name]}
         ∪ list_to_set
             (map Some (params ++ option_list vararg ++ option_list kwarg))
         ∪ keys_of hoisted)
  ∧ scopes_at (Name "DEFAULT" Load)
      (scopes_seen true
         (Module [FunctionDef "f"
                    (arguments [arg "x"] TNone [] [] TNone
                       [Name "DEFAULT" Load])
                    [Assign [Name "y" Store] (Num 1)] [] TNone]))
    = Ok [{[Some "f"]}]
  ∧ scopes_at (Assign [Name "y" Store] (Num 1))
      (scopes_seen true
         (Module [FunctionDef "f"
                    (arguments [arg "x"] TNone [] [] TNone
                       [Name "DEFAULT" Load])
                    [Assign [Name "y" Store] (Num 1)] [] TNone]))
    = Ok [{[Some "f"; Some "x"; Some "y"]}]
  ∧ scopes_at Pass
      (scopes_seen true
         (Module [FunctionDef "f"
                    (arguments [arg "a"] TNone [arg "k"] [TNone] TNone [])
                    [Pass] [] TNone]))
    = Ok [{[Some "f"; Some "a"]}].
Proof.
  intros Hs Hfind Hits.
  split; [|split; [|split]; vm_compute; reflexivity].
  destruct (FunctionDef_scopes name params vararg kwonlyargs kw_defaults
              kwarg defaults body decorator_list returns scope h pairs
              hoisted Hs Hfind Hits)
    as (h' & es & la & lb & Hrun & Ha & Hb & Hna & Hnb).
  exists h', es, la, lb. repeat (split; [done|]). split; [|done].
  intros x. rewrite Hna. set_solver.
Qed.

Lemma C4_function_scopes_witness :
  ∃ h' es la lb,
    run (extensions true
           (FunctionDef "f"
              (arguments [arg "x"] TNone [] [] TNone [Name "DEFAULT" Load])
              [Assign [Name "y" Store] (Num 1)] [] TNone) 0)
      [{[Some "f" := Pass]}] = (h', Ok es)
    ∧ resolve es (Some 0%nat) [SField "args"; SField "defaults"; SIndex 0]
      = Some la
    ∧ resolve es (Some 0%nat) [SField "body"; SIndex 0] = Some lb
    ∧ names h' la = {[Some "f"]}
    ∧ names h' lb = {[Some "f"; Some "x"; Some "y"]}.
Proof.
  destruct (C4_function_scopes "f" ["x"] None None [] [] [Name "DEFAULT" Load]
              [Assign [Name "y" Store] (Num 1)] [] TNone 0
              [{[Some "f" := Pass]}]
              [(TStr "y", Name "y" Store)] [(Some "y", Name "y" Store)])
    as [(h' & es & la & lb & Hrun & Ha & Hb & Hna & _ & Hnb) _].
  - simpl. lia.
  - reflexivity.
  - reflexivity.
  - exists h', es, la, lb. split; [exact Hrun|].
    split; [apply Ha|]. split; [apply Hb|].
    rewrite Hna, Hnb. split; vm_compute; reflexivity.
Defined.

(** ** Comprehensions *)

Lemma descend_app {C} s (es1 es2 : list (path * C)) :
  descend s (es1 ++ es2) = descend s es1 ++ descend s es2.
Proof. unfold descend. apply omap_app. Qed.

Lemma descend_cons_hit {C} s p (l : C) es :
  descend s ((s :: p, l) :: es) = (p, l) :: descend s es.
Proof. unfold descend. cbn [omap list_omap fst snd]. by rewrite decide_True. Qed.

Lemma descend_cons_miss {C} s s' p (l : C) es :
  s' ≠ s → descend s ((s' :: p, l) :: es) = descend s es.
Proof.
  intros Hs. unfold descend. cbn [omap list_omap fst snd].
  by rewrite decide_False.
Qed.

Lemma descend_nil {C} s : descend s (@nil (path * C)) = [].
Proof. done. Qed.

Lemma specific_deeper {C} (es : list (path * C)) kw :
  Forall (λ e : path * C, e.1 ≠ []) es → specific es kw = kw.
Proof.
  intros H. revert kw. induction H as [|[p l] es Hp _ IH]; intros kw; [done|].
  unfold specific in *. cbn [foldl fst]. destruct p; [done|]. apply IH.
Qed.

Lemma clause_entries_descend_below i k es :
  clause_entries i es → (k < i)%nat →
  descend (SIndex k) (descend (SField "generators") es) = [].
Proof.
  intros H Hk. induction H as [|[p l] es (k' & f & Hp & Hk') _ IH]; [done|].
  simpl in Hp. subst p. rewrite descend_cons_hit, descend_cons_miss; [done|].
  intros [= ->]. lia.
Qed.

Lemma clause_entries_descend_other i f es :
  clause_entries i es → f ≠ "generators" → descend (SField f) es = [].
Proof.
  intros H Hf. induction H as [|[p l] es (k' & f' & Hp & Hk') _ IH]; [done|].
  simpl in Hp. subst p. rewrite descend_cons_miss; [done|]. congruence.
Qed.

Lemma clause_entries_deeper i es :
  clause_entries i es →
  Forall (λ e : path * nat, e.1 ≠ []) (descend (SField "generators") es).
Proof.
  intros H. induction H as [|[p l] es (k' & f' & Hp & Hk') _ IH];
    [constructor|].
  simpl in Hp. subst p. rewrite descend_cons_hit. by constructor.
Qed.

Lemma clause_entries_deeper2 i k es :
  clause_entries i es →
  Forall (λ e : path * nat, e.1 ≠ [])
    (descend (SIndex k) (descend (SField "generators") es)).
Proof.
  intros H. induction H as [|[p l] es (k' & f' & Hp & Hk') _ IH];
    [constructor|].
  simpl in Hp. subst p. rewrite descend_cons_hit.
  destruct (decide (k' = k)) as [->|Hne].
  - rewrite descend_cons_hit. by constructor.
  - rewrite descend_cons_miss; [done|]. congruence.
Qed.

Lemma clause_entries_weaken i j es :
  (i ≤ j)%nat → clause_entries j es → clause_entries i es.
Proof.
  intros Hij H. eapply Forall_impl; [exact H|].
  intros e (k & f & He & Hk). exists k, f. split; [done|lia].
Qed.

Lemma bound_by_cons its itemss :
  bound_by (its :: itemss) = keys_of its ∪ bound_by itemss.
Proof. done. Qed.

Lemma run_dict_update l other h :
  run (dict_update l other) h
  = (<[l := default ∅ (h !! other) ∪ default ∅ (h !! l)]> h, Ok ()).
Proof. done. Qed.

Lemma names_eq (h h' : heap) l : h' !! l = h !! l → names h' l = names h l.
Proof. unfold names. by intros ->. Qed.

Lemma names_new_at (h : heap) d l :
  l = length h → names (h ++ [d]) l = dom d.
Proof. intros ->. apply names_app_new. Qed.

Lemma lookup_new_at (h : heap) d l :
  l = length h → (h ++ [d]) !! l = Some d.
Proof. intros ->. by rewrite lookup_app_r, Nat.sub_diag. Qed.

Lemma extend_generators_spec scope iv clauses itemss :
  Forall2 (λ c its, binds (c_target c) its) clauses itemss →
  ∀ i h, (scope < length h)%nat → (iv < length h)%nat → scope ≠ iv →
  ∃ h' es,
    run (extend_generators scope iv (map clause_node clauses) i) h
    = (h', Ok es)
    ∧ (length h ≤ length h')%nat
    ∧ (∀ l, (l < length h)%nat → l ≠ iv → h' !! l = h !! l)
    ∧ names h' iv = names h iv ∪ bound_by itemss
    ∧ clause_entries i es
    ∧ ∀ k c, clauses !! k = Some c →
        ∃ lt li lf,
          descend (SIndex (i + k)) (descend (SField "generators") es)
          = [([SField "target"], lt); ([SField "iter"], li);
             ([SField "ifs"], lf)]
          ∧ (lt < length h')%nat ∧ (li < length h')%nat
          ∧ (lf < length h')%nat
          ∧ lt ≠ iv ∧ li ≠ iv ∧ lf ≠ iv
          ∧ names h' lt
            = names h scope ∪ names h iv ∪ bound_by (take k itemss)
          ∧ names h' li
            = names h scope ∪ names h iv ∪ bound_by (take k itemss)
          ∧ names h' lf
            = names h scope ∪ names h iv ∪ bound_by (take (S k) itemss).
Proof.
  induction 1 as [|c its clauses itemss (pairs & Hfind & Hits) _ IH];
    intros i h Hs Hiv Hne.
  { exists h, []. split; [done|]. split; [done|]. split; [done|].
    split; [unfold bound_by; simpl; set_solver|].
    split; [constructor|]. intros k c Hk. by destruct k. }
  cbn [map extend_generators]. cbv zeta. cbn [app].
  rewrite (run_lift_Ok _ (c_target c)) by done.
  rewrite run_bind, run_extend_scope_None.
  rewrite (run_lift_Ok _ (c_iter c)) by done.
  rewrite run_bind, run_extend_scope_None.
  rewrite (run_lift_Ok _ (c_target c)) by done.
  rewrite (run_lift_Ok _ pairs) by done.
  rewrite run_bind, (run_dict_of _ its) by done.
  rewrite run_bind, run_dict_update.
  rewrite (run_lift_Ok _ (TList (c_ifs c))) by done.
  rewrite run_bind, run_extend_scope_None.
  rewrite run_bind.
  set (m1 := merged h [scope; iv]).
  set (h1 := h ++ [m1]).
  set (m2 := merged h1 [scope; iv]).
  set (h2 := h1 ++ [m2]).
  set (h3 := h2 ++ [dict_items its]).
  set (h4 := <[iv := default ∅ (h3 !! length h2) ∪ default ∅ (h3 !! iv)]> h3).
  set (m3 := merged h4 [scope; iv]).
  set (h5 := h4 ++ [m3]).
  assert (length h1 = S (length h)) as L1
    by (unfold h1; rewrite length_app; simpl; lia).
  assert (length h2 = S (S (length h))) as L2
    by (unfold h2; rewrite length_app; simpl; lia).
  assert (length h3 = S (S (S (length h)))) as L3
    by (unfold h3; rewrite length_app; simpl; lia).
  assert (length h4 = S (S (S (length h)))) as L4
    by (unfold h4; by rewrite length_insert).
  assert (length h5 = S (S (S (S (length h))))) as L5
    by (unfold h5; rewrite length_app; simpl; lia).
  assert (∀ l, (l < length h)%nat → h3 !! l = h !! l) as Hold3.
  { intros l Hl. unfold h3, h2, h1.
    by rewrite !lookup_app_l by (rewrite ?length_app; simpl; lia). }
  assert (∀ l, (l < length h4)%nat → l ≠ iv → h5 !! l = h3 !! l) as Hold5.
  { intros l Hl Hliv. unfold h5. rewrite lookup_app_l by done.
    unfold h4. by rewrite list_lookup_insert_ne. }
  assert (names h4 iv = keys_of its ∪ names h iv) as Niv.
  { unfold h4. rewrite names_insert_eq by lia.
    rewrite dom_union_L. unfold h3 at 1.
    rewrite lookup_new_at by done. simpl.
    rewrite dom_dict_items. rewrite Hold3 by done. done. }
  assert (names h4 scope = names h scope) as Nsc.
  { unfold h4. rewrite names_insert_ne by done.
    apply names_eq. by apply Hold3. }
  assert (dom m1 = names h scope ∪ names h iv) as D1.
  { unfold m1. rewrite dom_merged. simpl. set_solver. }
  assert (dom m2 = names h scope ∪ names h iv) as D2.
  { unfold m2. rewrite dom_merged. simpl. unfold h1.
    rewrite !names_app_l by done. set_solver. }
  assert (dom m3 = names h scope ∪ (keys_of its ∪ names h iv)) as D3.
  { unfold m3. rewrite dom_merged. simpl. rewrite Niv, Nsc. set_solver. }
  destruct (IH (S i) h5) as (h' & es & Hrun & Hlen & Hstab & Hniv & Hce & Hk);
    [lia|lia|done|].
  rewrite Hrun. cbn [run mret M_ret].
  eexists _, _. split; [done|]. split; [lia|].
  split; [|split; [|split]].
  - intros l Hl Hliv. rewrite Hstab by (lia || done).
    rewrite Hold5 by (lia || done). by apply Hold3.
  - rewrite Hniv. unfold h5. rewrite names_app_l by lia.
    rewrite Niv, bound_by_cons. set_solver.
  - cbn [app]. repeat (constructor; [eexists _, _; split; [done|lia]|]).
    by eapply clause_entries_weaken; [|exact Hce]; lia.
  - intros [|k] c' Hc'.
    + exists (length h), (length h1), (length h4).
      split.
      { rewrite Nat.add_0_r. cbn [app].
        rewrite !descend_cons_hit.
        by rewrite (clause_entries_descend_below (S i) i es) by (done || lia). }
      assert (h' !! length h = Some m1) as E1.
      { rewrite Hstab by lia. rewrite Hold5 by lia.
        unfold h3, h2.
        rewrite !lookup_app_l by (rewrite ?length_app; simpl; lia).
        by apply lookup_new_at. }
      assert (h' !! length h1 = Some m2) as E2.
      { rewrite Hstab by lia. rewrite Hold5 by lia.
        unfold h3. rewrite !lookup_app_l by lia.
        by apply lookup_new_at. }
      assert (h' !! length h4 = Some m3) as E3.
      { rewrite Hstab by lia. unfold h5. by apply lookup_new_at. }
      split; [lia|]. split; [lia|]. split; [lia|].
      split; [lia|]. split; [lia|]. split; [lia|].
      unfold names. rewrite E1, E2, E3. simpl.
      rewrite D1, D2, D3. unfold bound_by. simpl. set_solver.
    + destruct (Hk k c' Hc') as (lt & li & lf & Hd & ? & ? & ? & ? & ? & ?
                                   & Ht & Hi & Hf).
      exists lt, li, lf. split.
      { cbn [app]. rewrite !descend_cons_hit.
        rewrite !descend_cons_miss by (intros [= ?]; lia).
        by replace (i + S k)%nat with (S i + k)%nat by lia. }
      do 6 (split; [done|]).
      rewrite Ht, Hi, Hf. unfold h5. rewrite !names_app_l by lia.
      rewrite Niv, Nsc. cbn [take]. rewrite !bound_by_cons. set_solver.
Qed.

Lemma resolve_exact {C} (l : C) p : resolve [([], l)] (Some l) p = Some l.
Proof. destruct p as [|s p]; [done|]. simpl. apply resolve_nil. Qed.

Lemma resolve_clause_part (es : list (path * nat)) kw k lt li lf p :
  Forall (λ e : path * nat, e.1 ≠ []) (descend (SField "generators") es) →
  descend (SIndex k) (descend (SField "generators") es)
  = [([SField "target"], lt); ([SField "iter"], li); ([SField "ifs"], lf)] →
  resolve es kw ([SField "generators"; SIndex k; SField "target"] ++ p)
  = Some lt
  ∧ resolve es kw ([SField "generators"; SIndex k; SField "iter"] ++ p)
    = Some li
  ∧ resolve es kw ([SField "generators"; SIndex k; SField "ifs"] ++ p)
    = Some lf.
Proof.
  intros Hdeep Hd. cbn [app resolve]. rewrite (specific_deeper _ _ Hdeep), Hd.
  set (parts := [([SField "target"], lt); ([SField "iter"], li);
                 ([SField "ifs"], lf)]).
  assert (specific parts kw = kw) as ->
    by (apply specific_deeper; repeat constructor; done).
  unfold parts.
  rewrite !descend_cons_hit.
  rewrite !descend_cons_miss by (intros [= ?]; done).
  rewrite !descend_cons_hit.
  rewrite !descend_cons_miss by (intros [= ?]; done).
  rewrite !descend_cons_hit.
  rewrite !descend_nil. cbn [specific foldl fst snd].
  by rewrite !resolve_exact.
Qed.

Lemma on_comprehension_loop scope clauses itemss h :
  Forall2 (λ c its, binds (c_target c) its) clauses itemss →
  (scope < length h)%nat →
  ∃ h' es,
    run (extend_generators scope (length h) (map clause_node clauses) 0)
      (h ++ [∅]) = (h', Ok es)
    ∧ (length h < length h')%nat
    ∧ names h' scope = names h scope
    ∧ names h' (length h) = bound_by itemss
    ∧ clause_entries 0 es
    ∧ ∀ k c, clauses !! k = Some c →
        ∃ lt li lf,
          descend (SIndex k) (descend (SField "generators") es)
          = [([SField "target"], lt); ([SField "iter"], li);
             ([SField "ifs"], lf)]
          ∧ (lt < length h')%nat ∧ (li < length h')%nat
          ∧ (lf < length h')%nat
          ∧ names h' lt = names h scope ∪ bound_by (take k itemss)
          ∧ names h' li = names h scope ∪ bound_by (take k itemss)
          ∧ names h' lf = names h scope ∪ bound_by (take (S k) itemss).
Proof.
  intros Hb Hs.
  destruct (extend_generators_spec scope (length h) clauses itemss Hb 0
              (h ++ [∅]))
    as (h' & es & Hrun & Hlen & Hstab & Hniv & Hce & Hk).
  { rewrite length_app. simpl. lia. }
  { rewrite length_app. simpl. lia. }
  { lia. }
  rewrite length_app in Hlen. simpl in Hlen.
  assert (names (h ++ [∅]) (length h) = ∅) as Hiv0
    by (by rewrite names_app_new, dom_empty_L).
  assert (names (h ++ [∅]) scope = names h scope) as Hsc0
    by (by rewrite names_app_l).
  exists h', es. split; [done|]. split; [lia|].
  split; [|split; [|split; [done|]]].
  - rewrite <- Hsc0. apply names_eq. apply Hstab; [|lia].
    rewrite length_app. simpl. lia.
  - rewrite Hniv, Hiv0. set_solver.
  - intros k c Hc.
    destruct (Hk k c Hc) as (lt & li & lf & Hd & ? & ? & ? & _ & _ & _
                               & Ht & Hi & Hf).
    exists lt, li, lf. simpl in Hd. do 4 (split; [done|]).
    rewrite Ht, Hi, Hf, Hiv0, Hsc0. set_solver.
Qed.

Lemma comprehension_elt_scopes node elt scope clauses itemss h :
  attr node "generators" = Ok (TList (map clause_node clauses)) →
  isinstance node "DictComp" = false →
  attr node "elt" = Ok elt →
  Forall2 (λ c its, binds (c_target c) its) clauses itemss →
  (scope < length h)%nat →
  ∃ h' es,
    run (on_comprehension node scope) h = (h', Ok es)
    ∧ clause_scopes scope h h' es clauses itemss
    ∧ result_scope scope h h' es "elt" itemss.
Proof.
  intros Hgen Hkind Helt Hb Hs. unfold on_comprehension.
  rewrite run_bind. cbn [new_dict run].
  rewrite (run_lift_Ok _ (TList (map clause_node clauses))) by done.
  rewrite (run_lift_Ok _ (map clause_node clauses)) by done.
  destruct (on_comprehension_loop scope clauses itemss h Hb Hs)
    as (h' & es & Hrun & Hlen & Hsc & Hiv & Hce & Hk).
  rewrite run_bind, Hrun, Hkind.
  rewrite run_bind, (run_lift_Ok _ elt) by done.
  rewrite run_extend_scope_None. cbn [run mret M_ret].
  eexists _, _. split; [done|]. split.
  - intros k c Hc.
    destruct (Hk k c Hc) as (lt & li & lf & Hd & ? & ? & ? & Ht & Hi & Hf).
    exists lt, li, lf.
    assert (descend (SField "generators") (es ++ [([SField "elt"], length h')])
            = descend (SField "generators") es) as Hsame.
    { rewrite descend_app, descend_cons_miss by done.
      by rewrite descend_nil, app_nil_r. }
    assert (∀ p,
      resolve (es ++ [([SField "elt"], length h')]) (Some scope)
        ([SField "generators"; SIndex k; SField "target"] ++ p) = Some lt
      ∧ resolve (es ++ [([SField "elt"], length h')]) (Some scope)
          ([SField "generators"; SIndex k; SField "iter"] ++ p) = Some li
      ∧ resolve (es ++ [([SField "elt"], length h')]) (Some scope)
          ([SField "generators"; SIndex k; SField "ifs"] ++ p) = Some lf)
      as Hres.
    { intros p. apply resolve_clause_part; rewrite Hsame; [|done].
      by eapply clause_entries_deeper. }
    split; [intros p; apply Hres|]. split; [intros p; apply Hres|].
    split; [intros p; apply Hres|].
    by rewrite !names_app_l by done.
  - exists (length h'). split.
    + intros p. apply resolve_field.
      rewrite descend_app, (clause_entries_descend_other 0) by done.
      by rewrite descend_cons_hit.
    + rewrite names_app_new, dom_merged. simpl. rewrite Hsc, Hiv. set_solver.
Qed.

Lemma comprehension_dict_scopes key value scope clauses itemss h :
  Forall2 (λ c its, binds (c_target c) its) clauses itemss →
  (scope < length h)%nat →
  ∃ h' es,
    run (on_comprehension (DictComp key value (map clause_node clauses))
           scope) h = (h', Ok es)
    ∧ clause_scopes scope h h' es clauses itemss
    ∧ result_scope scope h h' es "key" itemss
    ∧ result_scope scope h h' es "value" itemss.
Proof.
  intros Hb Hs. unfold on_comprehension.
  rewrite run_bind. cbn [new_dict run].
  rewrite (run_lift_Ok _ (TList (map clause_node clauses))) by done.
  rewrite (run_lift_Ok _ (map clause_node clauses)) by done.
  destruct (on_comprehension_loop scope clauses itemss h Hb Hs)
    as (h' & es & Hrun & Hlen & Hsc & Hiv & Hce & Hk).
  rewrite run_bind, Hrun.
  replace (isinstance (DictComp key value (map clause_node clauses))
             "DictComp") with true by done.
  rewrite run_bind, (run_lift_Ok _ key) by done.
  rewrite run_bind, run_extend_scope_None.
  rewrite (run_lift_Ok _ value) by done.
  rewrite run_bind, run_extend_scope_None. cbn [run mret M_ret].
  set (h1 := h' ++ [merged h' [scope; length h]]).
  set (tail := [([SField "key"], length h')] ++ [([SField "value"], length h1)]).
  eexists _, _. split; [done|].
  assert (length h1 = S (length h')) as L1
    by (unfold h1; rewrite length_app; simpl; lia).
  split; [|split].
  - intros k c Hc.
    destruct (Hk k c Hc) as (lt & li & lf & Hd & ? & ? & ? & Ht & Hi & Hf).
    exists lt, li, lf.
    assert (descend (SField "generators") (es ++ tail)
            = descend (SField "generators") es) as Hsame.
    { unfold tail. cbn [app].
      rewrite descend_app, !descend_cons_miss by done.
      by rewrite descend_nil, app_nil_r. }
    assert (∀ p,
      resolve (es ++ tail) (Some scope)
        ([SField "generators"; SIndex k; SField "target"] ++ p) = Some lt
      ∧ resolve (es ++ tail) (Some scope)
          ([SField "generators"; SIndex k; SField "iter"] ++ p) = Some li
      ∧ resolve (es ++ tail) (Some scope)
          ([SField "generators"; SIndex k; SField "ifs"] ++ p) = Some lf)
      as Hres.
    { intros p. apply resolve_clause_part; rewrite Hsame; [|done].
      by eapply clause_entries_deeper. }
    split; [intros p; apply Hres|]. split; [intros p; apply Hres|].
    split; [intros p; apply Hres|].
    unfold h1. by rewrite !names_app_l by (rewrite ?length_app; simpl; lia).
  - exists (length h'). split.
    + intros p. apply resolve_field. unfold tail. cbn [app].
      rewrite descend_app, (clause_entries_descend_other 0) by done.
      by rewrite descend_cons_hit, descend_cons_miss.
    + rewrite names_app_l by lia. unfold h1.
      rewrite names_app_new, dom_merged. simpl. rewrite Hsc, Hiv. set_solver.
  - exists (length h1). split.
    + intros p. apply resolve_field. unfold tail. cbn [app].
      rewrite descend_app, (clause_entries_descend_other 0) by done.
      by rewrite descend_cons_miss, descend_cons_hit.
    + rewrite names_app_new, dom_merged. simpl. unfold h1.
      rewrite !names_app_l by lia. rewrite Hsc, Hiv. set_solver.
Qed.



(** ** Lambda, except and for *)

Lemma extensions_Lambda PY3 args body scope h :
  run (extensions PY3 (Lambda args body) scope) h
  = run (on_Lambda PY3 (Lambda args body) scope) h.
Proof. unfold Lambda. block_only. Qed.

Lemma extensions_ExceptHandler PY3 type name body scope h :
  run (extensions PY3 (ExceptHandler type name body) scope) h
  = run (on_ExceptHandler PY3 (ExceptHandler type name body) scope) h.
Proof. unfold ExceptHandler. block_only. Qed.

Lemma resolve_body_only (l scope : nat) (f : string) p :
  f ≠ "body" → resolve [([SField "body"], l)] (Some scope) (SField f :: p)
               = Some scope.
Proof.
  intros Hf. apply resolve_other. constructor; [|constructor].
  simpl. congruence.
Qed.

(** The body of a [lambda] is visited with the scope of the node and the
    names of its positional parameters, of [*args] and of [**kwargs]
    (Python 3); the defaults in its signature are visited with the scope of
    the node itself.  A keyword-only parameter is not among the names: in
    [lambda x, *, k=1: k] the body is visited with [x] alone. *)
Theorem lambda_body_scope (params : list string) (vararg kwarg : option string)
    (kwonlyargs kw_defaults defaults : list tree) (body : tree)
    (scope : nat) (h : heap) :
  (scope < length h)%nat →
  (∃ h' lb,
     run (extensions true
            (Lambda (arguments (map arg params) (opt_arg vararg) kwonlyargs
                       kw_defaults (opt_arg kwarg) defaults) body) scope) h
     = (h', Ok [([SField "body"], lb)])
     ∧ names h' lb
       = names h scope
         ∪ list_to_set
             (map Some (params ++ option_list vararg ++ option_list kwarg))
     ∧ names h' scope = names h scope
     ∧ ∀ p, resolve [([SField "body"], lb)] (Some scope) (SField "args" :: p)
            = Some scope)
  ∧ scopes_at (Name "k" Load)
      (scopes_seen true
         (Module [Expr (Lambda (arguments [arg "x"] TNone [arg "k"] [Num 1]
                                  TNone [])
                          (Name "k" Load))]))
    = Ok [{[Some "x"]}].
Proof.
  intros Hs. split; [|vm_compute; reflexivity].
  rewrite extensions_Lambda. unfold on_Lambda.
  set (args := arguments _ _ _ _ _ _).
  rewrite (run_lift_Ok _ body) by done.
  rewrite (run_lift_Ok _ args) by done.
  rewrite run_bind. subst args. rewrite run_extract_arg_names.
  rewrite run_extend_scope_None. eexists _, _. split; [done|].
  split; [|split].
  - names_at. rewrite dom_merged. cbn [map union_list]. names_at.
    rewrite dom_dict_items, keys_of_param_bindings. set_solver.
  - by names_at.
  - intros p. by apply resolve_body_only.
Qed.

Lemma lambda_body_scope_witness :
  ∃ h' lb,
    run (extensions true
           (Lambda (arguments (map arg ["x"; "y"]) (opt_arg (Some "rest")) []
                      [] (opt_arg None) []) (Name "x" Load)) 0)
      [{[Some "f" := Pass]}]
    = (h', Ok [([SField "body"], lb)])
    ∧ names h' lb
      = names [{[Some "f" := Pass]}] 0
        ∪ list_to_set
            (map Some (["x"; "y"] ++ option_list (Some "rest")
                       ++ option_list None)).
Proof.
  destruct (lambda_body_scope ["x"; "y"] (Some "rest") None [] [] []
              (Name "x" Load) 0 [{[Some "f" := Pass]}])
    as [(h' & lb & Hrun & Hn & _) _]; [simpl; lia|].
  exists h', lb. split; assumption.
Defined.

(** The body of an [except] clause is visited with the scope of the node
    and the name that the clause binds.  In Python 3 a clause that binds no
    name has [None] for it, and the key [None] is added to the scope of
    its body.  In Python 2 the name is a [Name] node and its [id] is added;
    a clause that binds none stops the walk with [AttributeError]. *)
Theorem except_handler_scope (type : tree) (body : list tree) (scope : nat)
    (h : heap) :
  (scope < length h)%nat →
  (∀ name : option string,
     ∃ h' lb,
       run (extensions true
              (ExceptHandler type
                 (match name with Some n => TStr n | None => TNone end) body)
              scope) h
       = (h', Ok [([SField "body"], lb)])
       ∧ names h' lb = names h scope ∪ {[name]}
       ∧ names h' scope = names h scope)
  ∧ (∀ (n : string) ctx,
       ∃ h' lb,
         run (extensions false (ExceptHandler type (Name n ctx) body) scope) h
         = (h', Ok [([SField "body"], lb)])
         ∧ names h' lb = names h scope ∪ {[Some n]}
         ∧ names h' scope = names h scope)
  ∧ (run (extensions false (ExceptHandler type TNone body) scope) h).2
    = Raise (AttributeError "id").
Proof.
  intros Hs. split; [|split].
  - intros name. rewrite extensions_ExceptHandler. unfold on_ExceptHandler.
    set (nm := match name with Some n => TStr n | None => TNone end).
    rewrite (run_lift_Ok _ (TList body)) by done.
    rewrite (run_lift_Ok _ nm) by done.
    rewrite (run_lift_Ok _ nm) by done.
    rewrite run_bind, (run_dict_of _ [(name, Name_Param nm)])
      by (by destruct name).
    rewrite run_extend_scope_None. eexists _, _. split; [done|]. split.
    + names_at. rewrite dom_merged. cbn [map union_list]. names_at.
      rewrite dom_dict_items. unfold keys_of. simpl. set_solver.
    + by names_at.
  - intros n ctx. rewrite extensions_ExceptHandler. unfold on_ExceptHandler.
    rewrite (run_lift_Ok _ (TList body)) by done.
    rewrite (run_lift_Ok _ (Name n ctx)) by done.
    rewrite (run_lift_Ok _ (TStr n)) by done.
    rewrite (run_lift_Ok _ (Name n ctx)) by done.
    rewrite run_bind, (run_dict_of _ [(Some n, Name n ctx)]) by done.
    rewrite run_extend_scope_None. eexists _, _. split; [done|]. split.
    + names_at. rewrite dom_merged. cbn [map union_list]. names_at.
      rewrite dom_dict_items. unfold keys_of. simpl. set_solver.
    + by names_at.
  - rewrite extensions_ExceptHandler. unfold on_ExceptHandler.
    rewrite (run_lift_Ok _ (TList body)) by done.
    by rewrite (run_lift_Ok _ TNone) by done.
Qed.

Lemma except_handler_scope_witness :
  ∃ h' lb,
    run (extensions true (ExceptHandler (Name "E" Load) TNone [Pass]) 0) [∅]
    = (h', Ok [([SField "body"], lb)])
    ∧ names h' lb = names [∅] 0 ∪ {[None]}.
Proof.
  destruct (except_handler_scope (Name "E" Load) [Pass] 0 [∅]) as [H _];
    [simpl; lia|].
  destruct (H None) as (h' & lb & Hrun & Hn & _).
  exists h', lb. split; assumption.
Defined.

(** The body of a [for] loop is visited with the scope of the node and the
    names that [find_names] collects from the target; the target, the
    iterable and the [else] branch are visited with the scope of the node.
    A target that is an attribute or a subscript binds no name. *)
Theorem for_body_scope (target iter : tree) (body orelse : list tree)
    (scope : nat) (h : heap) (pairs : list (tree * tree))
    (its : list (option string * tree)) :
  (scope < length h)%nat →
  find_names target = Ok pairs → items_of pairs = Ok its →
  (∃ h' lb,
     run (extensions true (For target iter body orelse) scope) h
     = (h', Ok [([SField "body"], lb)])
     ∧ names h' lb = names h scope ∪ keys_of its
     ∧ names h' scope = names h scope
     ∧ ∀ f p, f ≠ "body" →
         resolve [([SField "body"], lb)] (Some scope) (SField f :: p)
         = Some scope)
  ∧ (isinstance target "Attribute" || isinstance target "Subscript" = true →
     its = []).
Proof.
  intros Hs Hfind Hits. split.
  - rewrite extensions_For. unfold on_For.
    rewrite (run_lift_Ok _ (TList body)) by done.
    rewrite (run_lift_Ok _ target) by done.
    rewrite (run_lift_Ok _ pairs) by done.
    rewrite run_bind, (run_dict_of _ its) by done.
    rewrite run_extend_scope_None. eexists _, _. split; [done|].
    split; [|split].
    + names_at. rewrite dom_merged. cbn [map union_list]. names_at.
      rewrite dom_dict_items. set_solver.
    + by names_at.
    + intros f p Hf. by apply resolve_body_only.
  - intros Hstop. revert Hfind Hits. unfold find_names, collect.
    destruct target as [cls fields| | | |]; try done.
    cbn [recurse_collect]. unfold find_names_func.
    cbn [mbind result_bind mret result_ret]. rewrite Hstop.
    apply orb_true_iff in Hstop.
    assert (isinstance (AST cls fields) "Name" = false) as ->.
    { simpl in *.
      destruct Hstop as [H|H]; apply bool_decide_eq_true in H; by subst. }
    cbn. intros [= <-]. by intros [= <-].
Qed.

Lemma for_body_scope_witness :
  ∃ h' lb,
    run (extensions true
           (For (Name "i" Store) (Name "xs" Load) [Pass] [Pass]) 0)
      [{[Some "xs" := Pass]}]
    = (h', Ok [([SField "body"], lb)])
    ∧ names h' lb = names [{[Some "xs" := Pass]}] 0
                    ∪ keys_of [(Some "i", Name "i" Store)].
Proof.
  destruct (for_body_scope (Name "i" Store) (Name "xs" Load) [Pass] [Pass] 0
              [{[Some "xs" := Pass]}] [(TStr "i", Name "i" Store)]
              [(Some "i", Name "i" Store)])
    as [(h' & lb & Hrun & Hn & _) _]; [simpl; lia|reflexivity..|].
  exists h', lb. split; assumption.
Defined.

(** ** No name is lost on the way down *)

Lemma retains_refl (S : gset key) h : retains S h h.
Proof. by intros l. Qed.

Lemma retains_trans (S : gset key) h1 h2 h3 :
  retains S h1 h2 → retains S h2 h3 → retains S h1 h3.
Proof. intros H12 H23 l Hl. by apply H23, H12. Qed.

Lemma all_over_retains (S : gset key) h h' es :
  retains S h h' → all_over S h es → all_over S h' es.
Proof.
  intros Hr H. eapply Forall_impl; [exact H|]. intros e. apply Hr.
Qed.

Lemma names_dead (h : heap) l : (length h ≤ l)%nat → names h l = ∅.
Proof.
  intros Hl. unfold names. rewrite lookup_ge_None_2 by done.
  apply dom_empty_L.
Qed.

Lemma retains_app (S : gset key) h d : retains S h (h ++ [d]).
Proof.
  intros l Hl. destruct (decide (l < length h)%nat).
  - by rewrite names_app_l.
  - rewrite names_dead in Hl by lia. set_solver.
Qed.

Lemma retains_insert (S : gset key) (h : heap) l d :
  (S ⊆ names h l → S ⊆ dom d) → retains S h (<[l := d]> h).
Proof.
  intros Hd l' Hl'. destruct (decide (l' = l)) as [->|Hne].
  - destruct (decide (l < length h)%nat).
    + rewrite names_insert_eq by done. auto.
    + rewrite names_dead in Hl' by lia. set_solver.
  - by rewrite names_insert_ne.
Qed.

Lemma calm_ret (S : gset key) {A} (a : A) : calm S (mret a).
Proof. intros h. apply retains_refl. Qed.

Lemma calm_lift (S : gset key) {A} (r : result A) : calm S (lift r).
Proof. intros h. apply retains_refl. Qed.

Lemma calm_contents (S : gset key) l : calm S (contents l).
Proof. intros h. apply retains_refl. Qed.

Lemma calm_new_dict (S : gset key) d : calm S (new_dict d).
Proof. intros h. apply retains_app. Qed.

Lemma calm_bind (S : gset key) {A B} (c : M A) (k : A → M B) :
  calm S c → (∀ a, calm S (k a)) → calm S (c ≫= k).
Proof.
  intros Hc Hk h. rewrite run_bind. specialize (Hc h).
  destruct (run c h) as [h' [a|e]]; simpl in *; [|done].
  eapply retains_trans; [done|]. apply Hk.
Qed.

Lemma calm_mapM (S : gset key) {A B} (f : A → M B) (l : list A) :
  (∀ x, x ∈ l → calm S (f x)) → calm S (mapM f l).
Proof.
  induction l as [|x l IH]; intros Hf; simpl; [apply calm_ret|].
  apply calm_bind; [apply Hf; by left|]. intros y.
  apply calm_bind; [apply IH; intros; apply Hf; by right|]. intros ys.
  apply calm_ret.
Qed.

Lemma calm_dict_of (S : gset key) pairs : calm S (dict_of pairs).
Proof.
  unfold dict_of. apply calm_bind; [apply calm_lift|]. intros items.
  apply calm_new_dict.
Qed.

Lemma calm_merge_dicts (S : gset key) ls : calm S (merge_dicts ls).
Proof.
  unfold merge_dicts. apply calm_bind.
  - apply calm_mapM. intros l _. apply calm_contents.
  - intros ds. apply calm_new_dict.
Qed.

Lemma calm_extract_arg_names (S : gset key) PY3 args : calm S (extract_arg_names PY3 args).
Proof.
  unfold extract_arg_names. apply calm_bind; [apply calm_lift|].
  intros pairs. apply calm_dict_of.
Qed.

Lemma calm_dict_update (S : gset key) l other : calm S (dict_update l other).
Proof.
  intros h. simpl. apply retains_insert. intros Hl.
  rewrite dom_union_L. unfold names in Hl. set_solver.
Qed.

Lemma calm_dict_del (S : gset key) l k :
  (∀ k', as_key k = Ok k' → k' ∉ S) → calm S (dict_del l k).
Proof.
  intros Hk h. unfold dict_del. rewrite run_bind. simpl.
  destruct (as_key k) as [k'|e]; simpl; [|apply retains_refl].
  destruct (default ∅ (h !! l) !! k') eqn:E; simpl; [|apply retains_refl].
  apply retains_insert. intros Hl. rewrite dom_delete_L.
  unfold names in Hl. specialize (Hk k' eq_refl). set_solver.
Qed.

Lemma widening_ret (S : gset key) scope acc es :
  es ⊆ acc → widening S scope acc (mret es).
Proof.
  intros Hsub h _ Hacc. split; [apply retains_refl|].
  intros es' [= <-]. simpl. unfold all_over in *.
  rewrite Forall_forall in *. auto.
Qed.

Lemma widening_calm_bind (S : gset key) scope acc {A} (c : M A)
    (k : A → M (list (path * nat))) :
  calm S c → (∀ a, widening S scope acc (k a)) →
  widening S scope acc (c ≫= k).
Proof.
  intros Hc Hk h Hs Hacc. rewrite run_bind. specialize (Hc h).
  destruct (run c h) as [h' [a|e]]; simpl in *; [|done].
  destruct (Hk a h') as [Hr Hes]; [by apply Hc|by eapply all_over_retains|].
  split; [by eapply retains_trans|done].
Qed.

Lemma widening_bind (S : gset key) scope acc (c : M (list (path * nat)))
    (k : list (path * nat) → M (list (path * nat))) :
  widening S scope [] c → (∀ e, widening S scope (acc ++ e) (k e)) →
  widening S scope acc (c ≫= k).
Proof.
  intros Hc Hk h Hs Hacc. rewrite run_bind.
  destruct (Hc h Hs) as [Hr Hes]; [constructor|].
  destruct (run c h) as [h' [e|err]]; simpl in *; [|done].
  destruct (Hk e h') as [Hr' Hes'].
  - by apply Hr.
  - apply Forall_app. split; [by eapply all_over_retains|by apply Hes].
  - split; [by eapply retains_trans|done].
Qed.

Lemma widening_lift_bind (S : gset key) scope acc {A} (r : result A)
    (k : A → M (list (path * nat))) :
  (∀ a, r = Ok a → widening S scope acc (k a)) →
  widening S scope acc (lift r ≫= k).
Proof.
  intros Hk h Hs Hacc. rewrite run_bind. simpl.
  destruct r as [a|e]; [by apply Hk|]. split; [apply retains_refl|done].
Qed.

Lemma widening_if (S : gset key) scope acc (b : bool) (c : M (list (path * nat))) :
  (b = true → widening S scope acc c) →
  widening S scope acc (if b then c else mret []).
Proof.
  destruct b; [auto|]. intros _. apply widening_ret. set_solver.
Qed.

Lemma widening_extend_scope (S : gset key) scope p dicts remove :
  (∀ rems rem k, remove = Some rems → rem ∈ rems → as_key rem = Ok k →
     k ∉ S) →
  widening S scope [] (extend_scope scope p dicts remove).
Proof.
  intros Hrem h Hs _. unfold extend_scope.
  rewrite run_bind, run_merge_dicts.
  assert (S ⊆ names (h ++ [merged h (scope :: dicts)]) (length h)) as Hnew.
  { rewrite names_app_new, dom_merged. simpl. set_solver. }
  assert (calm S (match remove with
                  | Some rems => mapM (dict_del (length h)) rems
                  | None => mret []
                  end)) as Hcalm.
  { destruct remove as [rems|]; [|apply calm_ret].
    apply calm_mapM. intros rem Hin. apply calm_dict_del. eauto. }
  rewrite run_bind. specialize (Hcalm (h ++ [merged h (scope :: dicts)])).
  destruct (run _ (h ++ [merged h (scope :: dicts)])) as [h' [u|e]];
    simpl in *.
  - split; [eapply retains_trans; [apply retains_app|done]|].
    intros es [= <-]. constructor; [|constructor]. simpl. by apply Hcalm.
  - split; [eapply retains_trans; [apply retains_app|done]|done].
Qed.

Ltac widening_step :=
  first
    [ apply widening_calm_bind;
      [ first [ apply calm_lift | apply calm_dict_of | apply calm_new_dict
              | apply calm_extract_arg_names | apply calm_dict_update ]
      | intros ? ]
    | apply widening_bind;
      [ apply widening_extend_scope; try done | intros ? ] ].

Lemma widening_extend_generators (S : gset key) scope iterator_vars gens i :
  widening S scope [] (extend_generators scope iterator_vars gens i).
Proof.
  revert i. induction gens as [|gen gens IH]; intros i;
    cbn [extend_generators]; [by apply widening_ret|].
  do 10 widening_step.
  apply widening_bind; [apply IH|]. intros rest.
  apply widening_ret. set_solver.
Qed.

Lemma widening_extensions (S : gset key) PY3 t scope :
  (isinstance t "ClassDef" = true →
   ∀ n k, attr t "name" = Ok n → as_key n = Ok k → k ∉ S) →
  widening S scope [] (extensions PY3 t scope).
Proof.
  intros Hname. unfold extensions.
  apply widening_bind.
  { apply widening_if. intros _. unfold on_Lambda. do 3 widening_step.
    by apply widening_extend_scope. }
  intros e1. apply widening_bind.
  { apply widening_if. intros _. unfold on_comprehension. do 3 widening_step.
    apply widening_bind; [apply widening_extend_generators|]. intros es.
    apply widening_bind.
    - destruct (isinstance t "DictComp").
      + do 4 widening_step. apply widening_ret. set_solver.
      + widening_step. by apply widening_extend_scope.
    - intros es'. apply widening_ret. set_solver. }
  intros e2. apply widening_bind.
  { apply widening_if. intros _. unfold on_FunctionDef. do 13 widening_step.
    apply widening_ret. set_solver. }
  intros e3. apply widening_bind.
  { apply widening_if. intros HC. unfold on_ClassDef.
    widening_step. apply widening_lift_bind. intros name Hn.
    apply widening_bind.
    { apply widening_extend_scope. intros rems rem k [= <-] Hin Hk.
      apply list_elem_of_singleton in Hin as ->. eauto. }
    intros ea. do 4 widening_step.
    apply widening_lift_bind. intros name' Hn'.
    apply widening_bind.
    { apply widening_extend_scope. intros rems rem k [= <-] Hin Hk.
      apply list_elem_of_singleton in Hin as ->. eauto. }
    intros eb. apply widening_ret. set_solver. }
  intros e4. apply widening_bind.
  { apply widening_if. intros _. unfold on_ExceptHandler. destruct PY3.
    - do 4 widening_step. by apply widening_extend_scope.
    - do 5 widening_step. by apply widening_extend_scope. }
  intros e5. apply widening_bind.
  { apply widening_if. intros _. unfold on_For. do 4 widening_step.
    by apply widening_extend_scope. }
  intros e6. apply widening_bind.
  { apply widening_if. intros _. unfold on_With. do 4 widening_step.
    by apply widening_extend_scope. }
  intros e7. apply widening_ret. set_solver.
Qed.

(** No name is lost on the way down, but the name of a class in the class:
    the scope that [func] sets for a child has every name of the scope
    that the node is visited with, when the node is not a class definition;
    for a class definition it has every name but that of the class. *)
Theorem scope_names_kept (PY3 : bool) (t : tree) (scope : nat) (h : heap)
    (es : list (path * nat)) :
  (run (extensions PY3 t scope) h).2 = Ok es →
  (isinstance t "ClassDef" = false →
   Forall (λ e : path * nat,
             names h scope ⊆ names (run (extensions PY3 t scope) h).1 e.2) es)
  ∧ (∀ name, attr t "name" = Ok (TStr name) →
     Forall (λ e : path * nat,
               names h scope ∖ {[Some name]}
               ⊆ names (run (extensions PY3 t scope) h).1 e.2) es).
Proof.
  intros Hes. split.
  - intros HC.
    destruct (widening_extensions (names h scope) PY3 t scope) with (h := h)
      as [_ H]; [by rewrite HC|done|constructor|]. by apply H.
  - intros name Hname.
    destruct (widening_extensions (names h scope ∖ {[Some name]}) PY3 t scope)
      with (h := h) as [_ H]; [|set_solver|constructor|by apply H].
    intros _ n k. rewrite Hname. intros [= <-] [= <-]. set_solver.
Qed.

Lemma scope_names_kept_witness :
  Forall (λ e : path * nat,
            names [{[Some "xs" := Pass]}] 0
            ⊆ names (run (extensions true
                            (For (Name "i" Store) (Name "xs" Load) [Pass] [])
                            0) [{[Some "xs" := Pass]}]).1 e.2)
    [([SField "body"], 2%nat)].
Proof.
  apply (scope_names_kept true
           (For (Name "i" Store) (Name "xs" Load) [Pass] []) 0
           [{[Some "xs" := Pass]}] [([SField "body"], 2%nat)]);
    vm_compute; reflexivity.
Defined.

(** ** find_names and find_assignments *)

Section collect_plain.
Context {A : Type}.
(** A visitor that reads no context and sets none, walked by a plain
    [Walker]. *)
Variable func : tree → option () → result (visit A ()).
Hypothesis func_kw : ∀ t kw kw', func t kw = func t kw'.

Lemma recurse_collect_ctx t :
  ∀ sub_kw kw sub_kw' kw',
    recurse_collect (λ _ kw, mret kw) func t sub_kw kw
    = recurse_collect (λ _ kw, mret kw) func t sub_kw' kw'.
Proof.
  induction t as [cls fields IH|elts IH|s|n|] using tree_induction;
    intros sub_kw kw sub_kw' kw'; cbn [recurse_collect]; try done.
  - cbn [mbind result_bind mret result_ret].
    rewrite (func_kw _ kw kw').
    destruct (func (AST cls fields) kw') as [v|]; [|done].
    cbn [mbind result_bind]. destruct (stopped v); [done|].
    f_equal. generalize (sub_kw ++ ctx_for v) (sub_kw' ++ ctx_for v).
    intros s1 s2. induction IH as [|fv fields Hfv _ IHf]; [done|].
    rewrite (Hfv _ _ (descend (SField fv.1) s2)
               (specific (descend (SField fv.1) s2) kw')).
    destruct (recurse_collect _ _ fv.2 _ _); [|done].
    cbn [mbind result_bind]. by rewrite IHf.
  - cbn [mbind result_bind mret result_ret]. generalize 0%nat.
    induction IH as [|t' elts Ht' _ IHe]; intros i; [done|].
    rewrite (Ht' _ _ (descend (SIndex i) sub_kw')
               (specific (descend (SIndex i) sub_kw') kw')).
    destruct (recurse_collect _ _ t' _ _); [|done].
    cbn [mbind result_bind]. by rewrite IHe.
Qed.

Lemma collect_TList (elts : list tree) :
  collect (λ _ kw, mret kw) func (TList elts)
  = (ls ← mapM (collect (λ _ kw, mret kw) func) elts; mret (concat ls)).
Proof.
  unfold collect at 1. cbn [recurse_collect].
  cbn [mbind result_bind mret result_ret]. generalize 0%nat.
  induction elts as [|t elts IH]; intros i; [done|].
  rewrite (recurse_collect_ctx t _ _ [] None). fold (collect (λ _ kw, mret kw) func t).
  cbn [mapM]. destruct (collect _ func t) as [l|]; [|done].
  cbn [mbind result_bind]. rewrite IH.
  destruct (mapM _ elts) as [ls|]; done.
Qed.

Lemma collect_AST cls (fields : list (string * tree)) :
  collect (λ _ kw, mret kw) func (AST cls fields)
  = (v ← func (AST cls fields) None;
     if stopped v then mret (collected v)
     else
       ls ← mapM (λ fv : string * tree,
                    collect (λ _ kw, mret kw) func fv.2) fields;
       mret (collected v ++ concat ls)).
Proof.
  unfold collect at 1. cbn [recurse_collect].
  cbn [mbind result_bind mret result_ret].
  destruct (func (AST cls fields) None) as [v|]; [|done].
  cbn [mbind result_bind]. destruct (stopped v); [done|].
  generalize ([] ++ ctx_for v). intros s.
  assert ((fix walk_children (fs : list (string * tree))
             : result (list A) :=
             match fs with
             | [] => mret []
             | fv :: fs' =>
                 new_aggregate ←
                   recurse_collect (λ _ kw, mret kw) func fv.2
                     (descend (SField fv.1) s)
                     (specific (descend (SField fv.1) s) None);
                 rest ← walk_children fs';
                 mret (new_aggregate ++ rest)
             end) fields
          = (ls ← mapM (λ fv : string * tree,
                          collect (λ _ kw, mret kw) func fv.2) fields;
             mret (concat ls))) as ->.
  { induction fields as [|fv fields IH]; [done|].
    rewrite (recurse_collect_ctx fv.2 _ _ [] None).
    fold (collect (λ _ kw, mret kw) func fv.2).
    cbn [mapM]. destruct (collect _ func fv.2) as [l|]; [|done].
    cbn [mbind result_bind]. rewrite IH.
    destruct (mapM _ fields) as [ls|]; done. }
  destruct (mapM _ fields) as [ls|]; done.
Qed.

Lemma collect_other (t : tree) :
  (∀ cls fields, t ≠ AST cls fields) → (∀ elts, t ≠ TList elts) →
  collect (λ _ kw, mret kw) func t = Ok [].
Proof. intros H1 H2. destruct t; try done; [by edestruct H1|by edestruct H2]. Qed.

Lemma collect_Forall (P : A → Prop) :
  (∀ t kw v, func t kw = Ok v → Forall P (collected v)) →
  ∀ t l, collect (λ _ kw, mret kw) func t = Ok l → Forall P l.
Proof.
  intros Hf t.
  induction t as [cls fields IH|elts IH|s|n|] using tree_induction; intros l;
    try (by intros [= <-]).
  - rewrite collect_AST.
    destruct (func (AST cls fields) None) as [v|] eqn:Ev; [|done].
    apply Hf in Ev. cbn [mbind result_bind].
    destruct (stopped v); [by intros [= <-]|].
    destruct (mapM _ fields) as [ls|] eqn:Em; [|done]. intros [= <-].
    apply Forall_app. split; [done|]. clear Ev.
    revert ls Em. induction IH as [|fv fields Hfv _ IHf]; intros ls.
    + by intros [= <-].
    + cbn [mapM]. destruct (collect _ func fv.2) as [l1|] eqn:E1; [|done].
      cbn [mbind result_bind]. destruct (mapM _ fields) as [ls'|]; [|done].
      intros [= <-]. simpl. apply Forall_app. split; [by apply Hfv|].
      by apply IHf.
  - rewrite collect_TList. destruct (mapM _ elts) as [ls|] eqn:Em; [|done].
    intros [= <-]. revert ls Em.
    induction IH as [|t' elts Ht' _ IHe]; intros ls.
    + by intros [= <-].
    + cbn [mapM]. destruct (collect _ func t') as [l1|] eqn:E1; [|done].
      cbn [mbind result_bind]. destruct (mapM _ elts) as [ls'|]; [|done].
      intros [= <-]. simpl. apply Forall_app. split; [by apply Ht'|].
      by apply IHe.
Qed.
End collect_plain.

Lemma find_names_func_kw t kw kw' : find_names_func t kw = find_names_func t kw'.
Proof. done. Qed.

Lemma find_assignments_func_kw t kw kw' :
  find_assignments_func t kw = find_assignments_func t kw'.
Proof. done. Qed.

Lemma find_names_entries t l :
  find_names t = Ok l →
  Forall (λ p : tree * tree,
            isinstance p.2 "Name" = true ∧ attr p.2 "id" = Ok p.1) l.
Proof.
  apply (collect_Forall find_names_func find_names_func_kw).
  intros t' kw v. unfold find_names_func.
  destruct (isinstance t' "Name") eqn:EN.
  - destruct (attr t' "id") as [id|] eqn:Eid; [|done]. intros [= <-].
    by repeat constructor.
  - intros [= <-]. constructor.
Qed.

(** [find_names] collects a pair for every [Name] node that the walk
    reaches, the value of its [id] and the node, in the order of the walk;
    it collects nothing from an attribute or a subscript, and what it
    collects from a list or from a node of another class is what it
    collects from the elements or from the fields, joined in order. *)
Theorem find_names_collects :
  (∀ t l, find_names t = Ok l →
     Forall (λ p : tree * tree,
               isinstance p.2 "Name" = true ∧ attr p.2 "id" = Ok p.1) l)
  ∧ (∀ cls fields, cls = "Attribute" ∨ cls = "Subscript" →
       find_names (AST cls fields) = Ok [])
  ∧ (∀ id, find_names (Name id Load) = Ok [(TStr id, Name id Load)]
           ∧ find_names (Name id Store) = Ok [(TStr id, Name id Store)])
  ∧ (∀ elts, find_names (TList elts)
             = (ls ← mapM find_names elts; mret (concat ls)))
  ∧ (∀ cls fields, cls ∉ ["Attribute"; "Subscript"; "Name"] →
       find_names (AST cls fields)
       = (ls ← mapM (λ fv : string * tree, find_names fv.2) fields;
          mret (concat ls))).
Proof.
  split; [exact find_names_entries|]. split; [|split; [|split]].
  - intros cls fields [-> | ->]; reflexivity.
  - intros id. split; reflexivity.
  - apply (collect_TList find_names_func find_names_func_kw).
  - intros cls fields Hcls. unfold find_names.
    rewrite (collect_AST find_names_func find_names_func_kw).
    unfold find_names_func. simpl.
    rewrite !bool_decide_false by set_solver. simpl.
    by destruct (mapM _ fields).
Qed.

Lemma find_assignments_entries t l :
  find_assignments t = Ok l →
  Forall (λ p : tree * tree,
            (isinstance p.2 "ClassDef" || isinstance p.2 "FunctionDef" = true
             ∧ attr p.2 "name" = Ok p.1)
            ∨ (isinstance p.2 "Name" = true ∧ attr p.2 "id" = Ok p.1)) l.
Proof.
  apply (collect_Forall find_assignments_func find_assignments_func_kw).
  intros t' kw v. unfold find_assignments_func.
  destruct (isinstance t' "ClassDef" || isinstance t' "FunctionDef") eqn:ED.
  - destruct (attr t' "name") as [name|] eqn:En; [|done]. simpl.
    destruct (isinstance t' "Assign").
    + destruct (attr t' "targets") as [targets|]; [|done]. simpl.
      destruct (find_names targets) as [c2|] eqn:Ef; [|done]. intros [= <-].
      constructor; [left; split; [exact ED|exact En]|].
      apply find_names_entries in Ef. eapply Forall_impl; [exact Ef|].
      intros p Hp. by right.
    + intros [= <-]. constructor; [left; split; [exact ED|exact En]|constructor].
  - simpl. destruct (isinstance t' "Assign").
    + destruct (attr t' "targets") as [targets|]; [|done]. simpl.
      destruct (find_names targets) as [c2|] eqn:Ef; [|done]. intros [= <-].
      simpl. apply find_names_entries in Ef. eapply Forall_impl; [exact Ef|].
      intros p Hp. by right.
    + intros [= <-]. constructor.
Qed.

(** [find_assignments] collects the bindings that a block hoists: for a
    function or a class its name and its node, and nothing from inside it;
    for an assignment the names that [find_names] collects from its
    targets; for the other statements, compound ones as well, what their
    parts hoist.  Every pair that it collects holds a name and the node
    that binds the name. *)
Theorem find_assignments_hoists :
  (∀ t l, find_assignments t = Ok l →
     Forall (λ p : tree * tree,
               (isinstance p.2 "ClassDef" || isinstance p.2 "FunctionDef"
                = true
                ∧ attr p.2 "name" = Ok p.1)
               ∨ (isinstance p.2 "Name" = true ∧ attr p.2 "id" = Ok p.1)) l)
  ∧ (∀ cls fields name,
       cls = "ClassDef" ∨ cls = "FunctionDef" →
       attr (AST cls fields) "name" = Ok name →
       find_assignments (AST cls fields) = Ok [(name, AST cls fields)])
  ∧ (∀ targets value,
       find_assignments (Assign targets value)
       = (names ← find_names (TList targets);
          below ← find_assignments (TList targets);
          inside ← find_assignments value;
          mret (names ++ below ++ inside)))
  ∧ (∀ elts, find_assignments (TList elts)
             = (ls ← mapM find_assignments elts; mret (concat ls)))
  ∧ (∀ cls fields, cls ∉ ["ClassDef"; "FunctionDef"; "Assign"] →
       find_assignments (AST cls fields)
       = (ls ← mapM (λ fv : string * tree, find_assignments fv.2) fields;
          mret (concat ls))).
Proof.
  split; [exact find_assignments_entries|]. split; [|split; [|split]].
  - intros cls fields name Hcls Hname. unfold find_assignments.
    rewrite (collect_AST find_assignments_func find_assignments_func_kw).
    unfold find_assignments_func. rewrite Hname.
    by destruct Hcls as [-> | ->].
  - intros targets value. unfold find_assignments, Assign.
    rewrite (collect_AST find_assignments_func find_assignments_func_kw).
    change (find_assignments_func
              (AST "Assign" [("targets", TList targets); ("value", value)])
              None)
      with (c2 ← find_names (TList targets);
            Ok (Visit ([] ++ c2) false ([] : list (path * ())))).
    destruct (find_names (TList targets)) as [names|]; [|done].
    cbn [mbind result_bind mret result_ret stopped collected mapM snd app].
    destruct (collect _ find_assignments_func (TList targets)) as [below|];
      [|done].
    cbn [mbind result_bind].
    destruct (collect _ find_assignments_func value) as [inside|]; [|done].
    cbn [mbind result_bind mret result_ret concat]. by rewrite app_nil_r.
  - apply (collect_TList find_assignments_func find_assignments_func_kw).
  - intros cls fields Hcls. unfold find_assignments.
    rewrite (collect_AST find_assignments_func find_assignments_func_kw).
    unfold find_assignments_func. simpl.
    rewrite !bool_decide_false by set_solver. simpl.
    by destruct (mapM _ fields).
Qed.

End AnalysisFacts.

(** * Properties of the rewriting of if statements *)

Section RewritingFacts.
Import Analysis Rewriting.

(** ** The recursion of _rewrite_if *)

Lemma max_list_elem_of_le (n : nat) (l : list nat) :
  n ∈ l → (n ≤ max_list l)%nat.
Proof.
  induction l as [|m l IH]; simpl; [by intros ?%elem_of_nil|].
  intros [->|Hin]%elem_of_cons; [lia|]. specialize (IH Hin). lia.
Qed.

Lemma height_attr t f v : attr t f = Ok v → (height v < height t)%nat.
Proof.
  destruct t as [cls fields| | | |]; simpl; try done.
  destruct (assoc f fields) as [x|] eqn:E; [|done]. intros [= ->].
  apply assoc_elem_of in E. apply Nat.lt_succ_r, max_list_elem_of_le.
  apply list_elem_of_fmap. by exists (f, v).
Qed.

Lemma height_chars s x : x ∈ chars s → height x = 0%nat.
Proof.
  induction s as [|c s IH]; simpl; [by intros ?%elem_of_nil|].
  intros [->|Hin]%elem_of_cons; [done|auto].
Qed.

Lemma height_iter t elts x :
  iter t = Ok elts → x ∈ elts → (height x ≤ height t)%nat.
Proof.
  destruct t as [|l|s| |]; simpl; try done; intros [= <-] Hin.
  - apply Nat.lt_le_incl, Nat.lt_succ_r, max_list_elem_of_le.
    by apply list_elem_of_fmap_2.
  - by rewrite (height_chars s x).
Qed.

Section rewrite_if_facts.
Variable hq : tree.

Lemma _rewrite_if_body_ext (f g : tree → option string → result tree) t v :
  (∀ x, (height x < height t)%nat → f x v = g x v) →
  _rewrite_if_body hq f t v = _rewrite_if_body hq g t v.
Proof.
  intros Hfg. unfold _rewrite_if_body.
  destruct (negb (isinstance t "If")); [done|].
  match goal with
  | |- mbind _ ?c = mbind _ ?c => destruct c as [[test|]|e]; try done
  end.
  simpl. destruct (attr t "orelse") as [orelse|] eqn:Eo; [|done]. simpl.
  destruct (attr t "body") as [body|]; [|done]. simpl.
  destruct (list_add _ body) as [try_body|]; [|done]. simpl.
  destruct (iter orelse) as [elts|] eqn:Ei; [|done]. simpl.
  destruct elts as [|stmt [|stmt2 elts]]; try done.
  rewrite Hfg; [done|].
  eapply Nat.le_lt_trans; [|by eapply height_attr].
  eapply height_iter; [done|]. by left.
Qed.

Lemma _rewrite_if_within_enough n m t v :
  (height t < n)%nat → (height t < m)%nat →
  _rewrite_if_within hq n t v = _rewrite_if_within hq m t v.
Proof.
  revert m t. induction n as [|n IH]; intros m t Hn Hm; [lia|].
  destruct m as [|m]; [lia|]. simpl.
  apply _rewrite_if_body_ext. intros x Hx. apply IH; lia.
Qed.

(** [_rewrite_if] is the function that its body defines: the bound on the
    depth is never met. *)
Lemma _rewrite_if_unfold t v :
  _rewrite_if hq t v = _rewrite_if_body hq (_rewrite_if hq) t v.
Proof.
  unfold _rewrite_if at 1. simpl. apply _rewrite_if_body_ext.
  intros x Hx. unfold _rewrite_if. apply _rewrite_if_within_enough; lia.
Qed.

(** ** What _rewrite_if returns *)

Lemma _is_pattern_match_expr_true test :
  _is_pattern_match_expr test = Ok true ↔
  isinstance test "BinOp" = true
  ∧ ∃ op, attr test "op" = Ok op ∧ isinstance op "LShift" = true.
Proof.
  unfold _is_pattern_match_expr. destruct (isinstance test "BinOp").
  - destruct (attr test "op") as [op|]; simpl.
    + split; [intros [= Hop]; eauto|]. by intros (_ & op' & [= <-] & ->).
    + split; [done|]. by intros (_ & op' & ? & _).
  - split; [done|]. by intros [? _].
Qed.

Lemma _is_pattern_match_stmt_Expr x :
  _is_pattern_match_stmt (Expr x) = _is_pattern_match_expr x.
Proof. done. Qed.

Lemma test_under_pattern v test :
  (∃ s, v = Some s ∧ s ≠ "") ∨ _is_pattern_match_expr test = Ok true →
  _is_pattern_match_expr (test_under v test) = Ok true.
Proof.
  unfold test_under. destruct v as [s|]; [|by intros [(? & ? & _)|]].
  case_bool_decide; [by intros [(? & [= <-] & ?)|]|done].
Qed.

Lemma _rewrite_if_Ok t v r :
  _rewrite_if hq t v = Ok r →
  (r = t ∧ ¬ rewritten t v)
  ∨ (rewritten t v
     ∧ ∃ test body orelse elts hbody,
         attr t "test" = Ok test ∧ attr t "body" = Ok (TList body)
         ∧ attr t "orelse" = Ok orelse ∧ iter orelse = Ok elts
         ∧ r = try_arm hq (test_under v test) body hbody
         ∧ match elts with
           | [stmt] => ∃ stmt', _rewrite_if hq stmt v = Ok stmt'
                                ∧ hbody = TList [stmt']
           | [] => hbody = TList [Pass]
           | _ => hbody = orelse
           end).
Proof.
  rewrite _rewrite_if_unfold. unfold _rewrite_if_body, rewritten.
  destruct (isinstance t "If") eqn:EIf; simpl;
    [|intros [= <-]; left; split; [done|by intros [? _]]].
  assert (∀ test',
    (match v with
     | Some s =>
         if bool_decide (s = "")
         then test ← attr t "test";
              (if isinstance test "BinOp"
               then op ← attr test "op";
                    mret (if isinstance op "LShift" then Some test else None)
               else mret None)
         else test ← attr t "test";
              mret (Some (BinOp test LShift (Name s Load)))
     | None =>
         test ← attr t "test";
         (if isinstance test "BinOp"
          then op ← attr test "op";
               mret (if isinstance op "LShift" then Some test else None)
          else mret None)
     end) = Ok test' →
    match test' with
    | Some x =>
        ∃ test, attr t "test" = Ok test ∧ x = test_under v test
                ∧ ((∃ s, v = Some s ∧ s ≠ "")
                   ∨ _is_pattern_match_expr test = Ok true)
    | None =>
        ¬ ((∃ s, v = Some s ∧ s ≠ "")
           ∨ ∃ test, attr t "test" = Ok test
                     ∧ _is_pattern_match_expr test = Ok true)
    end) as Htest.
  { intros test'. unfold test_under.
    assert (∀ (own : result (option tree)),
      own = (test ← attr t "test";
             (if isinstance test "BinOp"
              then op ← attr test "op";
                   mret (if isinstance op "LShift" then Some test else None)
              else mret None)) →
      own = Ok test' →
      match test' with
      | Some x => ∃ test, attr t "test" = Ok test ∧ x = test
                          ∧ _is_pattern_match_expr test = Ok true
      | None => ¬ ∃ test, attr t "test" = Ok test
                          ∧ _is_pattern_match_expr test = Ok true
      end) as Hown.
    { intros own ->. unfold _is_pattern_match_expr.
      destruct (attr t "test") as [test|]; [|done]. simpl.
      destruct (isinstance test "BinOp") eqn:EB.
      - destruct (attr test "op") as [op|] eqn:Eop; [|done]. simpl.
        destruct (isinstance op "LShift") eqn:EL; intros [= <-].
        + exists test. split; [done|]. split; [done|].
          rewrite EB, Eop. simpl. by rewrite EL.
        + intros (test' & [= <-] & H). rewrite EB, Eop in H. simpl in H.
          by rewrite EL in H.
      - intros [= <-]. intros (test' & [= <-] & H). by rewrite EB in H. }
    destruct v as [s|].
    - case_bool_decide as Hs.
      + intros H. specialize (Hown _ eq_refl H). destruct test' as [x|].
        * destruct Hown as (test & ? & ? & ?). exists test. eauto.
        * intros [(s' & [= <-] & ?)|?]; [done|]. by apply Hown.
      + destruct (attr t "test") as [test|]; [|done]. simpl. intros [= <-].
        exists test. split; [done|]. split; [done|]. left. eauto.
    - intros H. specialize (Hown _ eq_refl H). destruct test' as [x|].
      * destruct Hown as (test & ? & ? & ?). exists test. eauto.
      * intros [(s' & ? & ?)|?]; [done|]. by apply Hown. }
  match goal with
  | |- mbind _ ?c = _ → _ =>
      destruct c as [test'|] eqn:Et; [|done]; specialize (Htest _ eq_refl)
  end.
  simpl. destruct test' as [x|];
    [|intros [= <-]; left; split; [done|by intros [_ ?]]].
  destruct Htest as (test & Hattr & -> & Hpat).
  destruct (attr t "orelse") as [orelse|] eqn:Eo; [|done]. simpl.
  destruct (attr t "body") as [body|] eqn:Eb; [|done]. simpl.
  destruct body as [|body| | |]; try done. simpl.
  destruct (iter orelse) as [elts|] eqn:Ei; [|done]. simpl.
  intros Hr. right. split.
  { split; [done|]. destruct Hpat as [?|?]; [by left|right; eauto]. }
  exists test, body, orelse, elts.
  destruct elts as [|stmt [|stmt2 elts]].
  - injection Hr as <-. by eexists.
  - destruct (_rewrite_if hq stmt v) as [stmt'|] eqn:Es; [|done].
    injection Hr as <-. eexists. repeat (split; [done|]). by exists stmt'.
  - injection Hr as <-. by eexists.
Qed.

Lemma _rewrite_if_not_If t v :
  isinstance t "If" = false → _rewrite_if hq t v = Ok t.
Proof.
  intros H. rewrite _rewrite_if_unfold. unfold _rewrite_if_body. by rewrite H.
Qed.

Lemma _rewrite_if_If v test body orelse :
  (∃ s, v = Some s ∧ s ≠ "") ∨ _is_pattern_match_expr test = Ok true →
  _rewrite_if hq (If test body orelse) v
  = (handler_body ←
       match orelse with
       | [stmt] => stmt' ← _rewrite_if hq stmt v; mret (TList [stmt'])
       | [] => mret (TList [Pass])
       | _ => mret (TList orelse)
       end;
     mret (try_arm hq (test_under v test) body handler_body)).
Proof.
  intros Hpat. rewrite _rewrite_if_unfold. unfold _rewrite_if_body.
  change (isinstance (If test body orelse) "If") with true. cbn [negb].
  change (attr (If test body orelse) "test") with (Ok test).
  change (attr (If test body orelse) "orelse") with (Ok (TList orelse)).
  change (attr (If test body orelse) "body") with (Ok (TList body)).
  assert ((test0 ← Ok test;
           (if isinstance test0 "BinOp"
            then op ← attr test0 "op";
                 mret (if isinstance op "LShift" then Some test0 else None)
            else mret None)) = Ok (Some test)
          ∨ ∃ s, v = Some s ∧ s ≠ "") as Hown.
  { destruct Hpat as [?|Hp]; [by right|left].
    apply _is_pattern_match_expr_true in Hp as (HB & op & Hop & HL).
    simpl. rewrite HB, Hop. simpl. by rewrite HL. }
  assert (match v with
          | Some s =>
              if bool_decide (s = "")
              then test0 ← Ok test;
                   (if isinstance test0 "BinOp"
                    then op ← attr test0 "op";
                         mret (if isinstance op "LShift"
                               then Some test0 else None)
                    else mret None)
              else test0 ← Ok test;
                   mret (Some (BinOp test0 LShift (Name s Load)))
          | None =>
              test0 ← Ok test;
              (if isinstance test0 "BinOp"
               then op ← attr test0 "op";
                    mret (if isinstance op "LShift" then Some test0 else None)
               else mret None)
          end = Ok (Some (test_under v test))) as ->.
  { unfold test_under. destruct v as [s|].
    - case_bool_decide as Hs; [|done].
      destruct Hown as [->|(s' & [= <-] & ?)]; done.
    - destruct Hown as [->|(s' & ? & ?)]; done. }
  cbn [mbind result_bind list_add iter app].
  by destruct orelse as [|stmt [|stmt2 orelse]].
Qed.

(** [_rewrite_if] leaves what it returns as it is: the statement that
    stands for a pattern [if] is a [try], and a second call rewrites
    nothing. *)
Theorem rewrite_if_idempotent (t : tree) (v : option string) (r : tree) :
  _rewrite_if hq t v = Ok r →
  _rewrite_if hq r v = Ok r ∧ ¬ rewritten r v.
Proof.
  intros H.
  destruct (_rewrite_if_Ok _ _ _ H)
    as [[-> Hn]|(_ & test & body & orelse & elts & hbody & _ & _ & _ & _
                 & -> & _)]; [done|].
  split; [by apply _rewrite_if_not_If|]. by intros [? _].
Qed.

(** An [if] that is taken for a pattern match becomes a [try] statement:
    its body starts with the block [with _matching:] that holds the test,
    a statement that [_matching] recognises as a pattern match, and goes on
    with the statements of the body of the [if]; the body of its one
    handler is never empty, and an [else] branch of two statements or more
    is carried over as it is. *)
Theorem rewrite_if_arm (t : tree) (v : option string) (r : tree) :
  rewritten t v → _rewrite_if hq t v = Ok r →
  ∃ test body hbody,
    attr t "test" = Ok test ∧ attr t "body" = Ok (TList body)
    ∧ r = try_arm hq (test_under v test) body hbody
    ∧ _is_pattern_match_stmt (Expr (test_under v test)) = Ok true
    ∧ truthy hbody = true
    ∧ (∀ orelse, attr t "orelse" = Ok (TList orelse) →
         (2 ≤ length orelse)%nat → hbody = TList orelse).
Proof.
  intros Hrw H.
  destruct (_rewrite_if_Ok _ _ _ H)
    as [[_ Hn]|(_ & test & body & orelse & elts & hbody & Htest & Hbody
                & Horelse & Hiter & -> & Hh)]; [done|].
  exists test, body, hbody. repeat (split; [done|]).
  split; [|split].
  - rewrite _is_pattern_match_stmt_Expr. apply test_under_pattern.
    destruct Hrw as [_ [?|(test' & Ht' & ?)]]; [by left|right].
    by rewrite Htest in Ht'; injection Ht' as <-.
  - destruct elts as [|stmt [|stmt2 elts]].
    + by subst hbody.
    + by destruct Hh as (stmt' & _ & ->).
    + subst hbody. destruct orelse as [|l|s| |]; simplify_eq/=; [done|].
      by destruct s.
  - intros orelse' Ho Hlen. rewrite Horelse in Ho. injection Ho as ->.
    simpl in Hiter. injection Hiter as <-.
    by destruct orelse' as [|stmt [|stmt2 elts]]; simpl in Hlen; try lia.
Qed.

(** A chain [if .. elif .. else ..] of pattern matches becomes a nest of [try]
    statements, one for each arm and each in the handler of the one
    before; the statements of the last [else] branch come last, with [pass]
    in their place when there are none. *)
Theorem rewrite_if_chain (v : option string) (arms : list (tree * list tree))
    (final : list tree) (test : tree) (body : list tree) :
  Forall (λ arm : tree * list tree,
            (∃ s, v = Some s ∧ s ≠ "")
            ∨ _is_pattern_match_expr arm.1 = Ok true) ((test, body) :: arms) →
  (∀ stmt, final = [stmt] → isinstance stmt "If" = false) →
  _rewrite_if hq (If test body (elif_chain arms final)) v
  = Ok (try_arm hq (test_under v test) body
          (TList (try_chain hq v arms final))).
Proof.
  intros Harms Hfinal. revert test body Harms.
  induction arms as [|[test2 body2] arms IH]; intros test body Harms;
    apply Forall_cons in Harms as [Hpat Harms]; rewrite _rewrite_if_If by done.
  - simpl. destruct final as [|stmt [|stmt2 final]]; [done| |done].
    by rewrite _rewrite_if_not_If by auto.
  - cbn [elif_chain try_chain]. by rewrite IH.
Qed.

Lemma mapM_result_Ok {A B} (f : A → result B) (l : list A) (l' : list B) :
  mapM f l = Ok l' → Forall2 (λ x y, f x = Ok y) l l'.
Proof.
  revert l'. induction l as [|x l IH]; intros l'; simpl.
  - intros [= <-]. constructor.
  - unfold mbind, result_bind. destruct (f x) as [y|] eqn:E; [|done].
    destruct (mapM f l) as [ys|]; [|done]. intros [= <-].
    constructor; [done|]. by apply IH.
Qed.

Lemma _rewrite_if_named new_id stmt stmt' :
  new_id ≠ "" → _rewrite_if hq stmt (Some new_id) = Ok stmt' →
  (isinstance stmt "If" = false ∧ stmt' = stmt)
  ∨ (isinstance stmt "If" = true
     ∧ ∃ test body hbody,
         attr stmt "test" = Ok test ∧ attr stmt "body" = Ok (TList body)
         ∧ stmt' = try_arm hq (BinOp test LShift (Name new_id Load))
                     body hbody).
Proof.
  intros Hid H.
  destruct (_rewrite_if_Ok _ _ _ H)
    as [[-> Hn]|([HIf _] & test & body & orelse & elts & hbody & Htest & Hbody
                 & _ & _ & -> & _)].
  - left. split; [|done]. destruct (isinstance stmt "If") eqn:E; [|done].
    exfalso. apply Hn. split; [done|]. left. eauto.
  - right. split; [done|]. exists test, body, hbody.
    repeat (split; [done|]). unfold test_under.
    by rewrite bool_decide_false.
Qed.

(** [switch] puts the assignment of its argument to a new name first, and
    goes through the statements of its block one by one: a statement that
    is not an [if] stays as it is, and an [if] becomes the [try] statement
    that matches its test against the new name.  No [if] is left among the
    statements of the block; what is inside them is not looked at.  Without
    an argument [switch] does not return. *)
Theorem switch_rewrites_top_level (new_id : string) (tree args : list tree)
    (arg0 : Analysis.tree) (out : list Analysis.tree) :
  new_id ≠ "" →
  switch hq new_id tree (arg0 :: args) = Block out →
  (∀ out', switch hq new_id tree [] ≠ Block out')
  ∧ ∃ tree',
      out = Assign [Name new_id Store] arg0 :: tree'
      ∧ length tree' = length tree
      ∧ Forall (λ stmt', isinstance stmt' "If" = false) tree'
      ∧ ∀ i stmt, tree !! i = Some stmt →
          ∃ stmt', tree' !! i = Some stmt'
            ∧ (isinstance stmt "If" = false → stmt' = stmt)
            ∧ (isinstance stmt "If" = true →
               ∃ test body hbody,
                 attr stmt "test" = Ok test
                 ∧ attr stmt "body" = Ok (TList body)
                 ∧ stmt' = try_arm hq (BinOp test LShift (Name new_id Load))
                             body hbody).
Proof.
  intros Hid. unfold switch.
  destruct (mapM _ tree) as [tree'|e] eqn:Em; [|done]. intros [= <-].
  split; [done|]. exists tree'. split; [done|].
  apply mapM_result_Ok in Em. split; [symmetry; by eapply Forall2_length|].
  split.
  - eapply Forall2_Forall_r; [exact Em|]. apply Forall_true.
    intros stmt stmt' Hr.
    by destruct (_rewrite_if_named _ _ _ Hid Hr)
      as [[? ->]|(_ & test & body & hbody & _ & _ & ->)].
  - intros i stmt Hi.
    destruct (Forall2_lookup_l _ _ _ _ _ Em Hi) as (stmt' & Hi' & Hr).
    exists stmt'. split; [done|].
    destruct (_rewrite_if_named _ _ _ Hid Hr) as [[HIf ->]|[HIf Hshape]];
      rewrite HIf; split; done.
Qed.

Lemma mapM_result_id {A} (f : A → result A) (l : list A) :
  Forall (λ x, f x = Ok x) l → mapM f l = Ok l.
Proof. induction 1 as [|x l Hx _ IH]; simpl; [done|]. by rewrite Hx, IH. Qed.

(** A block without an [if] among its statements comes back from
    [switch] as it is, behind the assignment. *)
Lemma switch_no_if new_id tree arg0 args :
  Forall (λ stmt, isinstance stmt "If" = false) tree →
  switch hq new_id tree (arg0 :: args)
  = Block (Assign [Name new_id Store] arg0 :: tree).
Proof.
  intros H. unfold switch. rewrite mapM_result_id; [done|].
  eapply Forall_impl; [exact H|]. intros stmt. apply _rewrite_if_not_If.
Qed.
End rewrite_if_facts.

Lemma rewrite_if_idempotent_witness :
  _rewrite_if (Name "PatternMatchException" Load)
    (try_arm (Name "PatternMatchException" Load)
       (BinOp (Name "a" Load) LShift (Name "x" Load)) [Pass] (TList [Pass]))
    None
  = Ok (try_arm (Name "PatternMatchException" Load)
          (BinOp (Name "a" Load) LShift (Name "x" Load)) [Pass]
          (TList [Pass])).
Proof.
  apply (rewrite_if_idempotent (Name "PatternMatchException" Load)
           (If (BinOp (Name "a" Load) LShift (Name "x" Load)) [Pass] [])
           None).
  vm_compute. reflexivity.
Defined.

Lemma rewrite_if_arm_witness :
  ∃ test body hbody,
    attr (If (BinOp (Name "a" Load) LShift (Name "x" Load)) [Pass]
            [Pass; Pass]) "test" = Ok test
    ∧ attr (If (BinOp (Name "a" Load) LShift (Name "x" Load)) [Pass]
              [Pass; Pass]) "body" = Ok (TList body)
    ∧ try_arm (Name "PatternMatchException" Load)
        (BinOp (Name "a" Load) LShift (Name "x" Load)) [Pass]
        (TList [Pass; Pass])
      = try_arm (Name "PatternMatchException" Load) (test_under None test)
          body hbody
    ∧ truthy hbody = true.
Proof.
  destruct (rewrite_if_arm (Name "PatternMatchException" Load)
              (If (BinOp (Name "a" Load) LShift (Name "x" Load)) [Pass]
                 [Pass; Pass])
              None
              (try_arm (Name "PatternMatchException" Load)
                 (BinOp (Name "a" Load) LShift (Name "x" Load)) [Pass]
                 (TList [Pass; Pass])))
    as (test & body & hbody & H1 & H2 & H3 & _ & H5 & _).
  - split; [reflexivity|]. right.
    exists (BinOp (Name "a" Load) LShift (Name "x" Load)).
    split; reflexivity.
  - vm_compute. reflexivity.
  - exists test, body, hbody. repeat split; assumption.
Defined.

Lemma rewrite_if_chain_witness :
  _rewrite_if (Name "PatternMatchException" Load)
    (If (Num 1) [Pass] (elif_chain [(Name "b" Load, [Pass])] [])) (Some "x")
  = Ok (try_arm (Name "PatternMatchException" Load)
          (test_under (Some "x") (Num 1)) [Pass]
          (TList (try_chain (Name "PatternMatchException" Load) (Some "x")
                    [(Name "b" Load, [Pass])] []))).
Proof.
  apply (rewrite_if_chain (Name "PatternMatchException" Load) (Some "x")
           [(Name "b" Load, [Pass])] [] (Num 1) [Pass]).
  - constructor; [left; by exists "x"|].
    constructor; [left; by exists "x"|constructor].
  - intros stmt [=].
Defined.

Lemma switch_rewrites_top_level_witness :
  ∃ tree',
    [Assign [Name "sym0" Store] (Name "x" Load);
     try_arm (Name "PatternMatchException" Load)
       (BinOp (Num 1) LShift (Name "sym0" Load)) [Pass] (TList [Pass]);
     Pass]
    = Assign [Name "sym0" Store] (Name "x" Load) :: tree'
    ∧ length tree' = 2%nat
    ∧ Forall (λ stmt', isinstance stmt' "If" = false) tree'.
Proof.
  destruct (switch_rewrites_top_level (Name "PatternMatchException" Load)
              "sym0" [If (Num 1) [Pass] []; Pass] [] (Name "x" Load)
              [Assign [Name "sym0" Store] (Name "x" Load);
               try_arm (Name "PatternMatchException" Load)
                 (BinOp (Num 1) LShift (Name "sym0" Load)) [Pass]
                 (TList [Pass]);
               Pass])
    as (_ & tree' & H1 & H2 & H3 & _).
  - done.
  - vm_compute. reflexivity.
  - exists tree'. repeat split; assumption.
Defined.

End RewritingFacts.

(** * Properties of build_matcher *)

Section BuildingFacts.
Import Analysis Rewriting Building.

(** ** The recursion of build_matcher *)

Lemma build_bind {A C} (c : B A) (k : A → B C) modified :
  build (c ≫= k) modified
  = match build c modified with
    | (modified', Built a) => build (k a) modified'
    | (modified', Raised e) => (modified', Raised e)
    | (modified', Unrecognized t) => (modified', Unrecognized t)
    end.
Proof. done. Qed.

Lemma build_bind_ext {A C} (c : B A) (k k' : A → B C) modified :
  (∀ a modified', build c modified = (modified', Built a) →
     build (k a) modified' = build (k' a) modified') →
  build (c ≫= k) modified = build (c ≫= k') modified.
Proof.
  intros Hk. rewrite !build_bind.
  destruct (build c modified) as [modified' [a| |]]; auto.
Qed.

Lemma build_read_bind {A C} (r : result A) (k : A → B C) modified :
  build (read r ≫= k) modified
  = match r with
    | Ok a => build (k a) modified
    | Raise e => (modified, Raised e)
    end.
Proof. by destruct r. Qed.

Lemma build_mapM_ext {A C} (f g : A → B C) (l : list A) modified :
  (∀ x modified', x ∈ l → build (f x) modified' = build (g x) modified') →
  build (mapM f l) modified = build (mapM g l) modified.
Proof.
  revert modified. induction l as [|x l IH]; intros modified Hfg; [done|].
  cbn [mapM]. rewrite !build_bind, Hfg by (by left).
  destruct (build (g x) modified) as [modified' [y| |]]; [|done..].
  rewrite !build_bind, IH by (intros; apply Hfg; by right). done.
Qed.

Section build_matcher_facts.
Variables (hqu hqa : tree → tree) (hqw : tree) (hqn : tree → tree).

Lemma build_matcher_body_ext (f g : tree → B tree) t modified :
  (∀ x modified', (height x < height t)%nat →
     build (f x) modified' = build (g x) modified') →
  build (build_matcher_body hqu hqa hqw hqn f t) modified
  = build (build_matcher_body hqu hqa hqw hqn g t) modified.
Proof.
  intros Hfg. unfold build_matcher_body.
  assert (∀ field elts l x,
            attr t field = Ok elts → iter elts = Ok l → x ∈ l →
            (height x < height t)%nat) as Hchild.
  { intros field elts l x Ha Hi Hx.
    eapply Nat.le_lt_trans; [by eapply height_iter|by eapply height_attr]. }
  assert (∀ field modified0 (k : list tree → B tree),
            build (elts ← read (attr t field); children ← read (iter elts);
                   sub_matchers ← mapM f children; k sub_matchers) modified0
            = build (elts ← read (attr t field); children ← read (iter elts);
                     sub_matchers ← mapM g children; k sub_matchers) modified0)
    as Hloop.
  { intros field modified0 k. rewrite !build_read_bind.
    destruct (attr t field) as [elts|] eqn:Ea; [|done].
    rewrite !build_read_bind. destruct (iter elts) as [l|] eqn:Ei; [|done].
    rewrite !build_bind.
    rewrite (build_mapM_ext f g); [done|]. intros x m Hx. apply Hfg. eauto. }
  destruct (isinstance t "Num"); [done|].
  destruct (isinstance t "Str"); [done|].
  destruct (isinstance t "NameConstant"); [done|].
  destruct (isinstance t "Name"); [done|].
  destruct (isinstance t "List"); [apply Hloop|].
  destruct (isinstance t "Tuple"); [apply Hloop|].
  destruct (isinstance t "Call").
  { rewrite !build_read_bind.
    destruct (attr t "args") as [args|] eqn:Ea; [|done].
    rewrite !build_read_bind. destruct (iter args) as [l|] eqn:Ei; [|done].
    rewrite !build_bind.
    rewrite (build_mapM_ext f g) by (intros x m Hx; apply Hfg; eauto).
    destruct (build (mapM g l) modified) as [modified1 [subs| |]]; [|done..].
    rewrite !build_read_bind.
    destruct (attr t "keywords") as [keywords|] eqn:Ek; [|done].
    rewrite !build_read_bind. destruct (iter keywords) as [kws|] eqn:Eki; [|done].
    rewrite !build_bind.
    rewrite (build_mapM_ext
               (λ kw, arg ← read (attr kw "arg");
                      value ← read (attr kw "value");
                      m ← f value; mret (keyword arg m))
               (λ kw, arg ← read (attr kw "arg");
                      value ← read (attr kw "value");
                      m ← g value; mret (keyword arg m))); [done|].
    intros kw m Hkw. rewrite !build_read_bind.
    destruct (attr kw "arg") as [arg|]; [|done].
    rewrite !build_read_bind.
    destruct (attr kw "value") as [value|] eqn:Ev; [|done].
    rewrite !build_bind, Hfg; [done|].
    eapply Nat.lt_trans; [by eapply height_attr|]. eauto. }
  rewrite !build_bind.
  destruct (build _ modified) as [modified1 [[]| |]]; [|done..].
  rewrite !build_read_bind. destruct (attr t "left") as [left|] eqn:El; [|done].
  rewrite !build_bind, Hfg by (by eapply height_attr).
  destruct (build (g left) modified1) as [modified2 [sub1| |]]; [|done..].
  rewrite !build_read_bind. destruct (attr t "right") as [right|] eqn:Er; [|done].
  rewrite !build_bind, Hfg by (by eapply height_attr). done.
Qed.

Lemma build_matcher_within_enough n m t modified :
  (height t < n)%nat → (height t < m)%nat →
  build (build_matcher_within hqu hqa hqw hqn n t) modified
  = build (build_matcher_within hqu hqa hqw hqn m t) modified.
Proof.
  revert m t modified. induction n as [|n IH]; intros m t modified Hn Hm; [lia|].
  destruct m as [|m]; [lia|]. cbn [build_matcher_within].
  apply build_matcher_body_ext. intros x modified' Hx. apply IH; lia.
Qed.

(** [build_matcher] is the function that its body defines: the bound on
    the depth is never met. *)
Lemma build_matcher_unfold t modified :
  build (build_matcher hqu hqa hqw hqn t) modified
  = build (build_matcher_body hqu hqa hqw hqn
             (build_matcher hqu hqa hqw hqn) t) modified.
Proof.
  unfold build_matcher at 1. cbn [build_matcher_within].
  apply build_matcher_body_ext.
  intros x modified' Hx. unfold build_matcher.
  apply build_matcher_within_enough; lia.
Qed.

End build_matcher_facts.

(** ** What build_matcher adds to modified *)

Lemma adds_ret {A} P (a : A) : adds P (mret a).
Proof. intros added. exists []. by rewrite app_nil_r. Qed.

Lemma adds_read {A} P (r : result A) : adds P (read r).
Proof. intros added. exists []. by rewrite app_nil_r. Qed.

Lemma adds_Unrecognized {A} P t :
  adds P (Build (λ added, (added, @Unrecognized A t))).
Proof. intros added. exists []. by rewrite app_nil_r. Qed.

Lemma adds_bind {A C} P (c : B A) (k : A → B C) :
  adds P c → (∀ a, adds P (k a)) → adds P (c ≫= k).
Proof.
  intros Hc Hk added. rewrite build_bind.
  destruct (Hc added) as (new1 & E1 & H1).
  destruct (build c added) as [added' [a| |]]; simpl in E1; subst added'.
  - destruct (Hk a (added ++ new1)) as (new2 & E2 & H2).
    exists (new1 ++ new2). rewrite E2, app_assoc. split; [done|].
    by apply Forall_app.
  - by exists new1.
  - by exists new1.
Qed.

Lemma adds_mapM {A C} P (f : A → B C) (l : list A) :
  (∀ x, x ∈ l → adds P (f x)) → adds P (mapM f l).
Proof.
  induction l as [|x l IH]; intros Hf; [apply adds_ret|].
  cbn [mapM]. apply adds_bind; [apply Hf; by left|]. intros y.
  apply adds_bind; [apply IH; intros; apply Hf; by right|]. intros ys.
  apply adds_ret.
Qed.

Lemma adds_add (P : tree → Prop) id : P id → adds P (add id).
Proof.
  intros HP added. destruct id; simpl;
    first [ by exists []; rewrite app_nil_r
          | eexists [_]; split; [done|by constructor] ].
Qed.

Lemma adds_weaken {A} (P Q : tree → Prop) (c : B A) :
  (∀ x, P x → Q x) → adds P c → adds Q c.
Proof.
  intros HPQ Hc added. destruct (Hc added) as (new & E & H).
  exists new. split; [done|]. by eapply Forall_impl.
Qed.

Lemma elem_of_concat_of {A} (x : A) (l : list A) (ls : list (list A)) :
  l ∈ ls → x ∈ l → x ∈ concat ls.
Proof.
  induction ls as [|l' ls IH]; simpl; [by intros ?%elem_of_nil|].
  intros [->|Hl]%elem_of_cons Hx; apply elem_of_app; [by left|right; auto].
Qed.

Lemma name_ids_attr t f v x :
  attr t f = Ok v → x ∈ name_ids v → x ∈ name_ids t.
Proof.
  destruct t as [cls fields| | | |]; simpl; try done.
  destruct (assoc f fields) as [v'|] eqn:E; [|done]. intros [= ->] Hx.
  apply assoc_elem_of in E. apply elem_of_app. right.
  apply (elem_of_concat_of _ (name_ids v)); [|done].
  apply list_elem_of_fmap. by exists (f, v).
Qed.

Lemma name_ids_iter v l y x :
  iter v = Ok l → y ∈ l → x ∈ name_ids y → x ∈ name_ids v.
Proof.
  destruct v as [|elts|s| |]; simpl; try done; intros [= <-] Hy Hx.
  - apply (elem_of_concat_of _ (name_ids y)); [|done].
    by apply list_elem_of_fmap_2.
  - assert (height y = 0%nat) as Hh by (by eapply height_chars).
    destruct y; simpl in *; try done; by apply elem_of_nil in Hx.
Qed.

Lemma name_ids_Name t id :
  isinstance t "Name" = true → attr t "id" = Ok id → id ∈ name_ids t.
Proof.
  intros [fields ->]%isinstance_true. simpl.
  destruct (assoc "id" fields) as [v|]; [|done]. intros [= ->].
  apply elem_of_app. left. by left.
Qed.

Section build_matcher_adds.
Variables (hqu hqa : tree → tree) (hqw : tree) (hqn : tree → tree).

Lemma build_matcher_within_adds depth t :
  adds (λ id, id ∈ name_ids t ∧ id ≠ TStr "_")
    (build_matcher_within hqu hqa hqw hqn depth t).
Proof.
  revert t. induction depth as [|depth IH]; intros t;
    [apply adds_Unrecognized|].
  cbn [build_matcher_within]. unfold build_matcher_body.
  assert (∀ field (k : list tree → B tree),
            (∀ subs, adds (λ id, id ∈ name_ids t ∧ id ≠ TStr "_") (k subs)) →
            adds (λ id, id ∈ name_ids t ∧ id ≠ TStr "_")
              (elts ← read (attr t field); children ← read (iter elts);
               sub_matchers ←
                 mapM (build_matcher_within hqu hqa hqw hqn depth) children;
               k sub_matchers)) as Hloop.
  { intros field k Hk. intros added. rewrite build_read_bind.
    destruct (attr t field) as [elts|] eqn:Ea;
      [|by exists []; rewrite app_nil_r].
    rewrite build_read_bind.
    destruct (iter elts) as [l|] eqn:Ei; [|by exists []; rewrite app_nil_r].
    revert added. apply adds_bind; [|done].
    apply adds_mapM. intros x Hx. eapply adds_weaken; [|apply IH].
    intros id [Hid Hne]. split; [|done].
    eapply name_ids_attr; [done|]. by eapply name_ids_iter. }
  destruct (isinstance t "Num");
    [apply adds_bind; [apply adds_read|intros; apply adds_ret]|].
  destruct (isinstance t "Str");
    [apply adds_bind; [apply adds_read|intros; apply adds_ret]|].
  destruct (isinstance t "NameConstant"); [apply adds_ret|].
  destruct (isinstance t "Name") eqn:EN.
  { intros added. rewrite build_read_bind.
    destruct (attr t "id") as [id|] eqn:Ea; [|by exists []; rewrite app_nil_r].
    revert added. case_bool_decide as Hid; [apply adds_ret|].
    apply adds_bind; [|intros; apply adds_ret].
    apply adds_add. split; [by apply name_ids_Name|done]. }
  destruct (isinstance t "List"); [apply Hloop; intros; apply adds_ret|].
  destruct (isinstance t "Tuple"); [apply Hloop; intros; apply adds_ret|].
  destruct (isinstance t "Call").
  { apply Hloop. intros subs added. rewrite build_read_bind.
    destruct (attr t "keywords") as [keywords|] eqn:Ek;
      [|by exists []; rewrite app_nil_r].
    rewrite build_read_bind.
    destruct (iter keywords) as [kws|] eqn:Eki;
      [|by exists []; rewrite app_nil_r].
    revert added. apply adds_bind.
    - apply adds_mapM. intros kw Hkw added. rewrite build_read_bind.
      destruct (attr kw "arg") as [arg|]; [|by exists []; rewrite app_nil_r].
      rewrite build_read_bind.
      destruct (attr kw "value") as [value|] eqn:Ev;
        [|by exists []; rewrite app_nil_r].
      revert added. apply adds_bind; [|intros; apply adds_ret].
      eapply adds_weaken; [|apply IH]. intros id [Hid Hne]. split; [|done].
      eapply name_ids_attr; [exact Ek|]. eapply name_ids_iter; [done..|].
      by eapply name_ids_attr.
    - intros kwm. apply adds_bind; [apply adds_read|intros; apply adds_ret]. }
  apply adds_bind.
  { destruct (isinstance t "BinOp"); [|apply adds_ret].
    apply adds_bind; [apply adds_read|intros; apply adds_ret]. }
  intros [|]; [|apply adds_Unrecognized].
  intros added. rewrite build_read_bind.
  destruct (attr t "left") as [left|] eqn:El; [|by exists []; rewrite app_nil_r].
  revert added. apply adds_bind.
  { eapply adds_weaken; [|apply IH]. intros id [Hid Hne]. split; [|done].
    by eapply name_ids_attr. }
  intros sub1 added. rewrite build_read_bind.
  destruct (attr t "right") as [right|] eqn:Er;
    [|by exists []; rewrite app_nil_r].
  revert added. apply adds_bind; [|intros; apply adds_ret].
  eapply adds_weaken; [|apply IH]. intros id [Hid Hne]. split; [|done].
  by eapply name_ids_attr.
Qed.

(** Whatever [build_matcher(tree, modified)] does, return or raise,
    [modified] keeps what it held, and every value that was added to it is
    the [id] of a [Name] node of [tree], and is not ['_']. *)
Theorem build_matcher_adds_names (t : tree) (added : list tree) :
  ∃ new,
    (build (build_matcher hqu hqa hqw hqn t) added).1 = added ++ new
    ∧ Forall (λ id, id ∈ name_ids t ∧ id ≠ TStr "_") new.
Proof. apply build_matcher_within_adds. Qed.

End build_matcher_adds.

(** ** How build_matcher fails *)

Lemma attr_Raise t f e : attr t f = Raise e → access_error e.
Proof.
  destruct t as [cls fields| | | |]; simpl;
    [destruct (assoc f fields)|..]; intros [= <-]; right; eauto.
Qed.

Lemma iter_Raise t e : iter t = Raise e → access_error e.
Proof. destruct t; simpl; intros [= <-]; by left. Qed.

Lemma build_ret {A} (a : A) added : build (mret a) added = (added, Built a).
Proof. done. Qed.

Lemma fails_ret {A} U E (a : A) : fails_with U E (mret a).
Proof. by intros added. Qed.

Lemma fails_bind {A C} U E (c : B A) (k : A → B C) :
  fails_with U E c → (∀ a, fails_with U E (k a)) → fails_with U E (c ≫= k).
Proof.
  intros Hc Hk added. rewrite build_bind. specialize (Hc added).
  destruct (build c added) as [added' [a| |]]; [apply Hk|done..].
Qed.

Lemma fails_mapM {A C} U E (f : A → B C) (l : list A) :
  (∀ x, x ∈ l → fails_with U E (f x)) → fails_with U E (mapM f l).
Proof.
  induction l as [|x l IH]; intros Hf; [apply fails_ret|].
  cbn [mapM]. apply fails_bind; [apply Hf; by left|]. intros y.
  apply fails_bind; [apply IH; intros; apply Hf; by right|]. intros ys.
  apply fails_ret.
Qed.

Lemma fails_add U id : fails_with U access_error (add id).
Proof. intros added. destruct id; simpl; try done. by left. Qed.

Lemma fails_weaken {A} (U U' : tree → Prop) E (c : B A) :
  (∀ u, U u → U' u) → fails_with U E c → fails_with U' E c.
Proof.
  intros HU Hc added. specialize (Hc added).
  destruct (build c added) as [added' [a| |]]; simpl in *; auto.
Qed.

Section build_matcher_fails.
Variables (hqu hqa : tree → tree) (hqw : tree) (hqn : tree → tree).

Ltac read_attr E :=
  let added := fresh "added" in
  intros added; rewrite build_read_bind;
  match goal with
  | |- context [match ?r with Ok _ => _ | Raise _ => _ end] =>
      destruct r eqn:E;
      [revert added|first [by eapply attr_Raise|by eapply iter_Raise]]
  end.

Lemma build_matcher_within_fails depth t :
  (height t < depth)%nat →
  fails_with (λ u, no_pattern u ∧ (height u ≤ height t)%nat) access_error
    (build_matcher_within hqu hqa hqw hqn depth t).
Proof.
  revert t. induction depth as [|depth IH]; intros t Hd; [lia|].
  cbn [build_matcher_within]. unfold build_matcher_body.
  assert (∀ x, (height x < height t)%nat →
            fails_with (λ u, no_pattern u ∧ (height u ≤ height t)%nat)
              access_error (build_matcher_within hqu hqa hqw hqn depth x))
    as Hrec.
  { intros x Hx. eapply fails_weaken; [|apply IH; lia].
    intros u [Hu Hh]. split; [done|lia]. }
  assert (∀ field (k : list tree → B tree),
            (∀ subs,
               fails_with (λ u, no_pattern u ∧ (height u ≤ height t)%nat)
                 access_error (k subs)) →
            fails_with (λ u, no_pattern u ∧ (height u ≤ height t)%nat)
              access_error
              (elts ← read (attr t field); children ← read (iter elts);
               sub_matchers ←
                 mapM (build_matcher_within hqu hqa hqw hqn depth) children;
               k sub_matchers)) as Hloop.
  { intros field k Hk. read_attr Ea. read_attr Ei.
    apply fails_bind; [|done]. apply fails_mapM. intros x Hx. apply Hrec.
    eapply Nat.le_lt_trans; [by eapply height_iter|by eapply height_attr]. }
  destruct (isinstance t "Num") eqn:E1; [read_attr Ea; apply fails_ret|].
  destruct (isinstance t "Str") eqn:E2; [read_attr Ea; apply fails_ret|].
  destruct (isinstance t "NameConstant") eqn:E3; [apply fails_ret|].
  destruct (isinstance t "Name") eqn:E4.
  { read_attr Ea. case_bool_decide; [apply fails_ret|].
    apply fails_bind; [apply fails_add|intros; apply fails_ret]. }
  destruct (isinstance t "List") eqn:E5;
    [apply Hloop; intros; apply fails_ret|].
  destruct (isinstance t "Tuple") eqn:E6;
    [apply Hloop; intros; apply fails_ret|].
  destruct (isinstance t "Call") eqn:E7.
  { apply Hloop. intros subs. read_attr Ek. read_attr Eki.
    apply fails_bind.
    - apply fails_mapM. intros kw Hkw. read_attr Ekarg. read_attr Ev.
      apply fails_bind; [|intros; apply fails_ret]. apply Hrec.
      eapply Nat.lt_trans; [by eapply height_attr|].
      eapply Nat.le_lt_trans; [by eapply height_iter|by eapply height_attr].
    - intros kwm. read_attr Ef. apply fails_ret. }
  assert (Forall (λ cls, isinstance t cls = false) pattern_classes) as Hcls
    by (by repeat constructor).
  intros added. rewrite build_bind.
  destruct (isinstance t "BinOp") eqn:E8.
  - rewrite build_read_bind. destruct (attr t "op") as [op|] eqn:Eop;
      [|by eapply attr_Raise].
    rewrite build_ret. lazy beta iota.
    destruct (isinstance op "BitAnd") eqn:E9.
    + revert added. read_attr El.
      apply fails_bind; [apply Hrec; by eapply height_attr|]. intros sub1.
      read_attr Er.
      apply fails_bind; [apply Hrec; by eapply height_attr|]. intros sub2.
      apply fails_ret.
    + simpl. split; [|done]. split; [done|]. right. eauto.
  - rewrite build_ret. simpl. split; [|done]. split; [done|]. by left.
Qed.

(** When [build_matcher(tree, modified)] raises
    [Exception("Unrecognized tree " + repr(u))], [u] lies no deeper than
    [tree], and no branch of [build_matcher] takes it: it is no number,
    string, constant, name, list, tuple or call, and if it is a binary
    operation its operator is not [&]. *)
Theorem build_matcher_Unrecognized (t u : tree) (added added' : list tree) :
  build (build_matcher hqu hqa hqw hqn t) added = (added', Unrecognized u) →
  no_pattern u ∧ (height u ≤ height t)%nat.
Proof.
  intros Hb.
  pose proof (build_matcher_within_fails (S (height t)) t
                (Nat.lt_succ_diag_r _) added) as H.
  unfold build_matcher in Hb. by rewrite Hb in H.
Qed.

(** The other exceptions that [build_matcher(tree, modified)] raises come
    from reading an attribute that the node has not, from iterating over
    what is no sequence, or from adding a list to [modified]: a
    [TypeError] or an [AttributeError]. *)
Theorem build_matcher_raises (t : tree) (e : exn) (added added' : list tree) :
  build (build_matcher hqu hqa hqw hqn t) added = (added', Raised e) →
  access_error e.
Proof.
  intros Hb.
  pose proof (build_matcher_within_fails (S (height t)) t
                (Nat.lt_succ_diag_r _) added) as H.
  unfold build_matcher in Hb. by rewrite Hb in H.
Qed.

End build_matcher_fails.

(** For [[x, a.b]] the attribute [a.b] is reported, after [x] was added. *)
Lemma build_matcher_Unrecognized_witness :
  build (build_matcher
           (λ x, Call (Name "LiteralMatcher" Load) [x] [])
           (λ x, Call (Name "LiteralMatcher" Load) [x] [])
           (Call (Name "WildcardMatcher" Load) [] [])
           (λ x, Call (Name "NameMatcher" Load) [x] [])
           (List_of [Name "x" Load; Attribute (Name "a" Load) "b" Load] Load))
    []
  = ([TStr "x"], Unrecognized (Attribute (Name "a" Load) "b" Load))
  ∧ no_pattern (Attribute (Name "a" Load) "b" Load)
  ∧ (height (Attribute (Name "a" Load) "b" Load)
     ≤ height (List_of [Name "x" Load; Attribute (Name "a" Load) "b" Load]
                 Load))%nat.
Proof.
  split; [vm_compute; reflexivity|].
  apply (build_matcher_Unrecognized
           (λ x, Call (Name "LiteralMatcher" Load) [x] [])
           (λ x, Call (Name "LiteralMatcher" Load) [x] [])
           (Call (Name "WildcardMatcher" Load) [] [])
           (λ x, Call (Name "NameMatcher" Load) [x] [])
           (List_of [Name "x" Load; Attribute (Name "a" Load) "b" Load] Load)
           (Attribute (Name "a" Load) "b" Load) [] [TStr "x"]).
  vm_compute. reflexivity.
Defined.

(** For [[x, y]] whose second name holds a list in the place of its
    identifier, adding the identifier to [modified] raises. *)
Lemma build_matcher_raises_witness :
  build (build_matcher
           (λ x, Call (Name "LiteralMatcher" Load) [x] [])
           (λ x, Call (Name "LiteralMatcher" Load) [x] [])
           (Call (Name "WildcardMatcher" Load) [] [])
           (λ x, Call (Name "NameMatcher" Load) [x] [])
           (List_of [Name "x" Load;
                     AST "Name" [("id", TList []); ("ctx", Load)]] Load))
    []
  = ([TStr "x"], Raised TypeError)
  ∧ access_error TypeError.
Proof.
  split; [vm_compute; reflexivity|].
  apply (build_matcher_raises
           (λ x, Call (Name "LiteralMatcher" Load) [x] [])
           (λ x, Call (Name "LiteralMatcher" Load) [x] [])
           (Call (Name "WildcardMatcher" Load) [] [])
           (λ x, Call (Name "NameMatcher" Load) [x] [])
           (List_of [Name "x" Load;
                     AST "Name" [("id", TList []); ("ctx", Load)]] Load)
           TypeError [] [TStr "x"]).
  vm_compute. reflexivity.
Defined.

End BuildingFacts.

(** * Properties of the import hook *)

Section ImportHooksFacts.
Import ImportHooks.
Context {world tree code module binding original_loader path loader : Type}.
Variable O : outside world tree code module binding original_loader path loader.

Local Notation IO := (ImportHooks.IO world).
Local Notation safe := (@ImportHooks.safe world _).

(** ** Runs *)

Lemma perform_bind {A B} (c : IO A) (k : A → IO B) st :
  perform (c ≫= k) st
  = match perform c st with
    | (st', Returns a) => perform (k a) st'
    | (st', Raises e) => (st', Raises e)
    end.
Proof. done. Qed.

Lemma safe_ret {A} (P : A → Prop) a : P a → safe P (mret a).
Proof.
  intros HP st. split; [by intros a' [= <-]|].
  exists []. simpl. rewrite app_nil_r. set_solver.
Qed.

Lemma safe_raise {A} (P : A → Prop) e : safe P (raise e).
Proof.
  intros st. split; [done|]. exists []. simpl. rewrite app_nil_r. set_solver.
Qed.

Lemma safe_call {A} name (f : world → world * outcome A) :
  name ≠ "exec" → name ≠ "export_transformed" →
  safe (λ _, True) (call name f).
Proof.
  intros H1 H2 [w log]. simpl. destruct (f w) as [w' r]. simpl.
  split; [done|]. exists [name]. set_solver.
Qed.

Lemma safe_bind {A B} (Q : A → Prop) (P : B → Prop) (c : IO A)
    (k : A → IO B) :
  safe Q c → (∀ a, Q a → safe P (k a)) → safe P (c ≫= k).
Proof.
  intros Hc Hk st. rewrite perform_bind.
  destruct (Hc st) as [HQ (new & Hnew & He & Hx)].
  destruct (perform c st) as [st' [a|e]]; simpl in *.
  - destruct (Hk a (HQ a eq_refl) st') as [HP (new' & Hnew' & He' & Hx')].
    split; [done|]. exists (new ++ new').
    rewrite Hnew', Hnew, app_assoc. set_solver.
  - split; [done|]. by exists new.
Qed.

Lemma safe_weaken {A} (P Q : A → Prop) (c : IO A) :
  safe P c → (∀ a, P a → Q a) → safe Q c.
Proof. intros Hc HPQ st. destruct (Hc st) as [HP Hn]. split; [auto|done]. Qed.

Lemma safe_try_except {A} (P : A → Prop) (c handler : IO A) :
  safe P c → safe P handler → safe P (try_except c handler).
Proof.
  intros Hc Hh st. simpl.
  destruct (Hc st) as [HP (new & Hnew & He & Hx)].
  destruct (perform c st) as [st' [a|e]]; simpl in *.
  - split; [done|]. by exists new.
  - destruct (Hh st') as [HP' (new' & Hnew' & He' & Hx')].
    split; [done|]. exists (new ++ new').
    rewrite Hnew', Hnew, app_assoc. set_solver.
Qed.

Lemma safe_try_except_Exception {A} (P : A → Prop) (c : IO A)
    (handler : raised → IO A) :
  safe P c → (∀ e, safe P (handler e)) →
  safe P (try_except_Exception c handler).
Proof.
  intros Hc Hh st. simpl.
  destruct (Hc st) as [HP (new & Hnew & He & Hx)].
  destruct (perform c st) as [st' [a|[cls|cls]]]; simpl in *.
  - split; [done|]. by exists new.
  - destruct (Hh (Exception cls) st') as [HP' (new' & Hnew' & He' & Hx')].
    split; [done|]. exists (new ++ new').
    rewrite Hnew', Hnew, app_assoc. set_solver.
  - split; [done|]. by exists new.
Qed.

Lemma safe_mapM {A B} (f : A → IO B) (l : list A) :
  (∀ x, safe (λ _, True) (f x)) → safe (λ _, True) (mapM f l).
Proof.
  intros Hf. induction l as [|x l IH]; simpl; [by apply safe_ret|].
  eapply safe_bind; [apply Hf|]. intros y _.
  eapply safe_bind; [apply IH|]. intros ys _. by apply safe_ret.
Qed.

Ltac safe_call_step :=
  eapply safe_bind; [by apply safe_call|intros ? _].

Lemma safe_expand_macros source_code filename :
  safe (λ _, True) (expand_macros O source_code filename).
Proof.
  unfold expand_macros. destruct source_code as [source_code|];
    [|by apply safe_ret].
  destruct (_ || _); [by apply safe_ret|].
  do 2 safe_call_step.
  match goal with |- safe _ (match ?b with _ => _ end) => destruct b as [|pb bs] end;
    [by apply safe_ret|].
  eapply safe_bind; [apply safe_mapM; intros; by apply safe_call|]. intros _ _.
  eapply safe_bind.
  { apply safe_mapM. intros x. safe_call_step. by apply safe_ret. }
  intros modules _. do 2 safe_call_step. by apply safe_ret.
Qed.

Lemma safe_construct_module module_name file_path :
  safe (λ _, False)
    (construct_module O module_name file_path).
Proof.
  unfold construct_module.
  eapply safe_bind with (Q := λ _, True).
  { destruct (PY3 O); [by apply safe_call|apply safe_raise]. }
  intros m _. do 2 safe_call_step.
  eapply safe_bind with (Q := λ _, False); [apply safe_raise|].
  by intros l [].
Qed.

Lemma safe_get_source module_name package_path :
  safe (λ _, True) (get_source O module_name package_path).
Proof.
  unfold get_source. destruct (PY3 O); [|apply safe_raise].
  safe_call_step.
  match goal with |- safe _ (match ?b with _ => _ end) => destruct b end;
    [|apply safe_raise].
  do 2 safe_call_step. by apply safe_ret.
Qed.

Lemma safe_find_module module_name package_path :
  safe (λ r, r = None)
    (find_module O module_name package_path).
Proof.
  unfold find_module. eapply safe_bind with (Q := λ _, True).
  { apply safe_try_except; [|by apply safe_ret].
    eapply safe_bind; [apply safe_get_source|]. intros sf _.
    by apply safe_ret. }
  intros [[source_code file_path]|] _; [|by apply safe_ret].
  apply safe_try_except_Exception.
  - safe_call_step.
    match goal with |- safe _ (if ?b then _ else _) => destruct b end.
    + eapply safe_bind with (Q := λ _, False); [apply safe_raise|].
      by intros l [].
    + eapply safe_bind; [apply safe_expand_macros|].
      intros [[code' tree']|] _; [|by apply safe_ret].
      eapply safe_bind; [apply safe_construct_module|]. by intros m [].
  - intros e. do 2 safe_call_step. by apply safe_ret.
Qed.

Lemma calls_of_new {A} (c : IO A) st new :
  (perform c st).1.2 = st.2 ++ new → calls_of c st = new.
Proof. intros H. unfold calls_of. by rewrite H, drop_app_length. Qed.

(** ** construct_module and find_module *)

(** [construct_module] never returns a module: the construction of the
    [_MacroLoader] raises [AttributeError] when nothing before it has
    raised, and under Python 2 the first statement does. *)
Theorem construct_module_never_returns (module_name file_path : string)
    (st : state world) :
  (∀ m, (perform (construct_module O module_name file_path) st).2 ≠ Returns m)
  ∧ (PY3 O = false →
     perform (construct_module O module_name file_path) st
     = (st, Raises (Exception "AttributeError")))
  ∧ (∀ mod_ : module,
       perform (_MacroLoader (loader:=loader) module_name mod_) st
       = (st, Raises (Exception "AttributeError"))).
Proof.
  split; [|split].
  - intros m Hm.
    by destruct (safe_construct_module module_name file_path st) as [H _];
      apply H in Hm.
  - intros HPY. unfold construct_module. by rewrite HPY.
  - done.
Qed.

(** [find_module] never returns a loader: it returns [None] when it returns,
    it never calls [exec] and never exports, whatever the calls that it
    makes return or raise.  Under Python 2 it returns [None] and has done
    nothing. *)
Theorem find_module_returns_None (module_name : string) (package_path : path)
    (st : state world) :
  (∀ r, (perform (find_module O module_name package_path) st).2 = Returns r →
        r = None)
  ∧ ("exec" ∉ calls_of (find_module O module_name package_path) st)
  ∧ ("export_transformed"
     ∉ calls_of (find_module O module_name package_path) st)
  ∧ (PY3 O = false →
     perform (find_module O module_name package_path) st = (st, Returns None)).
Proof.
  destruct (safe_find_module module_name package_path st)
    as [Hr (new & Hnew & He & Hx)].
  split; [done|]. rewrite (calls_of_new _ _ _ Hnew).
  split; [done|]. split; [done|].
  intros HPY. unfold find_module, get_source. by rewrite HPY.
Qed.

(** ** expand_macros *)

Lemma calls_mapM {A B} (name : string) (g : A → IO B) (l : list A) :
  (∀ x st, (perform (g x) st).1.2 = st.2 ++ [name]) →
  ∀ st, ∃ k,
    (perform (mapM g l) st).1.2 = st.2 ++ replicate k name
    ∧ ∀ r, (perform (mapM g l) st).2 = Returns r → k = length l.
Proof.
  intros Hg. induction l as [|x l IH]; intros st; cbn [mapM].
  - exists 0%nat. simpl. by rewrite app_nil_r.
  - specialize (Hg x st). rewrite perform_bind.
    destruct (perform (g x) st) as [st1 [y|e]]; cbn [fst snd] in *.
    + destruct (IH st1) as (k & Hk & Hlen). exists (S k).
      rewrite perform_bind.
      destruct (perform (mapM g l) st1) as [st2 [ys|e]]; cbn [fst snd] in *.
      * cbn [perform mret IO_ret fst snd length replicate].
        rewrite Hk, Hg, <- app_assoc. split; [done|].
        intros r _. by rewrite (Hlen ys).
      * rewrite Hk, Hg, <- app_assoc. by split.
    + exists 1%nat. by split.
Qed.

Lemma expand_macros_Some source_code filename w log st' ct :
  perform (expand_macros O source_code filename) (w, log)
  = (st', Returns (Some ct)) →
  ∃ n, (0 < n)%nat
       ∧ st'.2 = log ++ ["ast.parse"; "detect_macros"]
                 ++ replicate n "__import__" ++ replicate n "sys.modules"
                 ++ ["expand_entire_ast"; "compile"].
Proof.
  unfold expand_macros.
  destruct source_code as [source_code|]; [|done].
  destruct (_ || _); [done|].
  rewrite perform_bind. unfold call at 1. cbn [perform fst snd].
  destruct (ast_parse O source_code w) as [w1 [t|e]]; [|done].
  rewrite perform_bind. unfold call at 1. cbn [perform fst snd].
  destruct (detect_macros O t w1) as [w2 [bindings|e]]; [|done].
  destruct bindings as [|pb bs]; [done|].
  set (bindings := pb :: bs).
  rewrite perform_bind.
  destruct (calls_mapM "__import__"
              (λ pb : string * binding,
                 call "__import__" (__import__ O pb.1)) bindings)
    with (st := (w2, (log ++ ["ast.parse"]) ++ ["detect_macros"]))
    as (k1 & Hk1 & Hlen1).
  { intros x [w' log']. unfold call. simpl.
    by destruct (__import__ O x.1 w'). }
  destruct (perform (mapM _ bindings) _) as [st3 [us|e]]; [|done].
  specialize (Hlen1 us eq_refl). subst k1. simpl in Hk1.
  rewrite perform_bind.
  destruct (calls_mapM "sys.modules"
              (λ pb : string * binding,
                 m ← call "sys.modules" (sys_modules_getitem O pb.1);
                 mret (m, pb.2)) bindings)
    with (st := st3) as (k2 & Hk2 & Hlen2).
  { intros x [w' log']. rewrite perform_bind. unfold call. simpl.
    by destruct (sys_modules_getitem O x.1 w') as [? [?|?]]. }
  destruct (perform (mapM _ bindings) st3) as [st4 [modules|e]]; [|done].
  specialize (Hlen2 modules eq_refl). subst k2.
  destruct st4 as [w4 log4]. cbn [fst snd] in Hk2.
  rewrite perform_bind. unfold call at 1. cbn [perform fst snd].
  destruct (expand_entire_ast O t source_code modules w4) as [w5 [nt|e]];
    [|done].
  rewrite perform_bind. unfold call at 1. cbn [perform fst snd].
  destruct (compile O t filename w5) as [w6 [c|e]]; [|done].
  cbn [perform mret IO_ret fst snd]. intros [= <- _].
  exists (length bindings). split; [simpl; lia|].
  cbn [snd]. rewrite Hk2, Hk1. cbn [length replicate].
  by rewrite <- !app_assoc.
Qed.


End ImportHooksFacts.
